(** * Hexo2Typecho: a shallow embedding of [hexo2typecho.py]

    Python values are modelled as follows.
    - [str] is a list of characters; a character is a code point in the
      range 0..255 (Rocq's [ascii]), classified as Python classifies the
      Latin-1 range.
    - Python integers are unbounded: identifiers are in [Z], positions in
      a string are in [nat].
    - A [dict] keeps insertion order, so it is an association list whose
      keys are updated in place.
    - A loop that appends to [out] and returns the joined [out] is a
      function that returns the concatenation of the appended pieces. *)

From Stdlib Require Import List Ascii ZArith Lia Bool Arith Permutation Sorted.
From Stdlib Require String.
Import String.StringSyntax.
Delimit Scope string_scope with string.
From Stdlib Require Import Numbers.DecimalString.
From Stdlib Require Import Floats.SpecFloat.
Import ListNotations.
Open Scope list_scope.
Set Warnings "-register-all".

(** ** Python strings *)

Definition str := list ascii.

Definition py (s : String.string) : str := String.list_ascii_of_string s.
Arguments py s%_string.

Definition LF : ascii := ascii_of_nat 10.
Definition CR : ascii := ascii_of_nat 13.
Definition TAB : ascii := ascii_of_nat 9.
Definition DQUOTE : ascii := ascii_of_nat 34.
Definition SQUOTE : ascii := ascii_of_nat 39.

Definition code (c : ascii) : N := N_of_ascii c.

Definition in_range (lo hi : N) (c : ascii) : bool :=
  ((lo <=? code c) && (code c <=? hi))%N.

(** [str.isspace] on one character, which is also [\s] of a [str] pattern. *)
Definition is_space (c : ascii) : bool :=
  in_range 9 13 c || in_range 28 32 c || (code c =? 133)%N || (code c =? 160)%N.

Definition str_eqb (a b : str) : bool :=
  if list_eq_dec ascii_dec a b then true else false.

(** ** Math underscores: [is_escaped_at], [escape_math_underscores],
    [unescape_math_underscores] *)

(** The [while pos >= 0 and text[pos]] is a backslash loop of [is_escaped_at],
    entered with [pos = n - 1]; the result is the value of [backslashes]. *)
Fixpoint backslash_run (text : str) (n : nat) : nat :=
  match n with
  | O => O
  | S pos =>
      if (nth pos text zero =? "\")%char
      then S (backslash_run text pos)
      else O
  end.

Definition is_escaped_at (text : str) (index : nat) : bool :=
  Nat.odd (backslash_run text index).

Fixpoint escape_loop (text : str) (idx : nat) (rest : str) : str :=
  match rest with
  | [] => []
  | ch :: rest' =>
      (if (ch =? "_")%char && negb (is_escaped_at text idx)
       then ["\"%char; "_"%char]
       else [ch]) ++ escape_loop text (S idx) rest'
  end.

Definition escape_math_underscores (text : str) : str :=
  escape_loop text 0 text.

Fixpoint unescape_loop (fuel : nat) (text : str) (i : nat) : str :=
  match fuel with
  | O => []
  | S fuel' =>
      if i <? length text then
        if (nth i text zero =? "\")%char
           && (i + 1 <? length text)
           && (nth (i + 1) text zero =? "_")%char
           && negb (is_escaped_at text i)
        then "_"%char :: unescape_loop fuel' text (i + 2)
        else nth i text zero :: unescape_loop fuel' text (i + 1)
      else []
  end.

Definition unescape_math_underscores (text : str) : str :=
  unescape_loop (length text) text 0.

Definition normalize_math_underscores_segment (text mode : str) : str :=
  if str_eqb mode (py "underscore") then unescape_math_underscores text
  else if str_eqb mode (py "escaped") then escape_math_underscores text
  else text.

(** ** More of [str]: the methods the converter calls *)

Definition str_empty (s : str) : bool :=
  match s with [] => true | _ => false end.

Fixpoint mem (x : str) (l : list str) : bool :=
  match l with
  | [] => false
  | y :: l' => str_eqb x y || mem x l'
  end.

(** [s.startswith(p)] *)
Fixpoint startswith (s p : str) {struct p} : bool :=
  match p with
  | [] => true
  | a :: p' =>
      match s with
      | [] => false
      | b :: s' => (a =? b)%char && startswith s' p'
      end
  end.

Definition endswith (s p : str) : bool := startswith (rev s) (rev p).

(** [s.replace(old, new)]: occurrences are taken leftmost first and do not
    overlap; [skip] counts the characters of a replaced occurrence that are
    still to be passed over. *)
Fixpoint replace_from (old new : str) (skip : nat) (s : str) : str :=
  match s with
  | [] => []
  | c :: s' =>
      match skip with
      | S k => replace_from old new k s'
      | O =>
          if startswith s old
          then new ++ replace_from old new (length old - 1) s'
          else c :: replace_from old new 0 s'
      end
  end.

Definition replace (s old new : str) : str :=
  match old with
  | [] => new ++ flat_map (fun c => c :: new) s
  | _ :: _ => replace_from old new 0 s
  end.

(** [s.split(sep)] for a one-character separator. *)
Fixpoint split (sep : ascii) (s : str) : list str :=
  match s with
  | [] => [[]]
  | c :: s' =>
      if (c =? sep)%char then [] :: split sep s'
      else match split sep s' with
           | [] => [[c]]
           | l :: ls => (c :: l) :: ls
           end
  end.

(** [sep.join(l)] *)
Fixpoint join (sep : str) (l : list str) : str :=
  match l with
  | [] => []
  | x :: l' =>
      match l' with
      | [] => x
      | _ :: _ => x ++ sep ++ join sep l'
      end
  end.

Fixpoint lstrip_by (f : ascii -> bool) (s : str) : str :=
  match s with
  | [] => []
  | c :: s' => if f c then lstrip_by f s' else s
  end.

Definition rstrip_by (f : ascii -> bool) (s : str) : str :=
  rev (lstrip_by f (rev s)).

Definition strip_by (f : ascii -> bool) (s : str) : str :=
  rstrip_by f (lstrip_by f s).

(** [s.strip()], [s.lstrip()] and [s.strip(chars)] *)
Definition strip (s : str) : str := strip_by is_space s.
Definition lstrip (s : str) : str := lstrip_by is_space s.
Definition char_in (chars : str) (c : ascii) : bool :=
  existsb (fun d => (c =? d)%char) chars.
Definition strip_chars (chars s : str) : str := strip_by (char_in chars) s.
Definition lstrip_chars (chars s : str) : str := lstrip_by (char_in chars) s.
Definition rstrip_chars (chars s : str) : str := rstrip_by (char_in chars) s.

(** [s.lower()] on the Latin-1 range. *)
Definition lower_char (c : ascii) : ascii :=
  if in_range 65 90 c || (in_range 192 222 c && negb (code c =? 215)%N)
  then ascii_of_N (code c + 32)
  else c.

Definition lower (s : str) : str := map lower_char s.

(** [s.find(sub)] from position 0, as an option instead of [-1]. *)
Fixpoint find_from (sub : str) (pos : nat) (s : str) : option nat :=
  if startswith s sub then Some pos
  else match s with
       | [] => None
       | _ :: s' => find_from sub (S pos) s'
       end.

Definition find (s sub : str) : option nat := find_from sub 0 s.

(** [text.find(sub, start)] *)
Definition find_at (text sub : str) (start : nat) : option nat :=
  if start <=? length text then find_from sub start (skipn start text)
  else None.

Definition contains (s sub : str) : bool :=
  match find s sub with Some _ => true | None => false end.

(** [s[a:b]] for [0 <= a], [0 <= b]. *)
Definition slice {A : Type} (s : list A) (a b : nat) : list A :=
  firstn (b - a) (skipn a s).

(** The line boundaries of [str.splitlines]. *)
Definition is_linebreak (c : ascii) : bool :=
  in_range 10 13 c || in_range 28 30 c || (code c =? 133)%N.

(** [s.splitlines(keepends)]; [cur] is the line being read, reversed. *)
Fixpoint splitlines_aux (keepends : bool) (cur : str) (s : str) : list str :=
  match s with
  | [] => match cur with [] => [] | _ :: _ => [rev cur] end
  | c :: s' =>
      if is_linebreak c then
        match s' with
        | d :: s'' =>
            if (c =? CR)%char && (d =? LF)%char
            then (rev cur ++ if keepends then [c; d] else [])
                   :: splitlines_aux keepends [] s''
            else (rev cur ++ if keepends then [c] else [])
                   :: splitlines_aux keepends [] s'
        | [] => [rev cur ++ if keepends then [c] else []]
        end
      else splitlines_aux keepends (c :: cur) s'
  end.

Definition splitlines (keepends : bool) (s : str) : list str :=
  splitlines_aux keepends [] s.

Definition is_digit (c : ascii) : bool := in_range 48 57 c.
Definition is_ascii_alpha (c : ascii) : bool :=
  in_range 65 90 c || in_range 97 122 c.

(** [\w] of a [str] pattern: [str.isalnum] or the underscore. *)
Definition is_alnum (c : ascii) : bool :=
  is_digit c || is_ascii_alpha c
  || (code c =? 170)%N || in_range 178 179 c || (code c =? 181)%N
  || in_range 185 186 c || in_range 188 190 c
  || in_range 192 214 c || in_range 216 246 c || in_range 248 255 c.

Definition is_word (c : ascii) : bool := is_alnum c || (c =? "_")%char.

(** [str(n)] and [int(text)] on decimal digits. *)
Definition str_of_Z (z : Z) : str :=
  py (NilZero.string_of_int (Z.to_int z)).

Definition digit_value (c : ascii) : Z := Z.of_N (code c) - 48.

Definition Z_of_digits (s : str) : Z :=
  fold_left (fun acc c => 10 * acc + digit_value c)%Z s 0%Z.

(** ** Values of front matter *)

(** [datetime.datetime]: the wall-clock fields and [tzinfo], the offset
    from UTC in seconds when the value is timezone-aware. *)
Record datetime := mk_datetime {
  dt_year : Z;
  dt_month : Z;
  dt_day : Z;
  dt_hour : Z;
  dt_minute : Z;
  dt_second : Z;
  dt_microsecond : Z;
  tzinfo : option Z
}.

(** What a front-matter parser can put in the metadata ([Any]). *)
Inductive value : Type :=
| VNone
| VBool (b : bool)
| VInt (z : Z)
| VFloat (f : spec_float)
| VStr (s : str)
| VList (l : list value)
| VDict (d : list (str * value))
| VDatetime (d : datetime).

(** Truth value of [x] in [x or y] and [if x]. *)
Definition truthy (v : value) : bool :=
  match v with
  | VNone => false
  | VBool b => b
  | VInt z => negb (z =? 0)%Z
  | VFloat f => match f with S754_zero _ => false | _ => true end
  | VStr s => negb (str_empty s)
  | VList l => match l with [] => false | _ :: _ => true end
  | VDict d => match d with [] => false | _ :: _ => true end
  | VDatetime _ => true
  end.

(** ** Dictionaries: association lists in insertion order *)

Section Dict.
Context {K V : Type} (eqb : K -> K -> bool).

Fixpoint dict_get (d : list (K * V)) (k : K) : option V :=
  match d with
  | [] => None
  | (k', v) :: d' => if eqb k k' then Some v else dict_get d' k
  end.

(** [d[k] = v]: an existing key keeps its place. *)
Fixpoint dict_set (d : list (K * V)) (k : K) (v : V) : list (K * V) :=
  match d with
  | [] => [(k, v)]
  | (k', v') :: d' =>
      if eqb k k' then (k', v) :: d' else (k', v') :: dict_set d' k v
  end.

Definition dict_has (d : list (K * V)) (k : K) : bool :=
  match dict_get d k with Some _ => true | None => false end.

(** [d.update(e)] *)
Definition dict_update (d e : list (K * V)) : list (K * V) :=
  fold_left (fun acc kv => dict_set acc (fst kv) (snd kv)) e d.
End Dict.

Definition meta_get (meta : list (str * value)) (k : str) : value :=
  match dict_get str_eqb meta k with Some v => v | None => VNone end.

(** [a or b] *)
Definition py_or (a b : value) : value := if truthy a then a else b.

(** ** [dedupe] *)

(** [seen] is the set of the names kept so far. *)
Fixpoint dedupe_loop (seen : list str) (items : list str) : list str :=
  match items with
  | [] => []
  | item :: rest =>
      let normalized := strip item in
      if str_empty normalized || mem normalized seen
      then dedupe_loop seen rest
      else normalized :: dedupe_loop (normalized :: seen) rest
  end.

Definition dedupe (items : list str) : list str := dedupe_loop [] items.

(** ** The fallback front-matter parser *)

Definition all_digits (s : str) : bool :=
  negb (str_empty s) && forallb is_digit s.

Definition drop_minus (s : str) : str :=
  match s with
  | c :: s' => if (c =? "-")%char then s' else s
  | [] => []
  end.

(** [re.fullmatch] of [-?\d+] on [text] *)
Definition fullmatch_int (text : str) : bool := all_digits (drop_minus text).

(** [re.fullmatch] of [-?\d+\.\d+] on [text] *)
Definition fullmatch_decimal (text : str) : bool :=
  match split "." (drop_minus text) with
  | [a; b] => all_digits a && all_digits b
  | _ => false
  end.

Definition int_of_str (text : str) : Z :=
  match text with
  | c :: s' => if (c =? "-")%char then (- Z_of_digits s')%Z else Z_of_digits text
  | [] => 0%Z
  end.

(** [text[1:-1]] *)
Definition strip_ends (s : str) : str := removelast (tl s).

(** ** The Python runtime

    What the converter takes from the interpreter and its libraries and
    this development does not define: number and date conversions, the
    optional [yaml] module, the clock and the local time zone. *)
Record runtime := mk_runtime {
  (** [sys.get_int_max_str_digits()]: the number of digits above which
      [int(text)] raises [ValueError]; [0] is no limit *)
  int_max_str_digits : nat;
  (** [float(text)] *)
  float_of_str : str -> spec_float;
  (** [yaml.safe_load] when the module could be imported; a load that raises
      gives [None]. *)
  yaml_safe_load : option (str -> option value);
  (** [str(v)] for a float, a list, a dict or a datetime *)
  py_repr : value -> str;
  (** [datetime.fromisoformat(text)]; [None] is [ValueError] *)
  fromisoformat : str -> option datetime;
  (** [datetime.strptime(text, fmt)]; [None] is [ValueError] *)
  strptime : str -> str -> option datetime;
  (** [datetime.fromtimestamp(float(v), tz=timezone.utc).astimezone()];
      [None] is an exception of the call *)
  fromtimestamp_local : value -> option datetime;
  (** [datetime.now().astimezone()] *)
  now_local : datetime;
  (** the offset of [datetime.now().astimezone().tzinfo or timezone.utc] *)
  local_tz : Z;
  (** [int(d.astimezone().timestamp())] for an aware [d]; [None] is the
      [OverflowError] of [astimezone] for a date at an end of the calendar *)
  timestamp : datetime -> option Z
}.

Section FrontMatter.
Variable rt : runtime.

(** [int(text)] for a text of [-?\d+]; [None] is the [ValueError] of a text
    with more digits than the interpreter converts. *)
Definition py_int (text : str) : option Z :=
  if (0 <? int_max_str_digits rt)
     && (int_max_str_digits rt <? length (drop_minus text))
  then None
  else Some (int_of_str text).

Definition parse_scalar (v : str) : value :=
  let text := strip v in
  if str_empty text then VStr []
  else
    let text :=
      if (2 <=? length text)
         && (nth 0 text zero =? last text zero)%char
         && char_in [SQUOTE; DQUOTE] (nth 0 text zero)
      then strip_ends text else text in
    let lowered := lower text in
    if str_eqb lowered (py "true") then VBool true
    else if str_eqb lowered (py "false") then VBool false
    else if mem lowered [py "null"; py "none"; py "~"] then VNone
    else if fullmatch_int text then
      match py_int text with
      | Some z => VInt z
      | None => VStr text
      end
    else if fullmatch_decimal text then VFloat (float_of_str rt text)
    else VStr text.

Definition py_str (v : value) : str :=
  match v with
  | VStr s => s
  | VInt z => str_of_Z z
  | VBool true => py "True"
  | VBool false => py "False"
  | VNone => py "None"
  | _ => py_repr rt v
  end.

Fixpoint normalize_list (v : value) : list str :=
  match v with
  | VNone => []
  | VStr s =>
      let stripped := strip s in
      if str_empty stripped then []
      else if startswith stripped (py "[") && endswith stripped (py "]") then
        let inner := strip (strip_ends stripped) in
        if str_empty inner then []
        else
          let parts :=
            filter (fun x => negb (str_empty x))
                   (map strip (split "," inner)) in
          dedupe (map (strip_chars [SQUOTE; DQUOTE]) parts)
      else dedupe [stripped]
  | VDict d =>
      let fix name_of (l : list (str * value)) : option (list str) :=
        match l with
        | [] => None
        | (k, x) :: l' =>
            if str_eqb (py "name") k then Some (normalize_list x)
            else name_of l'
        end in
      let fix values_of (l : list (str * value)) : list str :=
        match l with
        | [] => []
        | (_, x) :: l' => normalize_list x ++ values_of l'
        end in
      match name_of d with
      | Some r => r
      | None => dedupe (values_of d)
      end
  | VList l =>
      let fix items_of (l : list value) : list str :=
        match l with
        | [] => []
        | x :: l' => normalize_list x ++ items_of l'
        end in
      dedupe (items_of l)
  | _ => dedupe [py_str v]
  end.

(** [LIST_ITEM_RE.match(line)], group 1. The pattern is
    [^\s*-\s*(.+?)\s*$] and a line holds no line feed: after the dash the
    group is the rest without the blanks around it, or the last blank when
    the rest is blank. *)
Definition list_item_match (line : str) : option str :=
  match lstrip line with
  | c :: rest =>
      if (c =? "-")%char then
        match lstrip rest with
        | (_ :: _) as body => Some (rstrip_by is_space body)
        | [] =>
            match rest with
            | [] => None
            | _ :: _ => Some [last rest zero]
            end
        end
      else None
  | [] => None
  end.

Definition is_key_char (c : ascii) : bool :=
  is_digit c || is_ascii_alpha c || (c =? "_")%char || (c =? "-")%char.

Fixpoint span (f : ascii -> bool) (s : str) : str * str :=
  match s with
  | [] => ([], [])
  | c :: s' =>
      if f c then let '(a, b) := span f s' in (c :: a, b) else ([], s)
  end.

(** [KEY_VALUE_RE.match(line)], groups 1 and 2: one or more characters
    of [[A-Za-z0-9_-]], a colon, then blanks and the rest of the line,
    which is group 2. A line holds no line feed. *)
Definition key_value_match (line : str) : option (str * str) :=
  match span is_key_char line with
  | ((_ :: _) as key, c :: rest) =>
      if (c =? ":")%char then Some (key, lstrip rest) else None
  | _ => None
  end.

Definition yaml_line (st : list (str * value) * option str) (raw_line : str)
  : list (str * value) * option str :=
  let '(data, current_key) := st in
  let stripped := strip raw_line in
  if str_empty stripped || startswith stripped (py "#") then st
  else
    let on_key :=
      match key_value_match stripped with
      | None => (data, None)
      | Some (key, g2) =>
          let value_raw := strip g2 in
          if str_empty value_raw then (dict_set str_eqb data key (VList []), Some key)
          else if startswith value_raw (py "[") && endswith value_raw (py "]") then
            let inside := strip (strip_ends value_raw) in
            if negb (str_empty inside)
            then (dict_set str_eqb data key
                    (VList (map (fun part => parse_scalar (strip part))
                                (split "," inside))), Some key)
            else (dict_set str_eqb data key (VList []), Some key)
          else if mem key [py "tags"; py "categories"]
                  && contains value_raw (py ",") then
            (dict_set str_eqb data key
               (VList (map (fun part => parse_scalar (strip part))
                           (filter (fun part => negb (str_empty (strip part)))
                                   (split "," value_raw)))), Some key)
          else (dict_set str_eqb data key (parse_scalar value_raw), Some key)
      end in
    match list_item_match raw_line, current_key with
    | Some g1, Some key =>
        let existing :=
          match meta_get data key with
          | VList l => l
          | other => map VStr (normalize_list other)
          end in
        (dict_set str_eqb data key (VList (existing ++ [parse_scalar g1])),
         current_key)
    | _, _ => on_key
    end.

Definition parse_simple_yaml (front_text : str) : list (str * value) :=
  fst (fold_left yaml_line (splitlines false front_text) ([], None)).

Definition parse_front_matter (front_text : str) : value :=
  match yaml_safe_load rt with
  | Some load =>
      match load front_text with
      | Some (VDict d) => VDict d
      | _ => VDict (parse_simple_yaml front_text)
      end
  | None => VDict (parse_simple_yaml front_text)
  end.

Definition FRONT_MATTER_BOUNDARY : str := py "---".

Definition is_boundary (line : str) : bool :=
  str_eqb (strip line) FRONT_MATTER_BOUNDARY.

(** The [for idx in range(1, len(lines))] search; [rest] is [lines[idx:]]. *)
Fixpoint find_boundary (idx : nat) (rest : list str) : option nat :=
  match rest with
  | [] => None
  | line :: rest' =>
      if is_boundary line then Some idx else find_boundary (S idx) rest'
  end.

Definition normalize_newlines (text : str) : str :=
  replace (replace text [CR; LF] [LF]) [CR] [LF].

Definition split_front_matter (text : str) : list (str * value) * str :=
  let normalized := normalize_newlines text in
  let lines := split LF normalized in
  match lines with
  | [] => ([], normalized)
  | first :: _ =>
      if negb (is_boundary first) then ([], normalized)
      else
        match find_boundary 1 (skipn 1 lines) with
        | None => ([], normalized)
        | Some end_index =>
            let front_text := join [LF] (slice lines 1 end_index) in
            let content :=
              lstrip_chars [LF] (join [LF] (skipn (end_index + 1) lines)) in
            match parse_front_matter front_text with
            | VDict front => (front, content)
            | _ => ([], content)
            end
        end
  end.
End FrontMatter.

(** ** Status, dates and slugs *)

Section Dates.
Variable rt : runtime.

Definition normalize_status (meta : list (str * value)) : str :=
  let status_value :=
    match dict_get str_eqb meta (py "status") with
    | Some v => v
    | None => VStr []
    end in
  let status := lower (strip (py_str rt status_value)) in
  if mem status [py "publish"; py "draft"; py "private"; py "hidden";
                 py "waiting"]
  then status
  else
    match meta_get meta (py "draft"), meta_get meta (py "published") with
    | VBool true, _ => py "draft"
    | _, VBool false => py "draft"
    | _, _ => py "publish"
    end.

Definition is_sign (c : ascii) : bool := (c =? "+")%char || (c =? "-")%char.

(** [DATE_OFFSET_RE.sub] with the replacement [\1:\2], for a text that does not end
    with a line feed ([parse_date] strips it): a sign and four digits at
    the end get a colon before the last two digits. *)
Definition date_offset_sub (text : str) : str :=
  let n := length text in
  if (5 <=? n)
     && is_sign (nth (n - 5) text zero)
     && forallb is_digit (skipn (n - 4) text)
  then firstn (n - 2) text ++ py ":" ++ skipn (n - 2) text
  else text.

Definition known_formats : list str :=
  [py "%Y-%m-%d %H:%M:%S"; py "%Y-%m-%d %H:%M"; py "%Y-%m-%d";
   py "%Y/%m/%d %H:%M:%S"; py "%Y/%m/%d %H:%M"; py "%Y/%m/%d"].

(** The first attempt of a [for ... try: return f(x) except ValueError]
    loop that does not raise. *)
Fixpoint first_success {A B : Type} (f : A -> option B) (l : list A)
  : option B :=
  match l with
  | [] => None
  | x :: l' =>
      match f x with
      | Some y => Some y
      | None => first_success f l'
      end
  end.

(** [parse_date]; the result [None] is an exception that the function
    does not catch. A [bool] is an [int] for [isinstance]. *)
Definition parse_date (v : value) (fallback : option datetime)
  : option datetime :=
  let otherwise :=
    match fallback with
    | Some d => Some d
    | None => Some (now_local rt)
    end in
  match v with
  | VDatetime d => Some d
  | VInt _ | VFloat _ | VBool _ => fromtimestamp_local rt v
  | VStr s =>
      let text := strip s in
      if negb (str_empty text) then
        let text :=
          if endswith text (py "Z") then removelast text ++ py "+00:00"
          else text in
        let text := date_offset_sub text in
        match first_success (fromisoformat rt)
                            [text; replace text (py "/") (py "-")] with
        | Some d => Some d
        | None =>
            match first_success (strptime rt text) known_formats with
            | Some d => Some d
            | None => otherwise
            end
        end
      else otherwise
  | _ => otherwise
  end.

Definition ensure_timezone (date_value : datetime) : datetime :=
  match tzinfo date_value with
  | None =>
      mk_datetime (dt_year date_value) (dt_month date_value)
                  (dt_day date_value) (dt_hour date_value)
                  (dt_minute date_value) (dt_second date_value)
                  (dt_microsecond date_value) (Some (local_tz rt))
  | Some _ => date_value
  end.

(** [to_unix_timestamp]; the result [None] is the exception that
    [astimezone] raises. *)
Definition to_unix_timestamp (date_value : datetime) : option Z :=
  timestamp rt (ensure_timezone date_value).
End Dates.

(** [re.sub] of [[...]+] by [rep] for a character class: every maximal run
    of characters of the class becomes [rep]. *)
Fixpoint sub_runs (f : ascii -> bool) (rep : str) (in_run : bool) (s : str)
  : str :=
  match s with
  | [] => []
  | c :: s' =>
      if f c
      then (if in_run then [] else rep) ++ sub_runs f rep true s'
      else c :: sub_runs f rep false s'
  end.

Definition is_hyphen (c : ascii) : bool := (c =? "-")%char.

Definition or_else (s d : str) : str :=
  match s with [] => d | _ :: _ => s end.

Definition slugify (text : str) : str :=
  let value := lower (strip text) in
  let value :=
    filter (fun c => is_word c || is_space c || is_hyphen c) value in
  let value :=
    sub_runs (fun c => is_space c || (c =? "_")%char) (py "-") false value in
  let value := strip_chars (py "-") (sub_runs is_hyphen (py "-") false value) in
  or_else value (py "item").

(** ** Paths *)

(** A [pathlib.Path] of a file: the components of its directory and its
    file name. A directory is the list of its components. *)
Record path := mk_path {
  parent : list str;
  name : str
}.

Definition dir_eqb (a b : list str) : bool :=
  if list_eq_dec (list_eq_dec ascii_dec) a b then true else false.

(** [d.name] of a directory; the root has the empty name. *)
Definition dir_name (d : list str) : str := last d [].

(** [s.rfind] of the dot *)
Fixpoint rfind_dot (pos : nat) (s : str) : option nat :=
  match s with
  | [] => None
  | c :: s' =>
      match rfind_dot (S pos) s' with
      | Some i => Some i
      | None => if (c =? ".")%char then Some pos else None
      end
  end.

(** [p.suffix] and [p.stem] *)
Definition path_suffix (p : path) : str :=
  match rfind_dot 0 (name p) with
  | Some i =>
      if (0 <? i) && (i <? length (name p) - 1) then skipn i (name p) else []
  | None => []
  end.

Definition path_stem (p : path) : str :=
  match rfind_dot 0 (name p) with
  | Some i =>
      if (0 <? i) && (i <? length (name p) - 1) then firstn i (name p)
      else name p
  | None => name p
  end.

Definition default_post_stem (p : path) (source_dir : list str) : str :=
  if negb (dir_eqb (parent p) source_dir)
     && mem (lower (path_stem p)) [py "index"; py "readme"]
  then dir_name (parent p)
  else path_stem p.

(** ** Asset resolver *)

Definition TIMESTAMP_SUFFIX_LEN : nat := 16.

(** The sixteen characters [_dddddddd_dddddd] of [TIMESTAMP_SUFFIX_RE]. *)
Definition is_timestamp_suffix (s : str) : bool :=
  (length s =? TIMESTAMP_SUFFIX_LEN)
  && (nth 0 s zero =? "_")%char
  && forallb is_digit (slice s 1 9)
  && (nth 9 s zero =? "_")%char
  && forallb is_digit (slice s 10 16).

(** [TIMESTAMP_SUFFIX_RE.sub] by the empty text: the pattern ends with [$], which
    holds at the end of the text and before a line feed that ends it. *)
Definition strip_asset_suffix (name : str) : str :=
  let n := length name in
  if is_timestamp_suffix (skipn (n - 16) name) then firstn (n - 16) name
  else if endswith name [LF] && is_timestamp_suffix (slice name (n - 17) (n - 1))
  then firstn (n - 17) name ++ [LF]
  else name.

Definition normalize_asset_match_key (name : str) : str :=
  let base := lower (strip_asset_suffix name) in
  let base :=
    filter (fun c => negb (is_space c || (c =? "_")%char || is_hyphen c)) base in
  filter is_word base.

(** The order of [str] values: by code points, a proper prefix first. *)
Fixpoint str_compare (a b : str) : comparison :=
  match a, b with
  | [], [] => Eq
  | [], _ :: _ => Lt
  | _ :: _, [] => Gt
  | x :: a', y :: b' =>
      match (code x ?= code y)%N with
      | Eq => str_compare a' b'
      | Lt => Lt
      | Gt => Gt
      end
  end.

Definition str_leb (a b : str) : bool :=
  match str_compare a b with Gt => false | _ => true end.

Fixpoint insert_sorted (x : str) (l : list str) : list str :=
  match l with
  | [] => [x]
  | y :: l' => if str_leb x y then x :: l else y :: insert_sorted x l'
  end.

(** [sorted(l)] *)
Definition sorted (l : list str) : list str := fold_right insert_sorted [] l.

(** [asset_dir_names] is a [set]: its elements are listed in the order
    in which the interpreter happens to iterate over them. *)
Definition resolve_asset_dir_name
  (markdown_path : path) (source_dir : list str) (asset_dir_names : list str)
  : option str :=
  if negb (dir_eqb (parent markdown_path) source_dir)
  then Some (dir_name (parent markdown_path))
  else
    let stem := path_stem markdown_path in
    if mem stem asset_dir_names then Some stem
    else
      let prefix_matches :=
        sorted (filter (fun name => startswith name (stem ++ py "_"))
                       asset_dir_names) in
      if length prefix_matches =? 1 then hd_error prefix_matches
      else
        let normalized_stem := normalize_asset_match_key stem in
        let normalized_matches :=
          sorted (filter (fun name =>
                            str_eqb (normalize_asset_match_key name)
                                    normalized_stem)
                         asset_dir_names) in
        if length normalized_matches =? 1 then hd_error normalized_matches
        else
          match prefix_matches, normalized_matches with
          | first :: _, _ => Some first
          | [], first :: _ => Some first
          | [], [] => None
          end.

(** ** Regular-expression substitution *)

(** [pattern.sub(repl, s)] with a callback that carries a state. [matcher]
    tells whether the pattern matches at the start of the text it is given,
    knowing the character before it, and returns the groups of the match,
    group 0 first; no pattern of the converter matches the empty text. The
    scan goes left to right; [skip] counts the characters of the last match
    that are still to be passed over. *)
Section ReSub.
Context {St : Type}.
Variable matcher : option ascii -> str -> option (list str).
Variable repl : list str -> St -> str * St.

Fixpoint re_sub_from (skip : nat) (prev : option ascii) (s : str) (st : St)
  : str * St :=
  match s with
  | [] => ([], st)
  | c :: s' =>
      match skip with
      | S k => re_sub_from k (Some c) s' st
      | O =>
          match matcher prev s with
          | Some groups =>
              let '(r, st1) := repl groups st in
              let '(out, st2) :=
                re_sub_from (length (nth 0 groups []) - 1) (Some c) s' st1 in
              (r ++ out, st2)
          | None =>
              let '(out, st1) := re_sub_from 0 (Some c) s' st in
              (c :: out, st1)
          end
      end
  end.

Definition re_sub (s : str) (st : St) : str * St := re_sub_from 0 None s st.

(** [pattern.finditer(s)]: the groups of the successive matches. *)
Fixpoint re_finditer_from (skip : nat) (prev : option ascii) (s : str)
  : list (list str) :=
  match s with
  | [] => []
  | c :: s' =>
      match skip with
      | S k => re_finditer_from k (Some c) s'
      | O =>
          match matcher prev s with
          | Some groups =>
              groups
                :: re_finditer_from (length (nth 0 groups []) - 1) (Some c) s'
          | None => re_finditer_from 0 (Some c) s'
          end
      end
  end.
End ReSub.

Definition group (groups : list str) (i : nat) : str := nth i groups [].

(** [(.+?)] followed by a closing pattern: the shortest non-empty text of
    characters allowed by [dot] after which [close] holds; [close] sees the
    last character read and the text that follows. The result is the group
    and the text from the closing pattern on. *)
Fixpoint lazy_plus (dot : ascii -> bool) (close : ascii -> str -> bool)
  (s : str) : option (str * str) :=
  match s with
  | [] => None
  | c :: s' =>
      if dot c then
        if close c s' then Some ([c], s')
        else
          match lazy_plus dot close s' with
          | Some (inner, r) => Some (c :: inner, r)
          | None => None
          end
      else None
  end.

Definition not_backslash (prev : option ascii) : bool :=
  match prev with
  | Some c => negb (c =? "\")%char
  | None => true
  end.

Definition dot_all (c : ascii) : bool := true.
Definition dot_line (c : ascii) : bool := negb (c =? LF)%char.

(** ** Link rewriter *)

Definition MARKDOWN_IMAGE_RE (prev : option ascii) (s : str)
  : option (list str) :=
  match s with
  | c1 :: c2 :: s1 =>
      if (c1 =? "!")%char && (c2 =? "[")%char then
        let '(alt, r) := span (fun c => negb (c =? "]")%char) s1 in
        match r with
        | c3 :: c4 :: r2 =>
            if (c3 =? "]")%char && (c4 =? "(")%char then
              let '(target, r3) :=
                span (fun c => negb (c =? ")")%char && negb (c =? LF)%char) r2 in
              match target, r3 with
              | _ :: _, c5 :: _ =>
                  if (c5 =? ")")%char then
                    let g1 := py "![" ++ alt ++ py "](" in
                    Some [g1 ++ target ++ py ")"; g1; target; py ")"]
                  else None
              | _, _ => None
              end
            else None
        | _ => None
        end
      else None
  | _ => None
  end.

(** A letter of a pattern compiled with [re.IGNORECASE], given in lower
    case, against a character of the text. *)
Definition ieq (c p : ascii) : bool := (lower_char c =? p)%char.

(** The part of [HTML_IMG_SRC_RE] after [src]: blanks, the equals sign,
    blanks, a quote (group 2), the shortest non-empty text on one line that
    the same quote follows (group 3), and that quote (group 4). The result
    is the text up to the quote, the quote and the quoted text. *)
Definition img_src_tail (s : str) : option (str * ascii * str) :=
  let '(ws1, r1) := span is_space s in
  match r1 with
  | e :: r2 =>
      if (e =? "=")%char then
        let '(ws2, r3) := span is_space r2 in
        match r3 with
        | q :: r4 =>
            if char_in [DQUOTE; SQUOTE] q then
              match lazy_plus dot_line
                      (fun _ rest =>
                         match rest with
                         | d :: _ => (d =? q)%char
                         | [] => false
                         end) r4 with
              | Some (url, _) => Some (ws1 ++ [e] ++ ws2, q, url)
              | None => None
              end
            else None
        | [] => None
        end
      else None
  | [] => None
  end.

(** The part [[^>]*?\bsrc...] of [HTML_IMG_SRC_RE]: [seen] is the text
    read since [<img], reversed, and [prevc] the character before [r]. *)
Fixpoint img_attrs (head : str) (prevc : ascii) (seen : str) (r : str)
  : option (list str) :=
  let here :=
    match r with
    | c1 :: c2 :: c3 :: r' =>
        if negb (is_word prevc) && ieq c1 "s" && ieq c2 "r" && ieq c3 "c" then
          match img_src_tail r' with
          | Some (mid, q, url) =>
              let g1 := head ++ rev seen ++ [c1; c2; c3] ++ mid in
              Some [g1 ++ [q] ++ url ++ [q]; g1; [q]; url; [q]]
          | None => None
          end
        else None
    | _ => None
    end in
  match here with
  | Some groups => Some groups
  | None =>
      match r with
      | c :: r' =>
          if negb (c =? ">")%char then img_attrs head c (c :: seen) r'
          else None
      | [] => None
      end
  end.

Definition HTML_IMG_SRC_RE (prev : option ascii) (s : str)
  : option (list str) :=
  match s with
  | c1 :: c2 :: c3 :: c4 :: r =>
      if (c1 =? "<")%char && ieq c2 "i" && ieq c3 "m" && ieq c4 "g" then
        match r with
        | c :: _ =>
            if negb (is_word c) then img_attrs [c1; c2; c3; c4] c4 [] r
            else None
        | [] => None
        end
      else None
  | _ => None
  end.

Definition split_url_and_suffix (url : str) : str * str :=
  span (fun c => negb (c =? "?")%char && negb (c =? "#")%char) url.

Definition is_scheme_char (c : ascii) : bool :=
  is_ascii_alpha c || is_digit c || char_in (py "+.-") c.

(** [re.match] of [^[a-zA-Z][a-zA-Z0-9+.-]*] followed by [tail] *)
Definition has_scheme (tail s : str) : bool :=
  match s with
  | c :: s' =>
      is_ascii_alpha c && startswith (snd (span is_scheme_char s')) tail
  | [] => false
  end.

Definition is_relative_url (url : str) : bool :=
  let target := strip url in
  if str_empty target then false
  else
    let lowered := lower target in
    if existsb (startswith target) [py "/"; py "#"; py "//"] then false
    else if existsb (startswith lowered)
                    [py "mailto:"; py "data:"; py "javascript:"; py "tel:"]
    then false
    else if has_scheme (py ":") target then false
    else true.

Definition hex_digit (n : N) : ascii :=
  if (n <? 10)%N then ascii_of_N (48 + n) else ascii_of_N (55 + n).

Definition percent_byte (b : N) : str :=
  ["%"%char; hex_digit (b / 16); hex_digit (b mod 16)].

(** The UTF-8 bytes of a code point below 256. *)
Definition utf8_bytes (c : ascii) : list N :=
  if (code c <? 128)%N then [code c]
  else [(192 + code c / 64)%N; (128 + code c mod 64)%N].

Definition is_unreserved (c : ascii) : bool :=
  is_ascii_alpha c || is_digit c || char_in (py "_.-~") c.

(** [urllib.parse.quote] of [seg] with the safe characters [-_.~] *)
Definition quote (seg : str) : str :=
  flat_map (fun c => if is_unreserved c then [c]
                     else flat_map percent_byte (utf8_bytes c)) seg.

Definition nonempty (s : str) : bool := negb (str_empty s).

Definition join_url_prefix (prefix : str) (path_segments : list str) : str :=
  let encoded_path := join (py "/") (map quote (filter nonempty path_segments)) in
  let clean := strip prefix in
  if has_scheme (py "://") clean || startswith clean (py "//") then
    let base := rstrip_chars (py "/") clean in
    if nonempty encoded_path then base ++ py "/" ++ encoded_path else base
  else
    let leading_slash := startswith clean (py "/") in
    let prefix_segments :=
      filter nonempty (split "/" (strip_chars (py "/") clean)) in
    let all_segments := prefix_segments ++ path_segments in
    let encoded := join (py "/") (map quote (filter nonempty all_segments)) in
    if leading_slash then py "/" ++ encoded else encoded.

(** The loop that removes every leading [./] of [normalized_path]. *)
Fixpoint strip_dot_slash (s : str) : str :=
  match s with
  | c1 :: s1 =>
      match s1 with
      | c2 :: s2 =>
          if (c1 =? ".")%char && (c2 =? "/")%char then strip_dot_slash s2 else s
      | [] => s
      end
  | [] => s
  end.

(** The path that [rewrite_relative_asset_url] tests against [../]. *)
Definition normalized_url_path (url : str) : str :=
  let path_part := fst (split_url_and_suffix (strip url)) in
  strip_dot_slash (replace path_part (py "\") (py "/")).

Definition rewrite_relative_asset_url
  (url asset_dir_name asset_url_prefix : str) : option str :=
  if negb (is_relative_url url) then None
  else
    let '(path_part, suffix) := split_url_and_suffix (strip url) in
    let normalized_path := replace path_part (py "\") (py "/") in
    let normalized_path := strip_dot_slash normalized_path in
    if startswith normalized_path (py "../") then None
    else
      let normalized_path := lstrip_chars (py "/") normalized_path in
      if str_empty normalized_path then None
      else
        let rel_segments :=
          filter (fun seg => nonempty seg && negb (str_eqb seg (py ".")))
                 (split "/" normalized_path) in
        match rel_segments with
        | [] => None
        | first_seg :: _ =>
            let first_seg_key := normalize_asset_match_key first_seg in
            let asset_key := normalize_asset_match_key asset_dir_name in
            let target_segments :=
              if str_eqb first_seg_key asset_key then rel_segments
              else asset_dir_name :: rel_segments in
            let rewritten := join_url_prefix asset_url_prefix target_segments in
            if str_empty rewritten then None else Some (rewritten ++ suffix)
        end.

Definition split_markdown_target (raw_target : str) : str * str * bool :=
  let text := strip raw_target in
  if str_empty text then ([], [], false)
  else
    let unwrapped :=
      let '(first, rest) := span (fun c => negb (is_space c)) text in
      match lstrip rest with
      | [] => (first, [], false)
      | (_ :: _) as second => (first, py " " ++ second, false)
      end in
    if startswith text (py "<") then
      match find text (py ">") with
      | Some close_idx =>
          (strip (slice text 1 close_idx), skipn (close_idx + 1) text, true)
      | None => unwrapped
      end
    else unwrapped.

Definition has_relative_image_links (content : str) : bool :=
  existsb (fun m =>
             let '(url, _, _) := split_markdown_target (group m 2) in
             nonempty url && is_relative_url url)
          (re_finditer_from MARKDOWN_IMAGE_RE 0 None content)
  || existsb (fun m => is_relative_url (group m 3))
             (re_finditer_from HTML_IMG_SRC_RE 0 None content).

Section RewriteImageLinks.
Variable asset_dir_name : str.
Variable asset_url_prefix : str.

(** The callbacks of [rewrite_image_links]; the state is [changed]. *)
Definition replace_markdown (m : list str) (changed : Z) : str * Z :=
  let '(url, tail, wrapped) := split_markdown_target (group m 2) in
  if str_empty url then (group m 0, changed)
  else
    match rewrite_relative_asset_url url asset_dir_name asset_url_prefix with
    | None => (group m 0, changed)
    | Some rewritten =>
        let target :=
          if wrapped then py "<" ++ rewritten ++ py ">" ++ tail
          else rewritten ++ tail in
        (group m 1 ++ target ++ group m 3, (changed + 1)%Z)
    end.

Definition replace_html (m : list str) (changed : Z) : str * Z :=
  match rewrite_relative_asset_url (group m 3) asset_dir_name
                                   asset_url_prefix with
  | None => (group m 0, changed)
  | Some rewritten =>
      (group m 1 ++ group m 2 ++ rewritten ++ group m 4, (changed + 1)%Z)
  end.
End RewriteImageLinks.

Definition rewrite_image_links
  (content : str) (asset_dir_name : option str)
  (asset_mode asset_url_prefix : str) : str * Z :=
  if negb (str_eqb asset_mode (py "prefix")) then (content, 0%Z)
  else
    match asset_dir_name with
    | None => (content, 0%Z)
    | Some [] => (content, 0%Z)
    | Some dir =>
        let '(content1, changed1) :=
          re_sub MARKDOWN_IMAGE_RE (replace_markdown dir asset_url_prefix)
                 content 0%Z in
        re_sub HTML_IMG_SRC_RE (replace_html dir asset_url_prefix)
               content1 changed1
    end.

(** ** Masking tokens *)

Definition TOKEN_PREFIX : str := py "@@HEXO2TYPECHO_TOKEN_".

Definition make_token (index : Z) : str :=
  TOKEN_PREFIX ++ str_of_Z index ++ py "@@".

Definition is_blank (c : ascii) : bool := (c =? " ")%char || (c =? TAB)%char.

Definition is_fence_char (c : ascii) : bool :=
  (c =? "`")%char || (c =? "~")%char.

(** The opening pattern of a fence, tried at the start of a line: blanks
    and tabs, then three or more backticks or three or more tildes. The
    result is [fence_char] and [fence_len]. *)
Definition fence_open (line : str) : option (ascii * nat) :=
  match lstrip_by is_blank line with
  | (c :: _) as body =>
      if is_fence_char c then
        let run := fst (span (fun d => (d =? c)%char) body) in
        if 3 <=? length run then Some (c, length run) else None
      else None
  | [] => None
  end.

(** The closing pattern of a fence on a line: blanks and tabs, at least
    [fence_len] times [fence_char], blanks and tabs, then an optional
    carriage return and an optional line feed before the end of the line
    ([$] also holds before a line feed that ends the text). *)
Definition fence_close (fence_char : ascii) (fence_len : nat) (line : str)
  : bool :=
  let body := lstrip_by is_blank line in
  let '(run, rest) := span (fun d => (d =? fence_char)%char) body in
  (fence_len <=? length run)
  && mem (lstrip_by is_blank rest)
         [[]; [CR]; [LF]; [CR; LF]; [LF; LF]; [CR; LF; LF]].

(** The state of the loop of [mask_fenced_code_blocks] between two lines:
    [None] outside a fence, [fence_char], [fence_len] and [fence_buffer]
    inside one. *)
Definition fence_state : Type := option (ascii * nat * list str).

Fixpoint mask_fenced_lines (lines : list str) (fence : fence_state)
  (tokens : list (str * str)) (token_index : Z)
  : str * list (str * str) * Z :=
  match lines with
  | [] =>
      match fence with
      | Some (_, _, fence_buffer) => (concat fence_buffer, tokens, token_index)
      | None => ([], tokens, token_index)
      end
  | line :: lines' =>
      match fence with
      | None =>
          match fence_open line with
          | Some (fence_char, fence_len) =>
              mask_fenced_lines lines' (Some (fence_char, fence_len, [line]))
                                tokens token_index
          | None =>
              let '(out, tokens1, index1) :=
                mask_fenced_lines lines' None tokens token_index in
              (line ++ out, tokens1, index1)
          end
      | Some (fence_char, fence_len, fence_buffer) =>
          let fence_buffer := fence_buffer ++ [line] in
          if fence_close fence_char fence_len line then
            let token := make_token token_index in
            let '(out, tokens1, index1) :=
              mask_fenced_lines lines' None
                (dict_set str_eqb tokens token (concat fence_buffer))
                (token_index + 1)%Z in
            (token ++ out, tokens1, index1)
          else
            mask_fenced_lines lines' (Some (fence_char, fence_len, fence_buffer))
                              tokens token_index
      end
  end.

Definition mask_fenced_code_blocks (text : str) (start_index : Z)
  : str * list (str * str) * Z :=
  mask_fenced_lines (splitlines true text) None [] start_index.

(** The loop of [mask_inline_code_spans] on [text[i:]]; [skip] counts the
    characters of the span just masked that are still to be passed over. *)
Fixpoint mask_inline_from (skip : nat) (s : str)
  (tokens : list (str * str)) (token_index : Z)
  : str * list (str * str) * Z :=
  match s with
  | [] => ([], tokens, token_index)
  | c :: s' =>
      match skip with
      | S k => mask_inline_from k s' tokens token_index
      | O =>
          if negb (c =? "`")%char then
            let '(out, tokens1, index1) :=
              mask_inline_from 0 s' tokens token_index in
            (c :: out, tokens1, index1)
          else
            let '(delimiter, after) := span (fun d => (d =? "`")%char) s in
            let ticks := length delimiter in
            match find after delimiter with
            | None =>
                let '(out, tokens1, index1) :=
                  mask_inline_from 0 s' tokens token_index in
                (c :: out, tokens1, index1)
            | Some close =>
                let token := make_token token_index in
                let raw := firstn (ticks + close + ticks) s in
                let '(out, tokens1, index1) :=
                  mask_inline_from (ticks + close + ticks - 1) s'
                    (dict_set str_eqb tokens token raw) (token_index + 1)%Z in
                (token ++ out, tokens1, index1)
            end
      end
  end.

Definition mask_inline_code_spans (text : str) (start_index : Z)
  : str * list (str * str) * Z :=
  mask_inline_from 0 text [] start_index.

Definition restore_tokens (text : str) (tokens : list (str * str)) : str :=
  fold_left (fun restored item => replace restored (fst item) (snd item))
            tokens text.

(** ** Math normalizer *)

(** A delimited region whose inside is [(.+?)]: [open_] at the start,
    then the shortest inside that [close_] follows. *)
Definition delimited (dot : ascii -> bool) (open_ close_ : str)
  (guard : ascii -> bool) (s : str) : option (list str) :=
  if startswith s open_ then
    match lazy_plus dot
            (fun last rest => guard last && startswith rest close_)
            (skipn (length open_) s) with
    | Some (inner, _) => Some [open_ ++ inner ++ close_; inner]
    | None => None
    end
  else None.

Definition is_not_backslash (c : ascii) : bool := negb (c =? "\")%char.

(** [(?s)(?<!\\)\$\$(.+?)(?<!\\)\$\$] *)
Definition DISPLAY_DOLLAR_RE (prev : option ascii) (s : str)
  : option (list str) :=
  if not_backslash prev
  then delimited dot_all (py "$$") (py "$$") is_not_backslash s
  else None.

(** [(?s)\\\[(.+?)\\\]] *)
Definition BRACKET_MATH_RE (prev : option ascii) (s : str)
  : option (list str) :=
  delimited dot_all (py "\[") (py "\]") dot_all s.

(** [(?s)\\\((.+?)\\\)] *)
Definition PAREN_MATH_RE (prev : option ascii) (s : str)
  : option (list str) :=
  delimited dot_all (py "\(") (py "\)") dot_all s.

(** [(?<!\\)\$(?!\$)(.+?)(?<!\\)\$] *)
Definition INLINE_DOLLAR_RE (prev : option ascii) (s : str)
  : option (list str) :=
  if not_backslash prev && negb (startswith s (py "$$"))
  then delimited dot_line (py "$") (py "$") is_not_backslash s
  else None.

Section MathNormalizer.
Variable mode : str.

(** The callback [repl] of [protect_math]; the state is [next_token] and
    [math_tokens]. *)
Definition protect_repl (prefix suffix : str) (m : list str)
  (st : Z * list (str * str)) : str * (Z * list (str * str)) :=
  let '(next_token, math_tokens) := st in
  let token := make_token next_token in
  let inner := normalize_math_underscores_segment (group m 1) mode in
  (token,
   ((next_token + 1)%Z,
    dict_set str_eqb math_tokens token (prefix ++ inner ++ suffix))).

Definition protect_math
  (pattern : option ascii -> str -> option (list str))
  (prefix suffix : str) (masked : str) (st : Z * list (str * str))
  : str * (Z * list (str * str)) :=
  re_sub pattern (protect_repl prefix suffix) masked st.

Definition inline_repl (m : list str) (st : unit) : str * unit :=
  (py "$" ++ normalize_math_underscores_segment (group m 1) mode ++ py "$",
   st).

Definition normalize_mathjax_underscores (markdown : str) : str :=
  if str_eqb mode (py "keep") || str_empty markdown then markdown
  else
    let '(masked, fence_tokens, next_token) :=
      mask_fenced_code_blocks markdown 0%Z in
    let '(masked, inline_code_tokens, next_token) :=
      mask_inline_code_spans masked next_token in
    let code_tokens := dict_update str_eqb fence_tokens inline_code_tokens in
    let st := (next_token, []) in
    let '(masked, st) :=
      protect_math DISPLAY_DOLLAR_RE (py "$$") (py "$$") masked st in
    let '(masked, st) :=
      protect_math BRACKET_MATH_RE (py "\[") (py "\]") masked st in
    let '(masked, st) :=
      protect_math PAREN_MATH_RE (py "\(") (py "\)") masked st in
    let math_tokens := snd st in
    let masked := fst (re_sub INLINE_DOLLAR_RE inline_repl masked tt) in
    let masked := restore_tokens masked math_tokens in
    restore_tokens masked code_tokens.
End MathNormalizer.

(** ** Post assembler *)

Record HexoPost := mk_post {
  source_path : path;
  title : str;
  slug : str;
  date : datetime;
  updated : datetime;
  author : str;
  content : str;
  excerpt : str;
  categories : list str;
  tags : list str;
  status : str;
  post_type : str;
  asset_dir_name : option str;
  rewritten_image_links : Z
}.

Section ReadPost.
Variable rt : runtime.

(** [read_post]; [raw] is the text that [path.read_text] returns. The
    result [None] is an exception raised by [parse_date]. *)
Definition read_post
  (p : path) (raw : str) (source_dir : list str)
  (asset_dir_names : list str)
  (default_author asset_mode asset_url_prefix math_underscore_mode : str)
  : option (HexoPost * option str) :=
  let '(meta, content) := split_front_matter rt raw in
  let default_stem := default_post_stem p source_dir in
  let title :=
    py_str rt (py_or (meta_get meta (py "title")) (VStr default_stem)) in
  let slug :=
    or_else
      (strip (py_str rt (py_or (meta_get meta (py "slug")) (VStr default_stem))))
      default_stem in
  let author :=
    or_else
      (strip (py_str rt (py_or (meta_get meta (py "author"))
                               (VStr default_author))))
      default_author in
  match parse_date rt (meta_get meta (py "date")) None with
  | None => None
  | Some date =>
      match parse_date rt (meta_get meta (py "updated")) (Some date) with
      | None => None
      | Some updated =>
          let excerpt :=
            strip (py_str rt
                     (py_or (py_or (meta_get meta (py "excerpt"))
                                   (meta_get meta (py "description")))
                            (VStr []))) in
          let status := normalize_status rt meta in
          let layout :=
            lower (strip (py_str rt (py_or (meta_get meta (py "layout"))
                                           (VStr (py "post"))))) in
          let post_type :=
            if str_eqb layout (py "page") then py "page" else py "post" in
          let categories := normalize_list rt (meta_get meta (py "categories")) in
          let tags := normalize_list rt (meta_get meta (py "tags")) in
          let asset_dir_name :=
            resolve_asset_dir_name p source_dir asset_dir_names in
          let normalized_content :=
            normalize_mathjax_underscores math_underscore_mode
                                          (strip content) in
          let '(rewritten_content, rewritten_count) :=
            rewrite_image_links normalized_content asset_dir_name asset_mode
                                asset_url_prefix in
          let unmatched :=
            match asset_dir_name with
            | None => true
            | Some d => str_empty d
            end in
          let warning :=
            if str_eqb asset_mode (py "prefix")
               && has_relative_image_links normalized_content
               && unmatched
            then Some (name p
                       ++ py " has relative images but no matched asset folder.")
            else None in
          Some (mk_post p title (slugify slug) date updated author
                        rewritten_content excerpt categories tags status
                        post_type asset_dir_name rewritten_count,
                warning)
      end
  end.
End ReadPost.

(** ** SQL emitter *)

Record Term := mk_term {
  mid : Z;
  term_name : str;
  term_slug : str;
  term_type : str;
  count : Z
}.

(** A key of [term_map]: the kind and the name. *)
Definition term_key : Type := (str * str)%type.

Definition key_eqb (a b : term_key) : bool :=
  str_eqb (fst a) (fst b) && str_eqb (snd a) (snd b).

Definition relation : Type := (Z * Z)%type.

Definition relation_eqb (a b : relation) : bool :=
  ((fst a =? fst b) && (snd a =? snd b))%Z.

(** The variables of the loop of [build_sql] over the terms of the posts. *)
Record term_state := mk_term_state {
  term_map : list (term_key * Term);
  relationships : list relation;
  relation_seen : list relation;
  next_mid : Z
}.

(** The body of [for name in dedupe(...)] for a post of id [cid] and a
    name of the given kind. *)
Definition add_term (kind : str) (cid : Z) (st : term_state) (name : str)
  : term_state :=
  let key := (kind, name) in
  let '(term_map1, next_mid1) :=
    if negb (dict_has key_eqb (term_map st) key)
    then (dict_set key_eqb (term_map st) key
                   (mk_term (next_mid st) name (slugify name) kind 0),
          (next_mid st + 1)%Z)
    else (term_map st, next_mid st) in
  match dict_get key_eqb term_map1 key with
  | None => st
  | Some t =>
      let term_map2 :=
        dict_set key_eqb term_map1 key
                 (mk_term (mid t) (term_name t) (term_slug t) (term_type t)
                          (count t + 1)) in
      let rel := (cid, mid t) in
      if negb (existsb (relation_eqb rel) (relation_seen st))
      then mk_term_state term_map2 (relationships st ++ [rel])
                         (rel :: relation_seen st) next_mid1
      else mk_term_state term_map2 (relationships st) (relation_seen st)
                         next_mid1
  end.

Definition add_post_terms (cid : Z) (st : term_state) (post : HexoPost)
  : term_state :=
  let st1 :=
    fold_left (add_term (py "category") cid) (dedupe (categories post)) st in
  fold_left (add_term (py "tag") cid) (dedupe (tags post)) st1.

(** The loop over the posts, for the terms and the relationships; [cid]
    is [next_cid] when the post is reached. *)
Fixpoint add_posts (posts : list HexoPost) (cid : Z) (st : term_state)
  : term_state :=
  match posts with
  | [] => st
  | post :: posts' => add_posts posts' (cid + 1)%Z (add_post_terms cid st post)
  end.

Definition build_terms (posts : list HexoPost) (cid_start mid_start : Z)
  : term_state :=
  add_posts posts (Z.max cid_start 1)
            (mk_term_state [] [] [] (Z.max mid_start 1)).

Fixpoint insert_term (t : Term) (l : list Term) : list Term :=
  match l with
  | [] => [t]
  | u :: l' => if (mid u <=? mid t)%Z then u :: insert_term t l' else t :: l
  end.

(** [sorted(term_map.values(), key=lambda t: t.mid)], a stable sort. *)
Definition terms_by_mid (m : list (term_key * Term)) : list Term :=
  fold_left (fun acc kv => insert_term (snd kv) acc) m [].

Definition sql_quote (v : option str) : str :=
  match v with
  | None => py "NULL"
  | Some s =>
      let escaped := replace s (py "\") (py "\\") in
      let escaped := replace escaped [zero] (py "\0") in
      let escaped := replace escaped [LF] (py "\n") in
      let escaped := replace escaped [CR] (py "\r") in
      let escaped := replace escaped [TAB] (py "\t") in
      let escaped := replace escaped [ascii_of_nat 26] (py "\Z") in
      let escaped := replace escaped [SQUOTE] (py "\'") in
      [SQUOTE] ++ escaped ++ [SQUOTE]
  end.

Definition normalize_prefix (prefix : str) : str :=
  let cleaned := strip prefix in
  if str_empty cleaned then py "typecho_"
  else if endswith cleaned (py "_") then cleaned else cleaned ++ py "_".

Definition compose_text (content excerpt : str) : str :=
  let body := strip content in
  let summary := strip excerpt in
  let merged :=
    if str_empty summary then body
    else if contains body (py "<!--more-->") then body
    else if str_empty body then summary
    else summary ++ [LF; LF] ++ py "<!--more-->" ++ [LF; LF] ++ body in
  let markdown_marker := py "<!--markdown-->" in
  if startswith merged markdown_marker then merged
  else markdown_marker ++ merged.

Definition statuses : list str :=
  [py "publish"; py "draft"; py "private"; py "hidden"; py "waiting"].

(** A row of [post_rows]. In [row_created] and [row_modified], [None] is
    the exception that [to_unix_timestamp] raised for the date: it ends
    [build_sql]. *)
Record post_row := mk_row {
  row_cid : Z;
  row_title : str;
  row_slug : str;
  row_created : option Z;
  row_modified : option Z;
  row_text : str;
  row_authorId : Z;
  row_type : str;
  row_status : str
}.

Section BuildSql.
Variable rt : runtime.

Fixpoint post_rows_from (posts : list HexoPost) (author_id cid : Z)
  : list post_row :=
  match posts with
  | [] => []
  | post :: posts' =>
      mk_row cid (title post) (slug post)
             (to_unix_timestamp rt (date post))
             (to_unix_timestamp rt (updated post))
             (compose_text (content post) (excerpt post))
             (Z.max author_id 1)
             (if str_eqb (post_type post) (py "page") then py "page"
              else py "post")
             (if mem (status post) statuses then status post
              else py "publish")
        :: post_rows_from posts' author_id (cid + 1)%Z
  end.

Definition max_default (l : list Z) (default : Z) : Z :=
  match l with
  | [] => default
  | x :: l' => fold_left Z.max l' x
  end.

(** The line of a row; [None] when one of its timestamps was not made. *)
Definition contents_line (prefix : str) (row : post_row) : option str :=
  match row_created row, row_modified row with
  | Some created, Some modified =>
      Some
        (py "INSERT INTO `" ++ prefix ++ py "contents` "
         ++ py "(`cid`,`title`,`slug`,`created`,`modified`,`text`,`order`,`authorId`,`template`,`type`,`status`,`password`,`commentsNum`,`allowComment`,`allowPing`,`allowFeed`,`parent`) "
         ++ py "VALUES "
         ++ py "(" ++ str_of_Z (row_cid row) ++ py ","
         ++ sql_quote (Some (row_title row)) ++ py ","
         ++ sql_quote (Some (row_slug row)) ++ py ","
         ++ str_of_Z created ++ py ","
         ++ str_of_Z modified ++ py ","
         ++ sql_quote (Some (row_text row)) ++ py ",0,"
         ++ str_of_Z (row_authorId row) ++ py ",NULL,"
         ++ sql_quote (Some (row_type row)) ++ py ","
         ++ sql_quote (Some (row_status row)) ++ py ",NULL,0,'1','1','1',0);")
  | _, _ => None
  end.

Fixpoint all_lines (l : list (option str)) : option (list str) :=
  match l with
  | [] => Some []
  | None :: _ => None
  | Some x :: l' =>
      match all_lines l' with
      | Some r => Some (x :: r)
      | None => None
      end
  end.

Definition metas_line (prefix : str) (term : Term) : str :=
  py "INSERT INTO `" ++ prefix ++ py "metas` "
  ++ py "(`mid`,`name`,`slug`,`type`,`description`,`count`,`order`,`parent`) "
  ++ py "VALUES "
  ++ py "(" ++ str_of_Z (mid term) ++ py ","
  ++ sql_quote (Some (term_name term)) ++ py ","
  ++ sql_quote (Some (term_slug term)) ++ py ","
  ++ sql_quote (Some (term_type term)) ++ py ",'',"
  ++ str_of_Z (count term) ++ py ",0,0);".

Definition relationship_line (prefix : str) (rel : relation) : str :=
  py "INSERT INTO `" ++ prefix ++ py "relationships` (`cid`,`mid`) VALUES ("
  ++ str_of_Z (fst rel) ++ py "," ++ str_of_Z (snd rel) ++ py ");".

(** [build_sql]; the result [None] is the exception of a timestamp that
    could not be made. *)
Definition build_sql
  (posts : list HexoPost) (prefix : str)
  (author_id cid_start mid_start : Z) (truncate : bool) : option str :=
  let prefix := normalize_prefix prefix in
  let post_rows := post_rows_from posts author_id (Z.max cid_start 1) in
  let st := build_terms posts cid_start mid_start in
  let terms := terms_by_mid (term_map st) in
  let next_contents_ai :=
    (max_default (map row_cid post_rows) (cid_start - 1) + 1)%Z in
  let next_metas_ai :=
    (max_default (map mid terms) (mid_start - 1) + 1)%Z in
  match all_lines (map (contents_line prefix) post_rows) with
  | None => None
  | Some contents =>
      Some (join [LF]
        ([py "-- Generated by hexo2typecho.py";
          py "-- Import target: Typecho (MySQL/MariaDB)";
          py "SET NAMES utf8mb4;";
          py "START TRANSACTION;"]
         ++ (if truncate
             then [py "DELETE FROM `" ++ prefix ++ py "relationships`;";
                   py "DELETE FROM `" ++ prefix ++ py "metas`;";
                   py "DELETE FROM `" ++ prefix ++ py "contents`;"]
             else [])
         ++ [[]; py "-- Contents"]
         ++ contents
         ++ [[]; py "-- Metas (categories/tags)"]
         ++ map (metas_line prefix) terms
         ++ [[]; py "-- Relationships"]
         ++ map (relationship_line prefix) (relationships st)
         ++ [[];
             py "ALTER TABLE `" ++ prefix ++ py "contents` AUTO_INCREMENT = "
             ++ str_of_Z (Z.max next_contents_ai 1) ++ py ";";
             py "ALTER TABLE `" ++ prefix ++ py "metas` AUTO_INCREMENT = "
             ++ str_of_Z (Z.max next_metas_ai 1) ++ py ";";
             py "COMMIT;";
             []]))
  end.
End BuildSql.

(** * Definitions used to state the properties *)

(** ** A runtime for the examples

    No [yaml] module, a clock fixed at 2026-01-01 00:00:00 and the zone
    UTC+8. Dates are read in the zero-padded forms [YYYY-MM-DD],
    [YYYY-MM-DD HH:MM] and [YYYY-MM-DD HH:MM:SS], with any separator before
    the time and an optional offset [+HH:MM] or [-HH:MM]; integers are the
    only timestamps. The examples use no float and print no container. *)

Definition two_digits (a b : ascii) : option Z :=
  if is_digit a && is_digit b then Some (Z_of_digits [a; b]) else None.

Definition is_leap (y : Z) : bool :=
  ((y mod 4 =? 0) && (negb (y mod 100 =? 0) || (y mod 400 =? 0)))%Z.

Definition days_in_month (y m : Z) : Z :=
  if (m =? 2)%Z then (if is_leap y then 29 else 28)%Z
  else if ((m =? 4) || (m =? 6) || (m =? 9) || (m =? 11))%Z then 30%Z
  else 31%Z.

Definition iso_date (s : str) : option (Z * Z * Z) :=
  match s with
  | [y1; y2; y3; y4; s1; m1; m2; s2; d1; d2] =>
      if forallb is_digit [y1; y2; y3; y4]
         && (s1 =? "-")%char && (s2 =? "-")%char
      then
        match two_digits m1 m2, two_digits d1 d2 with
        | Some m, Some d =>
            let y := Z_of_digits [y1; y2; y3; y4] in
            if ((1 <=? y) && (1 <=? m) && (m <=? 12) && (1 <=? d)
                && (d <=? days_in_month y m))%Z
            then Some (y, m, d) else None
        | _, _ => None
        end
      else None
  | _ => None
  end.

Definition iso_clock (s : str) : option (Z * Z * Z) :=
  let check h m sec :=
    if ((h <=? 23) && (m <=? 59) && (sec <=? 59))%Z then Some (h, m, sec)
    else None in
  match s with
  | [h1; h2; c1; m1; m2] =>
      match two_digits h1 h2, two_digits m1 m2 with
      | Some h, Some m => if (c1 =? ":")%char then check h m 0%Z else None
      | _, _ => None
      end
  | [h1; h2; c1; m1; m2; c2; s1; s2] =>
      match two_digits h1 h2, two_digits m1 m2, two_digits s1 s2 with
      | Some h, Some m, Some sec =>
          if (c1 =? ":")%char && (c2 =? ":")%char then check h m sec else None
      | _, _, _ => None
      end
  | _ => None
  end.

Definition iso_offset (s : str) : option Z :=
  match s with
  | [sg; h1; h2; c; m1; m2] =>
      match two_digits h1 h2, two_digits m1 m2 with
      | Some h, Some m =>
          if is_sign sg && (c =? ":")%char && (h <=? 23)%Z && (m <=? 59)%Z
          then Some ((if (sg =? "-")%char then -1 else 1) * (h * 3600 + m * 60))%Z
          else None
      | _, _ => None
      end
  | _ => None
  end.

Definition example_fromisoformat (s : str) : option datetime :=
  match iso_date (firstn 10 s) with
  | None => None
  | Some (y, m, d) =>
      match skipn 10 s with
      | [] => Some (mk_datetime y m d 0 0 0 0 None)
      | _ :: t =>
          let n := length t in
          let with_zone clock zone :=
            match iso_clock clock, iso_offset zone with
            | Some (h, mi, sec), Some off =>
                Some (mk_datetime y m d h mi sec 0 (Some off))
            | _, _ => None
            end in
          match iso_clock t with
          | Some (h, mi, sec) => Some (mk_datetime y m d h mi sec 0 None)
          | None =>
              if n =? 11 then with_zone (firstn 5 t) (skipn 5 t)
              else if n =? 14 then with_zone (firstn 8 t) (skipn 8 t)
              else None
          end
      end
  end.

(** [strptime] of the example runtime: the formats of [known_formats] on
    zero-padded texts. *)
Definition example_strptime (text fmt : str) : option datetime :=
  let dashed := replace text (py "/") (py "-") in
  let has_slash := contains fmt (py "/") in
  let expected_length :=
    length fmt + 2 in
  if Bool.eqb (contains text (py "/")) has_slash
     && mem fmt known_formats
     && (length text =? expected_length)
  then
    match example_fromisoformat dashed with
    | Some d => match tzinfo d with None => Some d | Some _ => None end
    | None => None
    end
  else None.

(** Days since 1970-01-01 of a date of the proleptic Gregorian calendar,
    and back. *)
Definition days_from_civil (y m d : Z) : Z :=
  let y := (if m <=? 2 then y - 1 else y)%Z in
  let era := (y / 400)%Z in
  let yoe := (y - era * 400)%Z in
  let doy := ((153 * (if 2 <? m then m - 3 else m + 9) + 2) / 5 + d - 1)%Z in
  let doe := (yoe * 365 + yoe / 4 - yoe / 100 + doy)%Z in
  (era * 146097 + doe - 719468)%Z.

Definition civil_from_days (z : Z) : Z * Z * Z :=
  let z := (z + 719468)%Z in
  let era := (z / 146097)%Z in
  let doe := (z - era * 146097)%Z in
  let yoe := ((doe - doe / 1460 + doe / 36524 - doe / 146096) / 365)%Z in
  let y := (yoe + era * 400)%Z in
  let doy := (doe - (365 * yoe + yoe / 4 - yoe / 100))%Z in
  let mp := ((5 * doy + 2) / 153)%Z in
  let d := (doy - (153 * mp + 2) / 5 + 1)%Z in
  let m := (if mp <? 10 then mp + 3 else mp - 9)%Z in
  ((if m <=? 2 then y + 1 else y)%Z, m, d).

Definition example_zone : Z := 28800.

Definition example_fromtimestamp (v : value) : option datetime :=
  let at_seconds (t : Z) :=
    let local := (t + example_zone)%Z in
    let '(y, m, d) := civil_from_days (local / 86400) in
    let r := (local mod 86400)%Z in
    Some (mk_datetime y m d (r / 3600) (r mod 3600 / 60) (r mod 60) 0
                      (Some example_zone)) in
  match v with
  | VInt z => at_seconds z
  | VBool b => at_seconds (if b then 1 else 0)%Z
  | _ => None
  end.

(** The seconds since 1970, when the date is in the years 1 to 9999 both in
    UTC and in the example zone. *)
Definition example_timestamp (d : datetime) : option Z :=
  let t :=
    (days_from_civil (dt_year d) (dt_month d) (dt_day d) * 86400
     + dt_hour d * 3600 + dt_minute d * 60 + dt_second d
     - match tzinfo d with Some off => off | None => example_zone end)%Z in
  let first := (days_from_civil 1 1 1 * 86400)%Z in
  let last := (days_from_civil 10000 1 1 * 86400)%Z in
  if ((first <=? t) && (t <? last)
      && (first <=? t + example_zone) && (t + example_zone <? last))%Z
  then Some t
  else None.

Definition rt_example : runtime :=
  mk_runtime
    4300
    (fun _ => S754_nan)
    None
    (fun _ => py "<object>")
    example_fromisoformat
    example_strptime
    example_fromtimestamp
    (mk_datetime 2026 1 1 0 0 0 0 (Some example_zone))
    example_zone
    example_timestamp.

(** ** Underscore escaping *)

Definition no_backslash (x : str) : Prop := ~ In "\"%char x.

(** What [escape_math_underscores] writes for one character of a text
    without backslashes. *)
Definition escaped_char (c : ascii) : str :=
  if (c =? "_")%char then ["\"%char; "_"%char] else [c].


(** ** Front matter *)

(** The lines that [split_front_matter] looks at. *)
Definition lines_of (text : str) : list str :=
  split LF (normalize_newlines text).

(** The first line is not the delimiter line. *)
Definition no_opening_delimiter (text : str) : Prop :=
  match lines_of text with
  | [] => True
  | first :: _ => is_boundary first = false
  end.

(** No line after the first is a delimiter line. *)
Definition no_closing_delimiter (text : str) : Prop :=
  Forall (fun line => is_boundary line = false) (tl (lines_of text)).

(** ** Terms and relationships *)

(** The keys that a post contributes, in the order of the loop of
    [build_sql]: its categories, then its tags. *)
Definition post_keys (post : HexoPost) : list term_key :=
  map (pair (py "category")) (dedupe (categories post))
  ++ map (pair (py "tag")) (dedupe (tags post)).

(** The pairs of a content id and a key that the loop goes through, the
    first post having the id [cid]. *)
Fixpoint post_events (posts : list HexoPost) (cid : Z)
  : list (Z * term_key) :=
  match posts with
  | [] => []
  | post :: posts' =>
      map (pair cid) (post_keys post) ++ post_events posts' (cid + 1)%Z
  end.

Definition add_key (st : term_state) (e : Z * term_key) : term_state :=
  add_term (fst (snd e)) (fst e) st (snd (snd e)).

(** The distinct elements of a list, in the order of their first
    occurrence. *)
Definition uniq_step {A : Type} (eqb : A -> A -> bool) (acc : list A) (x : A)
  : list A :=
  if existsb (eqb x) acc then acc else acc ++ [x].

Definition uniq {A : Type} (eqb : A -> A -> bool) (l : list A) : list A :=
  fold_left (uniq_step eqb) l [].

Definition occurrences (key : term_key) (keys : list term_key) : nat :=
  length (filter (key_eqb key) keys).

(** [post] has [key] among its categories or tags. *)
Definition references (key : term_key) (post : HexoPost) : bool :=
  existsb (key_eqb key) (post_keys post).

(** The keys of all posts, in the order in which they are met. *)
Definition all_keys (posts : list HexoPost) : list term_key :=
  flat_map post_keys posts.

(** What the loop has done to the terms after the keys [keys], the first
    identifier being [base]: the dictionary holds the distinct keys in the
    order of their first occurrence, the [n]-th of them (from 0) has the
    identifier [base + n], and its count is the number of its occurrences. *)
Definition term_inv (base : Z) (keys : list term_key) (st : term_state)
  : Prop :=
  map fst (term_map st) = uniq key_eqb keys
  /\ next_mid st = (base + Z.of_nat (length (uniq key_eqb keys)))%Z
  /\ forall n key,
       nth_error (uniq key_eqb keys) n = Some key ->
       exists t,
         dict_get key_eqb (term_map st) key = Some t
         /\ mid t = (base + Z.of_nat n)%Z
         /\ count t = Z.of_nat (occurrences key keys)
         /\ term_name t = snd key
         /\ term_type t = fst key
         /\ term_slug t = slugify (snd key).

(** The relationships hold no pair twice, and the set [relation_seen]
    holds the same pairs. *)
Definition rel_inv (st : term_state) : Prop :=
  NoDup (relationships st)
  /\ forall r, In r (relationships st) <-> In r (relation_seen st).

(** Every pair met so far has its relationship. *)
Definition linked (events : list (Z * term_key)) (st : term_state) : Prop :=
  forall cid key,
    In (cid, key) events ->
    exists t,
      dict_get key_eqb (term_map st) key = Some t
      /\ In (cid, mid t) (relationships st).

(** A post for the examples, with the given categories and tags. *)
Definition example_post (cats tgs : list str) : HexoPost :=
  mk_post (mk_path [py "_posts"] (py "post.md")) (py "Post") (py "post")
          (now_local rt_example) (now_local rt_example) (py "admin")
          (py "text") [] cats tgs (py "publish") (py "post") None 0.

(** ** Asset resolver *)

(** The directory names that start with the stem and an underscore. *)
Definition prefix_candidates (stem : str) (dirs : list str) : list str :=
  filter (fun name => startswith name (stem ++ py "_")) dirs.

(** The directory names with the normalized key of the stem. *)
Definition normalized_candidates (stem : str) (dirs : list str) : list str :=
  filter (fun name => str_eqb (normalize_asset_match_key name)
                              (normalize_asset_match_key stem)) dirs.

Definition str_le (a b : str) : Prop := str_leb a b = true.

(** [r] is the first of [l] in the order of [str]. *)
Definition is_first (r : str) (l : list str) : Prop :=
  In r l /\ forall x, In x l -> str_le r x.

(** ** Link rewriter *)

(** Walking the segments of a path from the current directory, at the
    given depth below it: does some [..] lead above it? *)
Fixpoint escapes_from (depth : nat) (segments : list str) : bool :=
  match segments with
  | [] => false
  | seg :: rest =>
      if str_eqb seg (py "..") then
        match depth with
        | O => true
        | S d => escapes_from d rest
        end
      else if str_empty seg || str_eqb seg (py ".") then escapes_from depth rest
      else escapes_from (S depth) rest
  end.

(** The path of the URL escapes the current directory. *)
Definition escapes_current_dir (url : str) : bool :=
  escapes_from 0
    (split "/" (replace (fst (split_url_and_suffix (strip url)))
                        (py "\") (py "/"))).

(** ** Post invariant *)

(** The datetime carries a time zone. *)
Definition aware (d : datetime) : Prop := tzinfo d <> None.

(** A character that needs no escape in a URL path: a lower-case ASCII
    letter, a digit or the hyphen. *)
Definition url_safe_char (c : ascii) : bool :=
  in_range 97 122 c || is_digit c || is_hyphen c.

(** A character of a slug: URL-safe, or a letter or digit outside ASCII. *)
Definition slug_char (c : ascii) : bool :=
  url_safe_char c || ((128 <=? code c)%N && is_alnum c).

(** The invariant of a post as the specification words it. *)
Definition post_invariant (post : HexoPost) : Prop :=
  slug post <> []
  /\ forallb url_safe_char (slug post) = true
  /\ aware (date post) /\ aware (updated post).

(** A post with a front matter, for the examples. *)
Definition example_raw : str :=
  join [LF] [py "---"; py "title: Hello World"; py "date: 2020-01-01 10:00:00";
             py "tags: [a, a, b]"; py "---"; py ""; py "Body"].

Definition example_path : path := mk_path [py "_posts"] (py "hello-world.md").

(** A post whose front matter gives no date. *)
Definition undated_raw : str :=
  join [LF] [py "---"; py "title: About"; py "---"; py ""; py "Body"].

Definition undated_path : path := mk_path [py "_posts"] (py "about.md").

(** The microseconds that the fields of a datetime count from 1970. *)
Definition wall_micros (d : datetime) : Z :=
  ((days_from_civil (dt_year d) (dt_month d) (dt_day d) * 86400
    + dt_hour d * 3600 + dt_minute d * 60 + dt_second d) * 1000000
   + dt_microsecond d)%Z.

(** [a < b] on datetimes, which [posts.sort(key=lambda x: x.date)] of
    [collect_posts] evaluates: two naive datetimes are compared by their
    fields, two aware ones by their instants; [None] is the [TypeError] of
    comparing a naive datetime with an aware one. *)
Definition datetime_lt (a b : datetime) : option bool :=
  match tzinfo a, tzinfo b with
  | None, None => Some (wall_micros a <? wall_micros b)%Z
  | Some oa, Some ob =>
      Some (wall_micros a - oa * 1000000 <? wall_micros b - ob * 1000000)%Z
  | _, _ => None
  end.

(** ** Masking *)

(** Masking the fenced blocks, then the inline spans, then restoring
    with the two token maps merged as [normalize_mathjax_underscores]
    merges them into [code_tokens]. *)
Definition mask_then_restore (x : str) : str :=
  let '(masked, fence_tokens, next_token) := mask_fenced_code_blocks x 0%Z in
  let '(masked, inline_code_tokens, _) :=
    mask_inline_code_spans masked next_token in
  restore_tokens masked (dict_update str_eqb fence_tokens inline_code_tokens).

(** A document in which two lone backticks stand around a fenced block. *)
Definition backticks_around_fence : str :=
  join [LF] [py "Use ` to quote."; py "```"; py "x = 1"; py "```";
             py "The ` char."].

(** A character that the masking gives no meaning to. *)
Definition is_plain_char (c : ascii) : bool :=
  negb ((c =? "`")%char || (c =? "~")%char || (c =? "$")%char
        || (c =? "\")%char || (c =? "@")%char).

(** A text that holds no backtick, tilde, dollar sign, backslash or at sign. *)
Definition plain (s : str) : Prop := forallb is_plain_char s = true.

Definition starts_with_backtick (s : str) : bool :=
  match s with
  | d :: _ => (d =? "`")%char
  | [] => false
  end.

(** No tilde, and no two backticks in a row: no line opens a fence. *)
Fixpoint no_fence_run (s : str) : bool :=
  match s with
  | [] => true
  | c :: s' =>
      negb (c =? "~")%char
      && negb ((c =? "`")%char && starts_with_backtick s')
      && no_fence_run s'
  end.

(** The pattern cannot match a text that starts with [c]. *)
Definition dead (matcher : option ascii -> str -> option (list str))
  (c : ascii) : Prop :=
  forall prev tail, matcher prev (c :: tail) = None.

(** The character before the position that follows [p]. *)
Definition prev_after (prev : option ascii) (p : str) : option ascii :=
  fold_left (fun _ c => Some c) p prev.

Definition starts_with_dollar (s : str) : bool :=
  match s with
  | d :: _ => (d =? "$")%char
  | [] => false
  end.

(** * Definitions for further properties of the converter *)

(** ** Reading a quoted SQL literal

    How MySQL reads a quoted string with its default settings: a backslash
    and the character after it stand for one character (a percent sign and
    an underscore keep their backslash), two quotes in a row stand for one,
    and a quote alone ends the literal. *)

(** The character that [sql_quote] writes for [c]. *)
Definition sql_escape_char (c : ascii) : str :=
  if (c =? "\")%char then py "\\"
  else if (c =? zero)%char then py "\0"
  else if (c =? LF)%char then py "\n"
  else if (c =? CR)%char then py "\r"
  else if (c =? TAB)%char then py "\t"
  else if (c =? ascii_of_nat 26)%char then py "\Z"
  else if (c =? SQUOTE)%char then py "\'"
  else [c].

(** What a backslash followed by [x] stands for. *)
Definition sql_unescape (x : ascii) : str :=
  if (x =? "0")%char then [zero]
  else if (x =? "b")%char then [ascii_of_nat 8]
  else if (x =? "n")%char then [LF]
  else if (x =? "r")%char then [CR]
  else if (x =? "t")%char then [TAB]
  else if (x =? "Z")%char then [ascii_of_nat 26]
  else if (x =? "%")%char || (x =? "_")%char then ["\"%char; x]
  else [x].

(** The text of a literal, read from the character after its opening
    quote; [None] when the literal does not end where the text ends. *)
Fixpoint sql_read (s : str) : option str :=
  match s with
  | [] => None
  | c :: s' =>
      if (c =? "\")%char then
        match s' with
        | x :: s'' => option_map (app (sql_unescape x)) (sql_read s'')
        | [] => None
        end
      else if (c =? SQUOTE)%char then
        match s' with
        | [] => Some []
        | q :: s'' =>
            if (q =? SQUOTE)%char
            then option_map (cons SQUOTE) (sql_read s'')
            else None
        end
      else option_map (cons c) (sql_read s')
  end.

(** The value of [NULL] or of a quoted literal. *)
Definition sql_literal_value (lit : str) : option (option str) :=
  if str_eqb lit (py "NULL") then Some None
  else
    match lit with
    | q :: s =>
        if (q =? SQUOTE)%char then option_map Some (sql_read s) else None
    | [] => None
    end.

(** ** Identifiers of the SQL rows *)

(** The [n] consecutive identifiers that start at [first]. *)
Definition ids_from (first : Z) (n : nat) : list Z :=
  map (fun i => (first + Z.of_nat i)%Z) (seq 0 n).

(** The identifier that a key has in the dictionary of the terms. *)
Definition mid_of (m : list (term_key * Term)) (key : term_key) : Z :=
  match dict_get key_eqb m key with
  | Some t => mid t
  | None => 0%Z
  end.

(** The relationship of a post identifier and a key. *)
Definition relation_of (m : list (term_key * Term)) (e : Z * term_key)
  : relation :=
  (fst e, mid_of m (snd e)).

(** Every relationship comes from a pair met so far. *)
Definition rel_sound (events : list (Z * term_key)) (st : term_state) : Prop :=
  forall r, In r (relationships st) ->
            In r (map (relation_of (term_map st)) events).

(** ** Trimmed texts *)

(** A text from which [strip_by f] removes nothing. *)
Definition trimmed (f : ascii -> bool) (s : str) : Prop :=
  lstrip_by f s = s /\ rstrip_by f s = s.

(** ** Slugs are fixed points *)

(** No two hyphens follow each other. *)
Fixpoint single_hyphens (s : str) : bool :=
  match s with
  | c :: s' =>
      match s' with
      | d :: _ => negb (is_hyphen c && is_hyphen d) && single_hyphens s'
      | [] => true
      end
  | [] => true
  end.

(** A character that [slugify] keeps as it is: a word character other than
    the underscore, in lower case. *)
Definition slug_letter (c : ascii) : bool :=
  is_word c && negb (is_space c) && negb (c =? "_")%char
  && negb (is_hyphen c) && (lower_char c =? c)%char.

Definition starts_with_hyphen (s : str) : bool :=
  match s with
  | c :: _ => is_hyphen c
  | [] => false
  end.

(** ** Escaping underscores *)

(** [escape_math_underscores] as a scan that remembers whether the number
    of backslashes just before the position is odd. *)
Fixpoint escape_from (odd_run : bool) (rest : str) : str :=
  match rest with
  | [] => []
  | ch :: rest' =>
      if (ch =? "_")%char then
        (if odd_run then [ch] else ["\"%char; ch]) ++ escape_from false rest'
      else if (ch =? "\")%char then ch :: escape_from (negb odd_run) rest'
      else ch :: escape_from false rest'
  end.

(** Every underscore of [rest] is escaped, the number of backslashes
    before [rest] being odd or not. *)
Fixpoint all_escaped (odd_run : bool) (rest : str) : bool :=
  match rest with
  | [] => true
  | ch :: rest' =>
      if (ch =? "_")%char then odd_run && all_escaped false rest'
      else if (ch =? "\")%char then all_escaped (negb odd_run) rest'
      else all_escaped false rest'
  end.

(** ** Texts without math, and the scenario of a code span and a math region *)

(** A text in which nothing starts a code block, a code span or a math
    region: no backtick, tilde, dollar sign or backslash. *)
Definition no_markup_char (c : ascii) : bool :=
  negb ((c =? "`")%char || (c =? "~")%char || (c =? "$")%char
        || (c =? "\")%char).

Definition no_markup (s : str) : Prop := forallb no_markup_char s = true.

(** ** URLs *)

(** A character of a quoted URL path: unreserved, the percent sign of an
    escape or the slash between two segments. *)
Definition url_path_char (c : ascii) : bool :=
  is_unreserved c || (c =? "%")%char || (c =? "/")%char.

(** ** Images *)

(** A character with which no image starts, in Markdown or in HTML. *)
Definition no_image_start (c : ascii) : bool :=
  negb (c =? "!")%char && negb (c =? "<")%char.

(** A character of a URL written bare in a Markdown image: no blank, no
    closing parenthesis, no angle bracket. *)
Definition bare_url_char (c : ascii) : bool :=
  negb (is_space c) && negb (c =? ")")%char && negb (c =? "<")%char
  && negb (c =? ">")%char.

(** ** Asset directories, tokens and the fields of a post *)

From Stdlib Require Numbers.DecimalString Numbers.DecimalZ.

(** ** A code span and a math region *)

(** A character of the text of a code span between single backticks. *)
Definition code_char (c : ascii) : bool :=
  negb (c =? "`")%char && negb (c =? "~")%char.

(** A character of the inside of an inline math region. *)
Definition math_char (c : ascii) : bool :=
  is_plain_char c && negb (c =? LF)%char.

(** ** Masking and restoring *)

(** The text of a token between its first at signs and its index. *)
Definition TOKEN_WORD : str := py "HEXO2TYPECHO_TOKEN_".

(** [w] starts at no position of [s]. *)
Fixpoint no_sub (w s : str) : bool :=
  negb (startswith s w)
  && match s with
     | [] => true
     | _ :: s' => no_sub w s'
     end.

Definition no_at (s : str) : bool := forallb (fun c => negb (c =? "@")%char) s.

(** No line of [text] opens a fence. *)
Definition no_fence_line (text : str) : bool :=
  forallb (fun line => match fence_open line with
                       | Some _ => false
                       | None => true
                       end)
          (splitlines true text).

(** [masks k s m toks k']: the masked text [m] is the text [s] in which
    some parts have been replaced by the tokens of the indices [k], [k+1],
    ..., [k'-1], from left to right, and [toks] maps each token to the part
    that it stands for. *)
Inductive masks : Z -> str -> str -> list (str * str) -> Z -> Prop :=
| masks_nil (k : Z) : masks k [] [] [] k
| masks_char (k : Z) (c : ascii) (s m : str) (toks : list (str * str))
    (k' : Z) :
    masks k s m toks k' -> masks k (c :: s) (c :: m) toks k'
| masks_span (k : Z) (r s m : str) (toks : list (str * str)) (k' : Z) :
    masks (k + 1) s m toks k' ->
    masks k (r ++ s) (make_token k ++ m) ((make_token k, r) :: toks) k'.
(** A text with a fenced block and a code span. *)
Definition fence_and_span : str :=
  join [LF] [py "Run `make all` first."; py "```"; py "x = 1"; py "```";
             py "Done."].

(** A text with code spans in which no line opens a fence. *)
Definition two_spans : str := py "Use `a_b` and ``c`d`` here.".

(** The keys of [tokens] are tokens of indices below [k]. *)
Definition older (k : Z) (tokens : list (str * str)) : Prop :=
  Forall (fun item => exists i, (i < k)%Z /\ fst item = make_token i) tokens.

(** ** Unescaping underscores *)

(** Whether an odd run of backslashes ends after [ch], when [odd_run] says
    whether one ends before it. *)
Definition odd_run_after (odd_run : bool) (ch : ascii) : bool :=
  if (ch =? "\")%char then negb odd_run else false.

(** The loop of [unescape_math_underscores] on [text[i:]]; [odd_run] is
    [is_escaped_at(text, i)]. *)
Fixpoint unescape_from (odd_run : bool) (rest : str) : str :=
  match rest with
  | [] => []
  | ch :: rest' =>
      match rest' with
      | next :: rest'' =>
          if (ch =? "\")%char && (next =? "_")%char && negb odd_run
          then "_"%char :: unescape_from false rest''
          else ch :: unescape_from (odd_run_after odd_run ch) rest'
      | [] => [ch]
      end
  end.

(** No underscore of [rest] has an odd run of backslashes before it. *)
Fixpoint none_escaped (odd_run : bool) (rest : str) : bool :=
  match rest with
  | [] => true
  | ch :: rest' =>
      if (ch =? "_")%char then negb odd_run && none_escaped false rest'
      else none_escaped (odd_run_after odd_run ch) rest'
  end.

Definition starts_with_underscore (s : str) : bool :=
  match s with
  | c :: _ => (c =? "_")%char
  | [] => false
  end.

(** ** Values without a date *)

(** The text that [parse_date] gives to the readers for the string [s]. *)
Definition date_text (s : str) : str :=
  date_offset_sub
    (if endswith (strip s) (py "Z") then removelast (strip s) ++ py "+00:00"
     else strip s).

(** No format reads the string [s]: [datetime.fromisoformat] raises for
    its text and for its text with hyphens in place of the slashes, and
    [datetime.strptime] raises for its text with every known format. *)
Definition unread (rt : runtime) (s : str) : Prop :=
  fromisoformat rt (date_text s) = None
  /\ fromisoformat rt (replace (date_text s) (py "/") (py "-")) = None
  /\ forall fmt, In fmt known_formats -> strptime rt (date_text s) fmt = None.

(** A value that [parse_date] takes no date from: [None], a list, a dict,
    a blank string or a string that no format reads. *)
Definition no_date (rt : runtime) (v : value) : Prop :=
  match v with
  | VNone | VList _ | VDict _ => True
  | VStr s => strip s = [] \/ unread rt s
  | _ => False
  end.

Definition is_number (v : value) : bool :=
  match v with
  | VInt _ | VFloat _ | VBool _ => true
  | _ => false
  end.

(** * Properties *)

(** ** Underscore escaping *)

Lemma backslash_run_none (text : str) (n : nat) :
  no_backslash text -> backslash_run text n = 0.
Proof.
  intros Hx. destruct n as [|pos]; simpl; [reflexivity|].
  destruct (Ascii.eqb_spec (nth pos text zero) "\"%char) as [E|E]; [|reflexivity].
  exfalso. destruct (nth_in_or_default pos text zero) as [Hin|Hd].
  - apply Hx. rewrite <- E. exact Hin.
  - rewrite Hd in E. discriminate E.
Qed.

Lemma escape_loop_no_backslash (text : str) (idx : nat) (rest : str) :
  no_backslash text -> escape_loop text idx rest = flat_map escaped_char rest.
Proof.
  intros Hx. revert idx. induction rest as [|ch rest IH]; intros idx; simpl.
  - reflexivity.
  - unfold is_escaped_at. rewrite (backslash_run_none text idx Hx). simpl.
    rewrite andb_true_r. unfold escaped_char at 1. rewrite IH. reflexivity.
Qed.

Lemma escaped_char_last (c : ascii) :
  c <> "\"%char ->
  exists q d, escaped_char c = q ++ [d] /\ d <> "\"%char.
Proof.
  intros Hc. unfold escaped_char.
  destruct (Ascii.eqb_spec c "_"%char) as [E|E].
  - exists ["\"%char], "_"%char. split; [reflexivity|discriminate].
  - exists [], c. split; [reflexivity|exact Hc].
Qed.

Lemma escaped_snoc (pre : str) (c : ascii) :
  flat_map escaped_char (pre ++ [c]) = flat_map escaped_char pre ++ escaped_char c.
Proof. rewrite flat_map_app. simpl. rewrite app_nil_r. reflexivity. Qed.

(** No backslash run ends where the escaped image of a prefix ends. *)
Lemma backslash_run_after_escaped (pre rest : str) :
  no_backslash pre ->
  backslash_run (flat_map escaped_char pre ++ rest)
                (length (flat_map escaped_char pre)) = 0.
Proof.
  intros Hpre. destruct pre as [|c0 pre0] using rev_ind; [reflexivity|].
  assert (Hc : c0 <> "\"%char).
  { intro E. apply Hpre. apply in_or_app. right. left. exact E. }
  rewrite escaped_snoc.
  destruct (escaped_char_last c0 Hc) as (q & d & Hq & Hd). rewrite Hq.
  rewrite app_assoc, length_app. simpl.
  replace (length (flat_map escaped_char pre0 ++ q) + 1)
    with (S (length (flat_map escaped_char pre0 ++ q))) by lia.
  simpl. rewrite <- app_assoc. simpl. rewrite nth_middle.
  destruct (Ascii.eqb_spec d "\"%char) as [E|E]; [contradiction|reflexivity].
Qed.

Lemma unescape_loop_escaped (suf pre : str) (fuel : nat) :
  no_backslash (pre ++ suf) ->
  length (flat_map escaped_char suf) <= fuel ->
  unescape_loop fuel (flat_map escaped_char pre ++ flat_map escaped_char suf)
                (length (flat_map escaped_char pre)) = suf.
Proof.
  revert pre fuel. induction suf as [|c suf IH]; intros pre fuel Hx Hfuel.
  - simpl. rewrite app_nil_r. destruct fuel; simpl; [reflexivity|].
    rewrite Nat.ltb_irrefl. reflexivity.
  - assert (Hpre : no_backslash pre).
    { intro E. apply Hx. apply in_or_app. left. exact E. }
    assert (Hc : c <> "\"%char).
    { intro E. apply Hx. apply in_or_app. right. left. exact E. }
    assert (Hx' : no_backslash ((pre ++ [c]) ++ suf)).
    { rewrite <- app_assoc. exact Hx. }
    assert (IH' : forall fuel, length (flat_map escaped_char suf) <= fuel ->
              unescape_loop fuel
                (flat_map escaped_char pre ++ escaped_char c ++ flat_map escaped_char suf)
                (length (flat_map escaped_char pre) + length (escaped_char c)) = suf).
    { intros fuel0 H0. specialize (IH (pre ++ [c]) fuel0 Hx' H0).
      rewrite escaped_snoc, length_app, <- app_assoc in IH. exact IH. }
    clear IH. rename IH' into IH.
    simpl flat_map in *. rewrite length_app in Hfuel.
    set (E := flat_map escaped_char) in *.
    assert (Hrun := backslash_run_after_escaped pre (escaped_char c ++ E suf) Hpre).
    fold E in Hrun.
    unfold escaped_char in *. destruct (Ascii.eqb_spec c "_"%char) as [Ec|Ec].
    + subst c. simpl in Hfuel, IH, Hrun |- *.
      destruct fuel as [|fuel]; [lia|]. cbn [unescape_loop].
      unfold is_escaped_at. rewrite Hrun.
      replace (length (E pre) <? length (E pre ++ "\"%char :: "_"%char :: E suf))
        with true by (symmetry; apply Nat.ltb_lt; rewrite length_app; simpl; lia).
      replace (length (E pre) + 1 <? length (E pre ++ "\"%char :: "_"%char :: E suf))
        with true by (symmetry; apply Nat.ltb_lt; rewrite length_app; simpl; lia).
      rewrite nth_middle.
      replace (nth (length (E pre) + 1) (E pre ++ "\"%char :: "_"%char :: E suf) zero)
        with "_"%char.
      2:{ replace (E pre ++ "\"%char :: "_"%char :: E suf)
            with ((E pre ++ ["\"%char]) ++ "_"%char :: E suf)
            by (rewrite <- app_assoc; reflexivity).
          replace (length (E pre) + 1) with (length (E pre ++ ["\"%char]))
            by (rewrite length_app; reflexivity).
          rewrite nth_middle. reflexivity. }
      simpl. f_equal. apply IH. lia.
    + simpl in Hfuel, IH, Hrun |- *.
      destruct fuel as [|fuel]; [lia|]. cbn [unescape_loop].
      replace (length (E pre) <? length (E pre ++ c :: E suf))
        with true by (symmetry; apply Nat.ltb_lt; rewrite length_app; simpl; lia).
      rewrite nth_middle.
      destruct (Ascii.eqb_spec c "\"%char) as [E1|E1]; [contradiction|].
      simpl. f_equal. apply IH. lia.
Qed.

(** C9. On a text without backslashes, unescaping what
    [escape_math_underscores] wrote gives the text back. *)
Theorem unescape_escape_id (x : str) :
  no_backslash x ->
  unescape_math_underscores (escape_math_underscores x) = x.
Proof.
  intros Hx. unfold escape_math_underscores, unescape_math_underscores.
  rewrite (escape_loop_no_backslash x 0 x Hx).
  apply (unescape_loop_escaped x [] (length (flat_map escaped_char x))).
  - exact Hx.
  - apply Nat.le_refl.
Qed.

Lemma unescape_escape_id_witness :
  no_backslash (py "x_1 + y__2") /\
  unescape_math_underscores (escape_math_underscores (py "x_1 + y__2"))
  = py "x_1 + y__2".
Proof.
  assert (H : no_backslash (py "x_1 + y__2")).
  { unfold no_backslash. simpl. intuition discriminate. }
  split; [exact H|exact (unescape_escape_id _ H)].
Defined.

(** ** Front matter *)

Lemma find_boundary_none (rest : list str) (idx : nat) :
  Forall (fun line => is_boundary line = false) rest ->
  find_boundary idx rest = None.
Proof.
  intros H. revert idx. induction H as [|line rest Hl _ IH]; intros idx; simpl.
  - reflexivity.
  - rewrite Hl. apply IH.
Qed.

Lemma startswith_head_differs (c d : ascii) (s old : str) :
  c <> d -> startswith (c :: s) (d :: old) = false.
Proof.
  intros H. simpl. destruct (Ascii.eqb_spec d c) as [E|E].
  - exfalso. apply H. symmetry. exact E.
  - reflexivity.
Qed.

(** Replacing a text whose first character does not occur changes nothing. *)
Lemma replace_absent (s old new : str) (c : ascii) :
  ~ In c s -> replace s (c :: old) new = s.
Proof.
  unfold replace. induction s as [|a s IH]; intros H; simpl; [reflexivity|].
  destruct (Ascii.eqb_spec c a) as [E|E].
  - exfalso. apply H. left. symmetry. exact E.
  - simpl. f_equal. apply IH. intro Hin. apply H. right. exact Hin.
Qed.

Lemma normalize_newlines_no_cr (text : str) :
  ~ In CR text -> normalize_newlines text = text.
Proof.
  intros H. unfold normalize_newlines.
  rewrite (replace_absent text [LF] [LF] CR H).
  apply (replace_absent text [] [LF] CR H).
Qed.

(** C1, as the code has it. When the first line is not the delimiter line,
    or no later line is one, [split_front_matter] returns empty metadata
    and, as the body, the text with its line ends normalized to line feeds;
    that body is the text itself when the text has no carriage return. *)
Theorem split_front_matter_without_block (rt : runtime) (text : str) :
  no_opening_delimiter text \/ no_closing_delimiter text ->
  split_front_matter rt text = ([], normalize_newlines text)
  /\ (~ In CR text -> snd (split_front_matter rt text) = text).
Proof.
  intros H.
  assert (E : split_front_matter rt text = ([], normalize_newlines text)).
  { unfold split_front_matter.
    unfold no_opening_delimiter, no_closing_delimiter, lines_of in H.
    destruct (split LF (normalize_newlines text)) as [|first rest] eqn:El;
      [reflexivity|].
    destruct (is_boundary first) eqn:Eb; simpl; [|reflexivity].
    destruct H as [H|H]; [discriminate H|].
    simpl in H. rewrite (find_boundary_none rest 1 H). reflexivity. }
  split; [exact E|].
  intros Hcr. rewrite E. simpl. apply normalize_newlines_no_cr. exact Hcr.
Qed.

Lemma split_front_matter_without_block_witness :
  (no_opening_delimiter (py "# Title" ++ [LF] ++ py "body")
   \/ no_closing_delimiter (py "# Title" ++ [LF] ++ py "body"))
  /\ split_front_matter rt_example (py "# Title" ++ [LF] ++ py "body")
     = ([], py "# Title" ++ [LF] ++ py "body").
Proof.
  assert (H : no_opening_delimiter (py "# Title" ++ [LF] ++ py "body")
              \/ no_closing_delimiter (py "# Title" ++ [LF] ++ py "body")).
  { left. reflexivity. }
  split; [exact H|].
  exact (proj1 (split_front_matter_without_block rt_example _ H)).
Defined.

(** C1, as stated, fails: the body is not the input verbatim when the
    input has a carriage return. *)
Lemma split_front_matter_not_verbatim :
  no_opening_delimiter (py "a" ++ [CR] ++ py "b")
  /\ split_front_matter rt_example (py "a" ++ [CR] ++ py "b")
     = ([], py "a" ++ [LF] ++ py "b")
  /\ snd (split_front_matter rt_example (py "a" ++ [CR] ++ py "b"))
     <> py "a" ++ [CR] ++ py "b".
Proof.
  split; [reflexivity|]. split; [reflexivity|].
  vm_compute. discriminate.
Qed.

(** ** Equality tests *)

Lemma str_eqb_eq (a b : str) : str_eqb a b = true <-> a = b.
Proof.
  unfold str_eqb. destruct (list_eq_dec ascii_dec a b); split; intros H;
    try reflexivity; try assumption; try discriminate; contradiction.
Qed.

Lemma str_eqb_refl (a : str) : str_eqb a a = true.
Proof. apply str_eqb_eq. reflexivity. Qed.

Lemma key_eqb_eq (a b : term_key) : key_eqb a b = true <-> a = b.
Proof.
  unfold key_eqb. destruct a as [a1 a2], b as [b1 b2]. simpl.
  rewrite andb_true_iff, !str_eqb_eq. split.
  - intros [-> ->]. reflexivity.
  - intros E. inversion E. split; reflexivity.
Qed.

Lemma relation_eqb_eq (a b : relation) : relation_eqb a b = true <-> a = b.
Proof.
  unfold relation_eqb. destruct a as [a1 a2], b as [b1 b2]. simpl.
  rewrite andb_true_iff, !Z.eqb_eq. split.
  - intros [-> ->]. reflexivity.
  - intros E. inversion E. split; reflexivity.
Qed.

Lemma existsb_eqb_in {A : Type} (eqb : A -> A -> bool)
  (Heq : forall a b, eqb a b = true <-> a = b) (x : A) (l : list A) :
  existsb (eqb x) l = true <-> In x l.
Proof.
  rewrite existsb_exists. split.
  - intros (y & Hin & E). apply Heq in E. subst y. exact Hin.
  - intros Hin. exists x. split; [exact Hin|]. apply Heq. reflexivity.
Qed.

Lemma mem_in (x : str) (l : list str) : mem x l = true <-> In x l.
Proof.
  induction l as [|y l IH]; simpl.
  - split; [discriminate|contradiction].
  - rewrite orb_true_iff, str_eqb_eq, IH. split; intros [H|H]; auto.
Qed.

(** ** Dictionaries *)

Section DictFacts.
Context {K V : Type} (eqb : K -> K -> bool).
Hypothesis eqb_eq : forall a b, eqb a b = true <-> a = b.

Lemma eqb_same (k : K) : eqb k k = true.
Proof. apply eqb_eq. reflexivity. Qed.

Lemma eqb_differs (k k' : K) : k <> k' -> eqb k k' = false.
Proof.
  intros H. destruct (eqb k k') eqn:E; [|reflexivity].
  apply eqb_eq in E. contradiction.
Qed.

Lemma dict_get_set_same (d : list (K * V)) (k : K) (v : V) :
  dict_get eqb (dict_set eqb d k v) k = Some v.
Proof.
  induction d as [|[k' v'] d IH]; simpl.
  - rewrite eqb_same. reflexivity.
  - destruct (eqb k k') eqn:E; simpl; rewrite E; [reflexivity|exact IH].
Qed.

Lemma dict_get_set_other (d : list (K * V)) (k k' : K) (v : V) :
  k' <> k ->
  dict_get eqb (dict_set eqb d k v) k' = dict_get eqb d k'.
Proof.
  intros Hne. induction d as [|[k0 v0] d IH]; simpl.
  - rewrite (eqb_differs k' k Hne). reflexivity.
  - destruct (eqb k k0) eqn:E; simpl.
    + apply eqb_eq in E. subst k0. rewrite (eqb_differs k' k Hne).
      reflexivity.
    + rewrite IH. reflexivity.
Qed.

Lemma dict_has_in (d : list (K * V)) (k : K) :
  dict_has eqb d k = true <-> In k (map fst d).
Proof.
  unfold dict_has. induction d as [|[k' v'] d IH]; simpl.
  - split; [discriminate|contradiction].
  - destruct (eqb k k') eqn:E.
    + apply eqb_eq in E. subst k'. split; auto.
    + rewrite IH. split; [auto|].
      intros [H|H]; [|exact H]. subst k'. rewrite eqb_same in E.
      discriminate E.
Qed.

Lemma dict_get_none (d : list (K * V)) (k : K) :
  dict_get eqb d k = None <-> ~ In k (map fst d).
Proof.
  split; intros H.
  - intro Hin. apply dict_has_in in Hin. unfold dict_has in Hin.
    rewrite H in Hin. discriminate Hin.
  - destruct (dict_get eqb d k) eqn:E; [|reflexivity].
    exfalso. apply H. apply dict_has_in. unfold dict_has. rewrite E.
    reflexivity.
Qed.

Lemma dict_keys_set (d : list (K * V)) (k : K) (v : V) :
  map fst (dict_set eqb d k v)
  = if dict_has eqb d k then map fst d else map fst d ++ [k].
Proof.
  unfold dict_has. induction d as [|[k' v'] d IH]; simpl.
  - reflexivity.
  - destruct (eqb k k') eqn:E; simpl; [reflexivity|].
    rewrite IH. destruct (dict_get eqb d k); reflexivity.
Qed.
End DictFacts.

(** ** First occurrences *)

Section UniqFacts.
Context {A : Type} (eqb : A -> A -> bool).
Hypothesis eqb_eq : forall a b, eqb a b = true <-> a = b.

Lemma uniq_snoc (l : list A) (x : A) :
  uniq eqb (l ++ [x]) = uniq_step eqb (uniq eqb l) x.
Proof. unfold uniq. rewrite fold_left_app. reflexivity. Qed.

Lemma uniq_in (l : list A) (x : A) : In x (uniq eqb l) <-> In x l.
Proof.
  induction l as [|y l IH] using rev_ind.
  - reflexivity.
  - rewrite uniq_snoc, in_app_iff. unfold uniq_step.
    destruct (existsb (eqb y) (uniq eqb l)) eqn:E.
    + apply (existsb_eqb_in eqb eqb_eq) in E. rewrite IH. split; [auto|].
      intros [H|[H|[]]]; [exact H|]. subst y. apply IH. exact E.
    + rewrite in_app_iff, IH. reflexivity.
Qed.

Lemma uniq_nodup (l : list A) : NoDup (uniq eqb l).
Proof.
  induction l as [|y l IH] using rev_ind.
  - constructor.
  - rewrite uniq_snoc. unfold uniq_step.
    destruct (existsb (eqb y) (uniq eqb l)) eqn:E; [exact IH|].
    apply NoDup_app; [exact IH|repeat constructor; intros []|].
    intros x Hx [Hy|[]]. subst y.
    apply (existsb_eqb_in eqb eqb_eq) in Hx. rewrite Hx in E. discriminate E.
Qed.
End UniqFacts.

(** ** [dedupe] *)

Lemma dedupe_loop_snoc (pre : list str) (x : str) (seen : list str) :
  dedupe_loop seen (pre ++ [x])
  = dedupe_loop seen pre
    ++ (if str_empty (strip x) || mem (strip x) seen
           || mem (strip x) (map strip pre)
        then [] else [strip x]).
Proof.
  revert seen. induction pre as [|a pre IH]; intros seen; simpl.
  - rewrite orb_false_r.
    destruct (str_empty (strip x) || mem (strip x) seen); reflexivity.
  - destruct (str_empty (strip a) || mem (strip a) seen) eqn:Ea.
    + rewrite IH. f_equal.
      destruct (str_eqb (strip x) (strip a)) eqn:Ex; simpl; [|reflexivity].
      apply str_eqb_eq in Ex. rewrite Ex, Ea. reflexivity.
    + simpl. rewrite IH. do 2 f_equal. simpl.
      destruct (str_empty (strip x)), (str_eqb (strip x) (strip a)),
        (mem (strip x) seen), (mem (strip x) (map strip pre)); reflexivity.
Qed.

(** [dedupe] drops an item exactly when its trimmed text is empty or is
    the trimmed text of an earlier item, and keeps the trimmed text
    otherwise. *)
Lemma dedupe_snoc (pre : list str) (x : str) :
  dedupe (pre ++ [x])
  = dedupe pre
    ++ (if str_empty (strip x) || mem (strip x) (map strip pre)
        then [] else [strip x]).
Proof. unfold dedupe. rewrite dedupe_loop_snoc. simpl. rewrite orb_false_r. reflexivity. Qed.

Lemma str_empty_nil (s : str) : str_empty s = true <-> s = [].
Proof. destruct s; simpl; split; intros H; try reflexivity; discriminate. Qed.

Lemma dedupe_in (l : list str) (y : str) :
  In y (dedupe l) <-> y <> [] /\ In y (map strip l).
Proof.
  induction l as [|x l IH] using rev_ind.
  - simpl. split; [contradiction|intros [_ []]].
  - rewrite dedupe_snoc, map_app, !in_app_iff, IH. simpl.
    destruct (str_empty (strip x)) eqn:Ee; simpl.
    + apply str_empty_nil in Ee. split.
      * intros [[H1 H2]|[]]. split; [exact H1|left; exact H2].
      * intros [H1 [H2|[H2|[]]]]; [left; split; assumption|].
        exfalso. apply H1. rewrite <- H2. exact Ee.
    + assert (Hne : strip x <> []).
      { intro E. apply str_empty_nil in E. rewrite E in Ee. discriminate Ee. }
      destruct (mem (strip x) (map strip l)) eqn:Em; simpl.
      * apply mem_in in Em. split.
        -- intros [[H1 H2]|[]]. split; [exact H1|left; exact H2].
        -- intros [H1 [H2|[H2|[]]]]; [left; split; assumption|].
           subst y. left. split; assumption.
      * split.
        -- intros [[H1 H2]|[H|[]]]; [split; [exact H1|left; exact H2]|].
           subst y. split; [exact Hne|right; left; reflexivity].
        -- intros [H1 [H2|[H2|[]]]]; [left; split; assumption|].
           right. left. exact H2.
Qed.

Lemma dedupe_nodup (l : list str) : NoDup (dedupe l).
Proof.
  induction l as [|x l IH] using rev_ind.
  - constructor.
  - rewrite dedupe_snoc.
    destruct (str_empty (strip x) || mem (strip x) (map strip l)) eqn:E.
    + rewrite app_nil_r. exact IH.
    + apply orb_false_iff in E. destruct E as [_ Em].
      apply NoDup_app; [exact IH|repeat constructor; intros []|].
      intros y Hy [Hx|[]]. subst y. apply dedupe_in in Hy.
      destruct Hy as [_ Hy]. apply mem_in in Hy. rewrite Hy in Em.
      discriminate Em.
Qed.

(** ** The loop over the terms *)

Lemma occurrences_snoc (key k : term_key) (keys : list term_key) :
  occurrences key (keys ++ [k])
  = occurrences key keys + (if key_eqb key k then 1 else 0).
Proof.
  unfold occurrences. rewrite filter_app, length_app. simpl.
  destruct (key_eqb key k); reflexivity.
Qed.

Lemma occurrences_absent (key : term_key) (keys : list term_key) :
  ~ In key keys -> occurrences key keys = 0.
Proof.
  unfold occurrences. induction keys as [|k keys IH]; intros H; simpl.
  - reflexivity.
  - destruct (key_eqb key k) eqn:E.
    + apply key_eqb_eq in E. exfalso. apply H. left. symmetry. exact E.
    + apply IH. intro Hin. apply H. right. exact Hin.
Qed.

Lemma key_eqb_differs (a b : term_key) : a <> b -> key_eqb a b = false.
Proof. apply (eqb_differs key_eqb key_eqb_eq). Qed.

(** The terms after one more key. *)
Lemma add_key_term_map (st : term_state) (cid : Z) (key : term_key) :
  exists t,
    dict_get key_eqb (term_map (add_key st (cid, key))) key = Some t
    /\ (forall key', key' <> key ->
          dict_get key_eqb (term_map (add_key st (cid, key))) key'
          = dict_get key_eqb (term_map st) key')
    /\ match dict_get key_eqb (term_map st) key with
       | Some t0 =>
           t = mk_term (mid t0) (term_name t0) (term_slug t0) (term_type t0)
                       (count t0 + 1)
           /\ next_mid (add_key st (cid, key)) = next_mid st
           /\ map fst (term_map (add_key st (cid, key))) = map fst (term_map st)
       | None =>
           t = mk_term (next_mid st) (snd key) (slugify (snd key)) (fst key) 1
           /\ next_mid (add_key st (cid, key)) = (next_mid st + 1)%Z
           /\ map fst (term_map (add_key st (cid, key)))
              = map fst (term_map st) ++ [key]
       end
    /\ (In (cid, mid t) (relation_seen st) ->
        relationships (add_key st (cid, key)) = relationships st
        /\ relation_seen (add_key st (cid, key)) = relation_seen st)
    /\ (~ In (cid, mid t) (relation_seen st) ->
        relationships (add_key st (cid, key))
        = relationships st ++ [(cid, mid t)]
        /\ relation_seen (add_key st (cid, key))
           = (cid, mid t) :: relation_seen st).
Proof.
  destruct key as [kind name]. unfold add_key, add_term. simpl fst. simpl snd.
  set (key := (kind, name)). set (m := term_map st).
  unfold dict_has. destruct (dict_get key_eqb m key) as [t0|] eqn:Eg; simpl negb.
  - cbv iota. rewrite Eg.
    set (t1 := mk_term (mid t0) (term_name t0) (term_slug t0) (term_type t0)
                       (count t0 + 1)).
    exists t1.
    assert (Hseen : forall b : bool,
              existsb (relation_eqb (cid, mid t0)) (relation_seen st) = b ->
              (b = true <-> In (cid, mid t0) (relation_seen st))).
    { intros b Hb. rewrite <- Hb.
      apply (existsb_eqb_in relation_eqb relation_eqb_eq). }
    destruct (existsb (relation_eqb (cid, mid t0)) (relation_seen st)) eqn:Es;
      simpl; (split; [apply (dict_get_set_same key_eqb key_eqb_eq)|]);
      (split; [intros key' Hne;
               apply (dict_get_set_other key_eqb key_eqb_eq); exact Hne|]);
      (split; [split; [reflexivity|split; [reflexivity|]];
               rewrite (dict_keys_set key_eqb); unfold dict_has; fold m;
               rewrite Eg; reflexivity|]).
    + split; [intros _; split; reflexivity|].
      intros Hn. exfalso. apply Hn. apply (Hseen true eq_refl). reflexivity.
    + split; [|intros _; split; reflexivity].
      intros Hin. apply (Hseen false eq_refl) in Hin. discriminate Hin.
  - cbv iota.
    set (t0 := mk_term (next_mid st) name (slugify name) kind 0).
    rewrite (dict_get_set_same key_eqb key_eqb_eq).
    set (t1 := mk_term (mid t0) (term_name t0) (term_slug t0) (term_type t0)
                       (count t0 + 1)).
    exists t1.
    assert (Hkeys : map fst (dict_set key_eqb (dict_set key_eqb m key t0) key t1)
                    = map fst m ++ [key]).
    { rewrite (dict_keys_set key_eqb). unfold dict_has.
      rewrite (dict_get_set_same key_eqb key_eqb_eq).
      rewrite (dict_keys_set key_eqb). unfold dict_has. rewrite Eg.
      reflexivity. }
    assert (Hseen : forall b : bool,
              existsb (relation_eqb (cid, mid t0)) (relation_seen st) = b ->
              (b = true <-> In (cid, mid t0) (relation_seen st))).
    { intros b Hb. rewrite <- Hb.
      apply (existsb_eqb_in relation_eqb relation_eqb_eq). }
    destruct (existsb (relation_eqb (cid, mid t0)) (relation_seen st)) eqn:Es;
      simpl; (split; [apply (dict_get_set_same key_eqb key_eqb_eq)|]);
      (split; [intros key' Hne;
               rewrite !(dict_get_set_other key_eqb key_eqb_eq) by exact Hne;
               reflexivity|]);
      (split; [split; [reflexivity|split; [reflexivity|exact Hkeys]]|]).
    + split; [intros _; split; reflexivity|].
      intros Hn. exfalso. apply Hn. apply (Hseen true eq_refl). reflexivity.
    + split; [|intros _; split; reflexivity].
      intros Hin. apply (Hseen false eq_refl) in Hin. discriminate Hin.
Qed.

Lemma term_inv_init (base : Z) : term_inv base [] (mk_term_state [] [] [] base).
Proof.
  unfold term_inv. simpl. split; [reflexivity|]. split; [lia|].
  intros n key H. destruct n; discriminate H.
Qed.

Lemma term_inv_step (base : Z) (keys : list term_key) (st : term_state)
  (cid : Z) (key : term_key) :
  term_inv base keys st ->
  term_inv base (keys ++ [key]) (add_key st (cid, key)).
Proof.
  intros (Hkeys & Hnext & Hterms).
  destruct (add_key_term_map st cid key) as (t & Hget & Hother & Hcase & _).
  assert (Huniq : uniq key_eqb (keys ++ [key])
                  = if dict_has key_eqb (term_map st) key
                    then uniq key_eqb keys else uniq key_eqb keys ++ [key]).
  { rewrite uniq_snoc. unfold uniq_step.
    destruct (dict_has key_eqb (term_map st) key) eqn:Eh.
    - apply (dict_has_in key_eqb key_eqb_eq) in Eh. rewrite Hkeys in Eh.
      apply (existsb_eqb_in key_eqb key_eqb_eq) in Eh. rewrite Eh. reflexivity.
    - destruct (existsb (key_eqb key) (uniq key_eqb keys)) eqn:Ee; [|reflexivity].
      apply (existsb_eqb_in key_eqb key_eqb_eq) in Ee. rewrite <- Hkeys in Ee.
      apply (dict_has_in key_eqb key_eqb_eq) in Ee. rewrite Ee in Eh.
      discriminate Eh. }
  unfold dict_has in Huniq. unfold term_inv.
  destruct (dict_get key_eqb (term_map st) key) as [t0|] eqn:Eg.
  - destruct Hcase as (Ht & Hn & Hk). rewrite Huniq.
    split; [rewrite Hk; exact Hkeys|]. split; [rewrite Hn; exact Hnext|].
    intros n key' Hnth. destruct (Hterms n key' Hnth) as (u & Hu & Hmid & Hcount & Hrest).
    rewrite occurrences_snoc.
    destruct (key_eqb key' key) eqn:Ek.
    + apply key_eqb_eq in Ek. subst key'. exists t. split; [exact Hget|].
      rewrite Eg in Hu. injection Hu as Hu. subst u. subst t. simpl.
      split; [exact Hmid|]. split; [rewrite Hcount; lia|exact Hrest].
    + exists u. split.
      * rewrite Hother; [exact Hu|]. intro E. subst key'.
        rewrite (eqb_same key_eqb key_eqb_eq) in Ek. discriminate Ek.
      * split; [exact Hmid|]. split; [rewrite Hcount; f_equal; lia|exact Hrest].
  - destruct Hcase as (Ht & Hn & Hk). rewrite Huniq.
    assert (Hnotin : ~ In key keys).
    { intro Hin. apply (uniq_in key_eqb key_eqb_eq) in Hin.
      rewrite <- Hkeys in Hin.
      apply (dict_get_none key_eqb key_eqb_eq) in Eg. contradiction. }
    split; [rewrite Hk, Hkeys; reflexivity|].
    split; [rewrite Hn, Hnext, length_app; simpl; lia|].
    intros n key' Hnth. rewrite occurrences_snoc.
    destruct (Nat.lt_ge_cases n (length (uniq key_eqb keys))) as [Hlt|Hge].
    + rewrite nth_error_app1 in Hnth by exact Hlt.
      destruct (Hterms n key' Hnth) as (u & Hu & Hmid & Hcount & Hrest).
      assert (Hne : key' <> key).
      { intro E. subst key'. apply Hnotin.
        apply (uniq_in key_eqb key_eqb_eq). eapply nth_error_In. exact Hnth. }
      exists u. split; [rewrite Hother; [exact Hu|exact Hne]|].
      split; [exact Hmid|]. rewrite (key_eqb_differs key' key Hne).
      split; [rewrite Hcount; f_equal; lia|exact Hrest].
    + rewrite nth_error_app2 in Hnth by exact Hge.
      destruct (n - length (uniq key_eqb keys)) as [|d] eqn:Ed;
        [|destruct d; discriminate Hnth].
      simpl in Hnth. injection Hnth as Hnth. subst key'.
      exists t. split; [exact Hget|]. subst t. simpl.
      rewrite (eqb_same key_eqb key_eqb_eq), (occurrences_absent key keys Hnotin).
      split; [rewrite Hnext; f_equal; f_equal; lia|].
      repeat split; reflexivity.
Qed.

Lemma seen_dec (r : relation) (seen : list relation) :
  In r seen \/ ~ In r seen.
Proof.
  destruct (existsb (relation_eqb r) seen) eqn:E.
  - left. apply (existsb_eqb_in relation_eqb relation_eqb_eq). exact E.
  - right. intro Hin. apply (existsb_eqb_in relation_eqb relation_eqb_eq) in Hin.
    rewrite Hin in E. discriminate E.
Qed.

Lemma rel_inv_step (st : term_state) (cid : Z) (key : term_key) :
  rel_inv st -> rel_inv (add_key st (cid, key)).
Proof.
  intros [Hnd Hseen].
  destruct (add_key_term_map st cid key) as (t & _ & _ & _ & Hold & Hnew).
  destruct (seen_dec (cid, mid t) (relation_seen st)) as [Hin|Hnin].
  - destruct (Hold Hin) as [E1 E2]. unfold rel_inv. rewrite E1, E2.
    split; assumption.
  - destruct (Hnew Hnin) as [E1 E2]. unfold rel_inv. rewrite E1, E2. split.
    + apply NoDup_app; [exact Hnd|repeat constructor; intros []|].
      intros r Hr [E|[]]. subst r. apply Hnin. apply Hseen. exact Hr.
    + intros r. rewrite in_app_iff. simpl. rewrite Hseen. tauto.
Qed.

Lemma linked_step (events : list (Z * term_key)) (st : term_state)
  (cid : Z) (key : term_key) :
  rel_inv st -> linked events st ->
  linked (events ++ [(cid, key)]) (add_key st (cid, key)).
Proof.
  intros [_ Hseen] Hl.
  destruct (add_key_term_map st cid key)
    as (t & Hget & Hother & Hcase & Hold & Hnew).
  assert (Hrel : forall r, In r (relationships (add_key st (cid, key)))
                           <-> In r (relationships st) \/ r = (cid, mid t)).
  { intros r. destruct (seen_dec (cid, mid t) (relation_seen st)) as [Hin|Hnin].
    - destruct (Hold Hin) as [E1 _]. rewrite E1. split; [auto|].
      intros [H|H]; [exact H|]. subst r. apply Hseen. exact Hin.
    - destruct (Hnew Hnin) as [E1 _]. rewrite E1, in_app_iff. simpl.
      split; [intros [H|[H|[]]]; auto|intros [H|H]; auto]. }
  intros c k Hin. apply in_app_iff in Hin. destruct Hin as [Hin|[Hin|[]]].
  - destruct (Hl c k Hin) as (u & Hu & Hr).
    destruct (key_eqb k key) eqn:Ek.
    + apply key_eqb_eq in Ek. subst k. exists t. split; [exact Hget|].
      apply Hrel. left. rewrite Hu in Hcase. destruct Hcase as (Ht & _).
      subst t. simpl. exact Hr.
    + exists u. split.
      * rewrite Hother; [exact Hu|]. intro E. subst k.
        rewrite (eqb_same key_eqb key_eqb_eq) in Ek. discriminate Ek.
      * apply Hrel. left. exact Hr.
  - injection Hin as Ec Ek. subst c k. exists t. split; [exact Hget|].
    apply Hrel. right. reflexivity.
Qed.

Lemma fold_add_key_inv (base : Z) (events : list (Z * term_key)) :
  forall (keys : list term_key) (before : list (Z * term_key))
         (st : term_state),
    term_inv base keys st -> rel_inv st -> linked before st ->
    term_inv base (keys ++ map snd events) (fold_left add_key events st)
    /\ rel_inv (fold_left add_key events st)
    /\ linked (before ++ events) (fold_left add_key events st).
Proof.
  induction events as [|[cid key] events IH]; intros keys before st Ht Hr Hl.
  - simpl. rewrite !app_nil_r. auto.
  - simpl.
    replace (keys ++ key :: map snd events)
      with ((keys ++ [key]) ++ map snd events)
      by (rewrite <- app_assoc; reflexivity).
    replace (before ++ (cid, key) :: events)
      with ((before ++ [(cid, key)]) ++ events)
      by (rewrite <- app_assoc; reflexivity).
    apply IH.
    + apply term_inv_step. exact Ht.
    + apply rel_inv_step. exact Hr.
    + apply linked_step; assumption.
Qed.

Lemma fold_add_term_keys (kind : str) (cid : Z) (names : list str)
  (st : term_state) :
  fold_left (add_term kind cid) names st
  = fold_left add_key (map (pair cid) (map (pair kind) names)) st.
Proof.
  revert st. induction names as [|name names IH]; intros st; simpl.
  - reflexivity.
  - rewrite IH. reflexivity.
Qed.

(** The loop over the posts is the loop over their pairs. *)
Lemma add_posts_events (posts : list HexoPost) (cid : Z) (st : term_state) :
  add_posts posts cid st = fold_left add_key (post_events posts cid) st.
Proof.
  revert cid st. induction posts as [|post posts IH]; intros cid st; simpl.
  - reflexivity.
  - rewrite fold_left_app, IH. f_equal.
    unfold add_post_terms, post_keys.
    rewrite map_app, fold_left_app, !fold_add_term_keys. reflexivity.
Qed.

Lemma post_events_keys (posts : list HexoPost) (cid : Z) :
  map snd (post_events posts cid) = all_keys posts.
Proof.
  revert cid. induction posts as [|post posts IH]; intros cid; simpl.
  - reflexivity.
  - rewrite map_app, IH, map_map. simpl. rewrite map_id. reflexivity.
Qed.

Lemma post_events_in (posts : list HexoPost) (cid : Z) (i : nat)
  (post : HexoPost) (key : term_key) :
  nth_error posts i = Some post -> In key (post_keys post) ->
  In ((cid + Z.of_nat i)%Z, key) (post_events posts cid).
Proof.
  revert cid i. induction posts as [|p posts IH]; intros cid i Hnth Hin.
  - destruct i; discriminate Hnth.
  - simpl. apply in_or_app. destruct i as [|i]; simpl in Hnth.
    + injection Hnth as Hnth. subst p. left.
      replace (cid + Z.of_nat 0)%Z with cid by lia.
      apply in_map. exact Hin.
    + right. replace (cid + Z.of_nat (S i))%Z with (cid + 1 + Z.of_nat i)%Z by lia.
      apply IH; assumption.
Qed.

(** What [build_sql] has computed when its loop ends. *)
Lemma build_terms_inv (posts : list HexoPost) (cid_start mid_start : Z) :
  term_inv (Z.max mid_start 1) (all_keys posts)
           (build_terms posts cid_start mid_start)
  /\ rel_inv (build_terms posts cid_start mid_start)
  /\ linked (post_events posts (Z.max cid_start 1))
            (build_terms posts cid_start mid_start).
Proof.
  unfold build_terms. rewrite add_posts_events.
  rewrite <- (post_events_keys posts (Z.max cid_start 1)).
  apply (fold_add_key_inv (Z.max mid_start 1)
           (post_events posts (Z.max cid_start 1)) [] []).
  - apply term_inv_init.
  - split; [constructor|]. intros r. reflexivity.
  - intros c k [].
Qed.

Lemma occurrences_nodup (key : term_key) (keys : list term_key) :
  NoDup keys ->
  occurrences key keys = if existsb (key_eqb key) keys then 1 else 0.
Proof.
  induction 1 as [|k keys Hk Hnd IH]; [reflexivity|].
  change (occurrences key (k :: keys))
    with (length (if key_eqb key k then k :: filter (key_eqb key) keys
                  else filter (key_eqb key) keys)).
  simpl existsb. destruct (key_eqb key k) eqn:E; simpl.
  - apply key_eqb_eq in E. subst k.
    fold (occurrences key keys). rewrite (occurrences_absent key keys Hk).
    reflexivity.
  - exact IH.
Qed.

Lemma nodup_map_pair (kind : str) (names : list str) :
  NoDup names -> NoDup (map (pair kind) names).
Proof.
  induction 1 as [|x names Hx Hnd IH]; simpl; constructor; [|exact IH].
  intro Hin. apply in_map_iff in Hin. destruct Hin as (y & E & Hy).
  inversion E. subst y. contradiction.
Qed.

Lemma post_keys_nodup (post : HexoPost) : NoDup (post_keys post).
Proof.
  unfold post_keys. apply NoDup_app.
  - apply nodup_map_pair, dedupe_nodup.
  - apply nodup_map_pair, dedupe_nodup.
  - intros k H1 H2. apply in_map_iff in H1. apply in_map_iff in H2.
    destruct H1 as (x & Hx & _), H2 as (y & Hy & _). subst k.
    discriminate Hy.
Qed.

(** The occurrences of a key among all keys are the posts that have it. *)
Lemma occurrences_all_keys (key : term_key) (posts : list HexoPost) :
  occurrences key (all_keys posts) = length (filter (references key) posts).
Proof.
  unfold all_keys. induction posts as [|post posts IH]; simpl.
  - reflexivity.
  - unfold occurrences in *. rewrite filter_app, length_app, IH.
    fold (occurrences key (post_keys post)).
    rewrite (occurrences_nodup key _ (post_keys_nodup post)).
    unfold references. destruct (existsb (key_eqb key) (post_keys post));
      reflexivity.
Qed.

(** C5, as the code has it. The [n]-th distinct (kind, name) pair, counted
    from 0 in the order in which the loop meets the pairs, gets the
    identifier [max(mid_start, 1) + n], and its count is the number of posts
    that have it. *)
Theorem term_ids_sequential (posts : list HexoPost) (cid_start mid_start : Z)
  (n : nat) (key : term_key) :
  nth_error (uniq key_eqb (all_keys posts)) n = Some key ->
  exists t,
    dict_get key_eqb (term_map (build_terms posts cid_start mid_start)) key
    = Some t
    /\ mid t = (Z.max mid_start 1 + Z.of_nat n)%Z
    /\ count t = Z.of_nat (length (filter (references key) posts)).
Proof.
  intros Hnth.
  destruct (build_terms_inv posts cid_start mid_start) as ((_ & _ & Hterms) & _).
  destruct (Hterms n key Hnth) as (t & Hget & Hmid & Hcount & _).
  exists t. split; [exact Hget|]. split; [exact Hmid|].
  rewrite Hcount, occurrences_all_keys. reflexivity.
Qed.

Lemma term_ids_sequential_witness :
  nth_error (uniq key_eqb
               (all_keys [example_post [py "x"] [py "a"; py "b"];
                          example_post [] [py "b"]])) 2
  = Some (py "tag", py "b")
  /\ exists t,
       dict_get key_eqb
         (term_map (build_terms [example_post [py "x"] [py "a"; py "b"];
                                 example_post [] [py "b"]] 1 5))
         (py "tag", py "b") = Some t
       /\ mid t = 7%Z /\ count t = 2%Z.
Proof.
  split; [reflexivity|].
  exact (term_ids_sequential
           [example_post [py "x"] [py "a"; py "b"]; example_post [] [py "b"]]
           1 5 2 (py "tag", py "b") eq_refl).
Defined.

(** C5, as stated, fails for a starting identifier below 1: the first
    term gets the identifier 1, not the starting identifier. *)
Lemma term_id_ignores_start_below_one :
  nth_error (uniq key_eqb (all_keys [example_post [py "x"] []])) 0
  = Some (py "category", py "x")
  /\ option_map mid
       (dict_get key_eqb
          (term_map (build_terms [example_post [py "x"] []] 1 0))
          (py "category", py "x")) = Some 1%Z
  /\ 1%Z <> (0 + Z.of_nat 1 - 1)%Z.
Proof. split; [reflexivity|]. split; [reflexivity|]. discriminate. Qed.

(** C6. No (content id, term id) pair is twice among the relationships,
    whatever the posts list. *)
Theorem relationships_no_duplicate (posts : list HexoPost)
  (cid_start mid_start : Z) :
  NoDup (relationships (build_terms posts cid_start mid_start)).
Proof.
  destruct (build_terms_inv posts cid_start mid_start) as (_ & (Hnd & _) & _).
  exact Hnd.
Qed.

Lemma uniq_nth_differs {A : Type} (eqb : A -> A -> bool)
  (Heq : forall a b, eqb a b = true <-> a = b) (l : list A) (x y : A) :
  In x l -> In y l -> x <> y ->
  exists n m,
    nth_error (uniq eqb l) n = Some x /\ nth_error (uniq eqb l) m = Some y
    /\ n <> m.
Proof.
  intros Hx Hy Hne.
  apply (uniq_in eqb Heq) in Hx. apply (uniq_in eqb Heq) in Hy.
  apply In_nth_error in Hx. apply In_nth_error in Hy.
  destruct Hx as [n Hn], Hy as [m Hm]. exists n, m.
  split; [exact Hn|]. split; [exact Hm|].
  intro E. subst m. rewrite Hn in Hm. injection Hm as Hm. contradiction.
Qed.

Lemma all_keys_in (posts : list HexoPost) (i : nat) (post : HexoPost)
  (key : term_key) :
  nth_error posts i = Some post -> In key (post_keys post) ->
  In key (all_keys posts).
Proof.
  intros Hnth Hin. unfold all_keys. apply in_flat_map. exists post.
  split; [eapply nth_error_In; exact Hnth|exact Hin].
Qed.

Lemma post_keys_of_name (post : HexoPost) (kind : str) (names : list str)
  (a : str) :
  (kind = py "category" /\ names = categories post)
  \/ (kind = py "tag" /\ names = tags post) ->
  In a names -> strip a <> [] ->
  In (kind, strip a) (post_keys post).
Proof.
  intros Hk Ha Hne. unfold post_keys. apply in_or_app.
  assert (Hd : In (strip a) (dedupe names)).
  { apply dedupe_in. split; [exact Hne|apply in_map; exact Ha]. }
  destruct Hk as [[-> ->]|[-> ->]]; [left|right]; apply in_map; exact Hd.
Qed.

(** C10. [dedupe] compares trimmed texts exactly: the last item of a list
    is dropped exactly when its trimmed text is empty or is the trimmed
    text of an earlier item. So two names of one post, of the same kind,
    whose trimmed texts differ (in letter case only, for instance) give two
    terms with two identifiers and two relationships of that post. *)
Theorem terms_are_case_sensitive
  (pre : list str) (x : str)
  (posts : list HexoPost) (cid_start mid_start : Z)
  (i : nat) (post : HexoPost) (kind : str) (names : list str) (a b : str) :
  nth_error posts i = Some post ->
  (kind = py "category" /\ names = categories post)
  \/ (kind = py "tag" /\ names = tags post) ->
  In a names -> In b names ->
  strip a <> [] -> strip b <> [] -> strip a <> strip b ->
  dedupe (pre ++ [x])
  = dedupe pre
    ++ (if str_empty (strip x) || mem (strip x) (map strip pre)
        then [] else [strip x])
  /\ exists ta tb,
       let st := build_terms posts cid_start mid_start in
       let cid := (Z.max cid_start 1 + Z.of_nat i)%Z in
       dict_get key_eqb (term_map st) (kind, strip a) = Some ta
       /\ dict_get key_eqb (term_map st) (kind, strip b) = Some tb
       /\ mid ta <> mid tb
       /\ In (cid, mid ta) (relationships st)
       /\ In (cid, mid tb) (relationships st)
       /\ (cid, mid ta) <> (cid, mid tb).
Proof.
  intros Hnth Hkind Ha Hb Hna Hnb Hab.
  split; [apply dedupe_snoc|].
  destruct (build_terms_inv posts cid_start mid_start)
    as ((_ & _ & Hterms) & _ & Hlinked).
  assert (Hka := post_keys_of_name post kind names a Hkind Ha Hna).
  assert (Hkb := post_keys_of_name post kind names b Hkind Hb Hnb).
  assert (Hne : (kind, strip a) <> (kind, strip b)).
  { intro E. inversion E. contradiction. }
  destruct (uniq_nth_differs key_eqb key_eqb_eq (all_keys posts)
              (kind, strip a) (kind, strip b)
              (all_keys_in posts i post _ Hnth Hka)
              (all_keys_in posts i post _ Hnth Hkb) Hne)
    as (n & m & Hn & Hm & Hnm).
  destruct (Hterms n _ Hn) as (ta & Hga & Hma & _).
  destruct (Hterms m _ Hm) as (tb & Hgb & Hmb & _).
  destruct (Hlinked _ _ (post_events_in posts (Z.max cid_start 1) i post _ Hnth Hka))
    as (ta' & Hga' & Hra).
  destruct (Hlinked _ _ (post_events_in posts (Z.max cid_start 1) i post _ Hnth Hkb))
    as (tb' & Hgb' & Hrb).
  rewrite Hga in Hga'. injection Hga' as <-.
  rewrite Hgb in Hgb'. injection Hgb' as <-.
  assert (Hmid : mid ta <> mid tb) by (rewrite Hma, Hmb; lia).
  exists ta, tb. simpl. repeat split; try assumption.
  intro E. inversion E. contradiction.
Qed.

Lemma terms_are_case_sensitive_witness :
  exists ta tb,
    let st := build_terms [example_post [py "Tech"; py " tech "; py "Tech "] []] 1 1 in
    dict_get key_eqb (term_map st) (py "category", py "Tech") = Some ta
    /\ dict_get key_eqb (term_map st) (py "category", py "tech") = Some tb
    /\ mid ta <> mid tb
    /\ In (1%Z, mid ta) (relationships st)
    /\ In (1%Z, mid tb) (relationships st)
    /\ (1%Z, mid ta) <> (1%Z, mid tb).
Proof.
  exact (proj2 (terms_are_case_sensitive
                  [] (py "Tech")
                  [example_post [py "Tech"; py " tech "; py "Tech "] []] 1 1
                  0 (example_post [py "Tech"; py " tech "; py "Tech "] [])
                  (py "category") [py "Tech"; py " tech "; py "Tech "]
                  (py "Tech") (py " tech ")
                  eq_refl (or_introl (conj eq_refl eq_refl))
                  (or_introl eq_refl) (or_intror (or_introl eq_refl))
                  ltac:(discriminate) ltac:(discriminate)
                  ltac:(vm_compute; discriminate))).
Defined.

(** ** The order of [str] and [sorted] *)

Lemma str_compare_eq (a b : str) : str_compare a b = Eq <-> a = b.
Proof.
  revert b. induction a as [|x a IH]; intros [|y b]; simpl;
    try (split; [discriminate|discriminate]); [tauto|].
  destruct (N.compare_spec (code x) (code y)) as [E|E|E].
  - unfold code in E.
    assert (Exy : x = y).
    { rewrite <- (ascii_N_embedding x), <- (ascii_N_embedding y), E.
      reflexivity. }
    subst y. rewrite IH. split; [intros ->; reflexivity|].
    intros H. inversion H. reflexivity.
  - split; [discriminate|]. intros H. inversion H. subst. lia.
  - split; [discriminate|]. intros H. inversion H. subst. lia.
Qed.

Lemma str_compare_opp (a b : str) :
  str_compare b a = CompOpp (str_compare a b).
Proof.
  revert b. induction a as [|x a IH]; intros [|y b]; simpl; try reflexivity.
  rewrite (N.compare_antisym (code x) (code y)).
  destruct (code x ?= code y)%N; simpl; [apply IH|reflexivity|reflexivity].
Qed.

Lemma str_le_refl (a : str) : str_le a a.
Proof.
  unfold str_le, str_leb.
  rewrite (proj2 (str_compare_eq a a) eq_refl). reflexivity.
Qed.

Lemma str_le_total (a b : str) : str_le a b \/ str_le b a.
Proof.
  unfold str_le, str_leb. rewrite (str_compare_opp a b).
  destruct (str_compare a b); simpl; auto.
Qed.

Lemma str_le_antisym (a b : str) : str_le a b -> str_le b a -> a = b.
Proof.
  unfold str_le, str_leb. rewrite (str_compare_opp a b).
  destruct (str_compare a b) eqn:E; simpl; try discriminate.
  intros _ _. apply str_compare_eq. exact E.
Qed.

Lemma str_le_trans (a b c : str) : str_le a b -> str_le b c -> str_le a c.
Proof.
  unfold str_le, str_leb. revert b c.
  induction a as [|x a IH]; intros [|y b] [|z c]; simpl; try reflexivity;
    try discriminate.
  destruct (N.compare_spec (code x) (code y)) as [E1|E1|E1];
    destruct (N.compare_spec (code y) (code z)) as [E2|E2|E2];
    try discriminate; intros H1 H2.
  - rewrite E1, E2, N.compare_refl. apply (IH b c H1 H2).
  - rewrite E1. rewrite (proj2 (N.compare_lt_iff _ _) E2). reflexivity.
  - rewrite <- E2. rewrite (proj2 (N.compare_lt_iff _ _) E1). reflexivity.
  - rewrite (proj2 (N.compare_lt_iff _ _) (N.lt_trans _ _ _ E1 E2)).
    reflexivity.
Qed.

Lemma insert_sorted_perm (x : str) (l : list str) :
  Permutation (x :: l) (insert_sorted x l).
Proof.
  induction l as [|y l IH]; simpl; [apply Permutation_refl|].
  destruct (str_leb x y); [apply Permutation_refl|].
  apply (perm_trans (perm_swap y x l)). apply perm_skip. exact IH.
Qed.

Lemma sorted_perm (l : list str) : Permutation l (sorted l).
Proof.
  unfold sorted. induction l as [|x l IH]; simpl; [constructor|].
  apply (perm_trans (perm_skip x IH)). apply insert_sorted_perm.
Qed.

Lemma insert_sorted_strongly (x : str) (l : list str) :
  StronglySorted str_le l -> StronglySorted str_le (insert_sorted x l).
Proof.
  induction 1 as [|y l Hs IH Hy]; simpl.
  - constructor; constructor.
  - destruct (str_leb x y) eqn:E.
    + constructor; [constructor; assumption|].
      constructor; [exact E|].
      apply Forall_forall. intros z Hz. rewrite Forall_forall in Hy.
      apply (str_le_trans x y z E (Hy z Hz)).
    + constructor; [exact IH|].
      apply Forall_forall. intros z Hz.
      apply (Permutation_in z (Permutation_sym (insert_sorted_perm x l))) in Hz.
      destruct Hz as [Hz|Hz].
      * subst z. destruct (str_le_total x y) as [H|H]; [|exact H].
        unfold str_le in H. rewrite H in E. discriminate E.
      * rewrite Forall_forall in Hy. apply Hy. exact Hz.
Qed.

Lemma sorted_strongly (l : list str) : StronglySorted str_le (sorted l).
Proof.
  unfold sorted. induction l as [|x l IH]; simpl; [constructor|].
  apply insert_sorted_strongly. exact IH.
Qed.

(** Two sorted lists with the same elements are the same list. *)
Lemma strongly_sorted_unique (l1 l2 : list str) :
  StronglySorted str_le l1 -> StronglySorted str_le l2 ->
  Permutation l1 l2 -> l1 = l2.
Proof.
  intros H1. revert l2. induction H1 as [|a l1 Hs1 IH Ha]; intros l2 H2 Hp.
  - apply Permutation_nil in Hp. subst l2. reflexivity.
  - destruct l2 as [|b l2].
    + apply Permutation_sym, Permutation_nil in Hp. discriminate Hp.
    + apply StronglySorted_inv in H2. destruct H2 as [Hs2 Hb].
      rewrite Forall_forall in Ha, Hb.
      assert (Eab : a = b).
      { assert (Hb_in : In b (a :: l1)).
        { apply (Permutation_in b (Permutation_sym Hp)). left. reflexivity. }
        assert (Ha_in : In a (b :: l2)).
        { apply (Permutation_in a Hp). left. reflexivity. }
        destruct Hb_in as [E|Hb_in]; [exact E|].
        destruct Ha_in as [E|Ha_in]; [symmetry; exact E|].
        apply str_le_antisym; [apply Ha; exact Hb_in|apply Hb; exact Ha_in]. }
      subst b. f_equal. apply IH; [exact Hs2|].
      apply (Permutation_cons_inv Hp).
Qed.

Lemma sorted_permutation_eq (l1 l2 : list str) :
  Permutation l1 l2 -> sorted l1 = sorted l2.
Proof.
  intros Hp. apply strongly_sorted_unique; try apply sorted_strongly.
  apply (perm_trans (Permutation_sym (sorted_perm l1))).
  apply (perm_trans Hp). apply sorted_perm.
Qed.

Lemma filter_permutation (f : str -> bool) (l1 l2 : list str) :
  Permutation l1 l2 -> Permutation (filter f l1) (filter f l2).
Proof.
  induction 1 as [|x l1 l2 _ IH|x y l|l1 l2 l3 _ IH1 _ IH2]; simpl.
  - constructor.
  - destruct (f x); [apply perm_skip|]; exact IH.
  - destruct (f x), (f y); try apply Permutation_refl. apply perm_swap.
  - apply (perm_trans IH1 IH2).
Qed.

Lemma mem_permutation (x : str) (l1 l2 : list str) :
  Permutation l1 l2 -> mem x l1 = mem x l2.
Proof.
  intros Hp. destruct (mem x l1) eqn:E1, (mem x l2) eqn:E2; try reflexivity.
  - apply mem_in in E1. apply (Permutation_in x Hp) in E1.
    apply mem_in in E1. rewrite E1 in E2. discriminate E2.
  - apply mem_in in E2. apply (Permutation_in x (Permutation_sym Hp)) in E2.
    apply mem_in in E2. rewrite E2 in E1. discriminate E1.
Qed.

(** The head of [sorted l] is the first element of [l]. *)
Lemma sorted_head_first (l : list str) (r : str) (rest : list str) :
  sorted l = r :: rest -> is_first r l.
Proof.
  intros E. assert (Hs := sorted_strongly l). rewrite E in Hs.
  apply StronglySorted_inv in Hs. destruct Hs as [_ Hr].
  rewrite Forall_forall in Hr.
  assert (Hp := sorted_perm l). rewrite E in Hp. split.
  - apply (Permutation_in r (Permutation_sym Hp)). left. reflexivity.
  - intros x Hx. apply (Permutation_in x Hp) in Hx. destruct Hx as [Hx|Hx].
    + subst x. apply str_le_refl.
    + apply Hr. exact Hx.
Qed.

Lemma sorted_length (l : list str) : length (sorted l) = length l.
Proof. symmetry. apply Permutation_length. apply sorted_perm. Qed.

Lemma sorted_nil (l : list str) : sorted l = [] -> l = [].
Proof.
  intros E. apply length_zero_iff_nil. rewrite <- sorted_length, E. reflexivity.
Qed.

(** ** Asset resolver *)

Lemma dir_eqb_refl (d : list str) : dir_eqb d d = true.
Proof.
  unfold dir_eqb. destruct (list_eq_dec (list_eq_dec ascii_dec) d d);
    [reflexivity|contradiction].
Qed.

Lemma mem_false (x : str) (l : list str) : ~ In x l -> mem x l = false.
Proof.
  intros H. destruct (mem x l) eqn:E; [|reflexivity].
  apply mem_in in E. contradiction.
Qed.

Lemma length_not_one (l : list str) :
  length l <> 1 -> (length (sorted l) =? 1) = false.
Proof. intros H. apply Nat.eqb_neq. rewrite sorted_length. exact H. Qed.

(** C7, as the code has it. The result does not depend on the order in
    which the set of directory names is listed. For a file of the source
    directory whose stem is no directory name: a single prefix match is
    returned; else a single normalized match is returned, also when there
    are several prefix matches; else the first prefix match in the order of
    [str], when there is one; else the first normalized match; else
    nothing. *)
Theorem resolve_asset_dir_name_deterministic
  (p : path) (source_dir : list str) (dirs dirs' : list str) :
  Permutation dirs dirs' ->
  resolve_asset_dir_name p source_dir dirs
  = resolve_asset_dir_name p source_dir dirs'
  /\ (parent p = source_dir -> ~ In (path_stem p) dirs ->
      let P := prefix_candidates (path_stem p) dirs in
      let N := normalized_candidates (path_stem p) dirs in
      let result := resolve_asset_dir_name p source_dir dirs in
      (forall r, P = [r] -> result = Some r)
      /\ (forall r, length P <> 1 -> N = [r] -> result = Some r)
      /\ (length P <> 1 -> length N <> 1 -> P <> [] ->
          exists r, result = Some r /\ is_first r P)
      /\ (P = [] -> length N <> 1 -> N <> [] ->
          exists r, result = Some r /\ is_first r N)
      /\ (P = [] -> N = [] -> result = None)).
Proof.
  intros Hp. split.
  - unfold resolve_asset_dir_name.
    rewrite (mem_permutation (path_stem p) dirs dirs' Hp).
    rewrite (sorted_permutation_eq _ _
               (filter_permutation
                  (fun name => startswith name (path_stem p ++ py "_"))
                  dirs dirs' Hp)).
    rewrite (sorted_permutation_eq _ _
               (filter_permutation
                  (fun name =>
                     str_eqb (normalize_asset_match_key name)
                             (normalize_asset_match_key (path_stem p)))
                  dirs dirs' Hp)).
    reflexivity.
  - intros Hparent Hstem P N result.
    assert (E : result
                = if length (sorted P) =? 1 then hd_error (sorted P)
                  else if length (sorted N) =? 1 then hd_error (sorted N)
                  else match sorted P, sorted N with
                       | first :: _, _ => Some first
                       | [], first :: _ => Some first
                       | [], [] => None
                       end).
    { unfold result, resolve_asset_dir_name.
      rewrite Hparent, dir_eqb_refl. simpl negb. cbv iota.
      rewrite (mem_false _ _ Hstem). reflexivity. }
    rewrite E. clear E. repeat split.
    + intros r HP. rewrite HP. reflexivity.
    + intros r HP HN. rewrite (length_not_one P HP), HN. reflexivity.
    + intros HP HN Hne. rewrite (length_not_one P HP), (length_not_one N HN).
      destruct (sorted P) as [|r rest] eqn:Es.
      * exfalso. apply Hne. apply sorted_nil. exact Es.
      * exists r. split; [reflexivity|]. apply (sorted_head_first P r rest Es).
    + intros HP HN Hne. rewrite (length_not_one N HN). rewrite HP. simpl.
      destruct (sorted N) as [|r rest] eqn:Es.
      * exfalso. apply Hne. apply sorted_nil. exact Es.
      * exists r. split; [reflexivity|]. apply (sorted_head_first N r rest Es).
    + intros HP HN. rewrite HP, HN. reflexivity.
Qed.

Lemma resolve_asset_dir_name_deterministic_witness :
  resolve_asset_dir_name (mk_path [py "_posts"] (py "trip.md")) [py "_posts"]
                         [py "trip_b"; py "Trip"; py "trip_a"]
  = resolve_asset_dir_name (mk_path [py "_posts"] (py "trip.md")) [py "_posts"]
                           [py "trip_a"; py "trip_b"; py "Trip"].
Proof.
  assert (Hp : Permutation [py "trip_b"; py "Trip"; py "trip_a"]
                           [py "trip_a"; py "trip_b"; py "Trip"]).
  { apply (perm_trans (perm_skip (py "trip_b")
                                 (perm_swap (py "trip_a") (py "Trip") []))).
    apply perm_swap. }
  exact (proj1 (resolve_asset_dir_name_deterministic
                  (mk_path [py "_posts"] (py "trip.md")) [py "_posts"]
                  [py "trip_b"; py "Trip"; py "trip_a"]
                  [py "trip_a"; py "trip_b"; py "Trip"] Hp)).
Defined.

(** C7, as stated, fails: with two prefix matches and one normalized
    match, the normalized match is returned, not the first prefix match. *)
Lemma resolve_prefers_single_normalized_match :
  prefix_candidates (py "my-post") [py "my-post_2"; py "my-post_1"; py "MyPost"]
  = [py "my-post_2"; py "my-post_1"]
  /\ is_first (py "my-post_1")
       (prefix_candidates (py "my-post")
                          [py "my-post_2"; py "my-post_1"; py "MyPost"])
  /\ resolve_asset_dir_name (mk_path [py "_posts"] (py "my-post.md"))
                            [py "_posts"]
                            [py "my-post_2"; py "my-post_1"; py "MyPost"]
     = Some (py "MyPost")
  /\ Some (py "MyPost") <> Some (py "my-post_1").
Proof.
  split; [reflexivity|]. split.
  - split; [right; left; reflexivity|].
    intros x [<-|[<-|[]]]; reflexivity.
  - split; [reflexivity|discriminate].
Qed.

(** ** Link rewriter *)

(** C4, as the code has it. A URL whose path, once backslashes are
    slashes and the leading [./] are removed, starts with [../] is not
    rewritten: [rewrite_relative_asset_url] returns nothing, and the
    callbacks of [rewrite_image_links] give back the matched text and leave
    the counter as it is. *)
Theorem leading_parent_path_not_rewritten
  (url asset_dir asset_url_prefix : str) (m : list str) (changed : Z) :
  startswith (normalized_url_path url) (py "../") = true ->
  rewrite_relative_asset_url url asset_dir asset_url_prefix = None
  /\ (fst (fst (split_markdown_target (group m 2))) = url ->
      replace_markdown asset_dir asset_url_prefix m changed
      = (group m 0, changed))
  /\ (group m 3 = url ->
      replace_html asset_dir asset_url_prefix m changed = (group m 0, changed)).
Proof.
  intros H.
  assert (E : rewrite_relative_asset_url url asset_dir asset_url_prefix = None).
  { unfold rewrite_relative_asset_url. unfold normalized_url_path in H.
    destruct (is_relative_url url); [|reflexivity]. simpl negb. cbv iota.
    destruct (split_url_and_suffix (strip url)) as [path_part suffix].
    simpl fst in H. rewrite H. reflexivity. }
  split; [exact E|]. split.
  - intros Hm. unfold replace_markdown.
    destruct (split_markdown_target (group m 2)) as [[u tail] wrapped].
    simpl in Hm. subst u. rewrite E.
    destruct (str_empty url); reflexivity.
  - intros Hm. unfold replace_html. rewrite Hm, E. reflexivity.
Qed.

Lemma leading_parent_path_not_rewritten_witness :
  rewrite_relative_asset_url (py "./..\img/a.png?v=1") (py "post")
                             (py "/hexo-assets") = None
  /\ replace_markdown (py "post") (py "/hexo-assets")
       [py "![x](./..\img/a.png?v=1)"; py "![x]("; py "./..\img/a.png?v=1";
        py ")"] 3
     = (py "![x](./..\img/a.png?v=1)", 3%Z).
Proof.
  destruct (leading_parent_path_not_rewritten
              (py "./..\img/a.png?v=1") (py "post") (py "/hexo-assets")
              [py "![x](./..\img/a.png?v=1)"; py "![x](";
               py "./..\img/a.png?v=1"; py ")"] 3 eq_refl)
    as (H1 & H2 & _).
  split; [exact H1|exact (H2 eq_refl)].
Defined.

(** C4, as stated, fails: a relative path that climbs above the current
    directory after a first segment is rewritten, and counted. *)
Lemma inner_parent_path_is_rewritten :
  is_relative_url (py "a/../../b.png") = true
  /\ escapes_current_dir (py "a/../../b.png") = true
  /\ rewrite_relative_asset_url (py "a/../../b.png") (py "post")
                                (py "/hexo-assets")
     = Some (py "/hexo-assets/post/a/../../b.png")
  /\ rewrite_image_links (py "![y](a/../../b.png)") (Some (py "post"))
                         (py "prefix") (py "/hexo-assets")
     = (py "![y](/hexo-assets/post/a/../../b.png)", 1%Z).
Proof. repeat split; vm_compute; reflexivity. Qed.

(** ** Slugs and dates *)

Lemma lstrip_by_in (f : ascii -> bool) (s : str) (c : ascii) :
  In c (lstrip_by f s) -> In c s.
Proof.
  induction s as [|a s IH]; simpl; [auto|].
  destruct (f a); [intros H; right; exact (IH H)|auto].
Qed.

Lemma strip_by_in (f : ascii -> bool) (s : str) (c : ascii) :
  In c (strip_by f s) -> In c s.
Proof.
  unfold strip_by, rstrip_by. intros H.
  apply in_rev in H. apply lstrip_by_in in H. apply in_rev in H.
  apply lstrip_by_in in H. exact H.
Qed.

Lemma sub_runs_in (f : ascii -> bool) (rep : str) (b : bool) (s : str)
  (c : ascii) :
  In c (sub_runs f rep b s) -> In c rep \/ (In c s /\ f c = false).
Proof.
  revert b. induction s as [|a s IH]; intros b; simpl; [contradiction|].
  destruct (f a) eqn:Ea.
  - intros H. apply in_app_iff in H. destruct H as [H|H].
    + destruct b; [contradiction|left; exact H].
    + destruct (IH true H) as [H1|[H1 H2]]; [left; exact H1|right; auto].
  - intros [H|H].
    + subst a. right. auto.
    + destruct (IH false H) as [H1|[H1 H2]]; [left; exact H1|right; auto].
Qed.

(** A lower-cased character that the substitutions of [slugify] keep. *)
Lemma kept_char_is_slug_char (c0 : ascii) :
  (is_word (lower_char c0) || is_space (lower_char c0)
   || is_hyphen (lower_char c0)) = true ->
  (is_space (lower_char c0) || (lower_char c0 =? "_")%char) = false ->
  slug_char (lower_char c0) = true.
Proof.
  destruct c0 as [[] [] [] [] [] [] [] []]; vm_compute; intros H1 H2;
    first [reflexivity | discriminate H1 | discriminate H2].
Qed.

Lemma slugify_nonempty (text : str) : slugify text <> [].
Proof.
  unfold slugify, or_else.
  destruct (strip_chars _ _); discriminate.
Qed.

Lemma slugify_chars (text : str) : forallb slug_char (slugify text) = true.
Proof.
  apply forallb_forall. intros c Hc. unfold slugify, or_else in Hc.
  match type of Hc with
  | In c (match ?v with [] => _ | _ :: _ => _ end) =>
      destruct v as [|a v'] eqn:Ev
  end.
  - simpl in Hc.
    destruct Hc as [H|[H|[H|[H|[]]]]]; subst c; reflexivity.
  - rewrite <- Ev in Hc. apply strip_by_in in Hc.
    apply sub_runs_in in Hc.
    destruct Hc as [[H|[]]|[Hc Hh]]; [subst c; reflexivity|].
    apply sub_runs_in in Hc.
    destruct Hc as [[H|[]]|[Hc Hs]]; [subst c; reflexivity|].
    apply filter_In in Hc. destruct Hc as [Hc Hk].
    unfold lower in Hc. apply in_map_iff in Hc.
    destruct Hc as (c0 & E & _). subst c.
    apply kept_char_is_slug_char; assumption.
Qed.

Lemma ensure_timezone_aware (rt : runtime) (d : datetime) :
  aware (ensure_timezone rt d).
Proof.
  unfold aware, ensure_timezone. destruct (tzinfo d) eqn:E; simpl.
  - rewrite E. discriminate.
  - discriminate.
Qed.

(** The slug of a post that [read_post] builds is not empty and is made of
    lower-case ASCII letters, digits, hyphens and letters or digits outside
    ASCII. *)
Lemma read_post_slug (rt : runtime)
  (p : path) (raw : str) (source_dir : list str) (dirs : list str)
  (default_author asset_mode asset_url_prefix math_mode : str)
  (post : HexoPost) (warning : option str) :
  read_post rt p raw source_dir dirs default_author asset_mode
            asset_url_prefix math_mode = Some (post, warning) ->
  slug post <> []
  /\ forallb slug_char (slug post) = true
  /\ (forall c, In c (slug post) -> (code c < 128)%N -> url_safe_char c = true).
Proof.
  intros H. unfold read_post in H.
  destruct (split_front_matter rt raw) as [meta body].
  destruct (parse_date rt (meta_get meta (py "date")) None) as [d|];
    [|discriminate H].
  destruct (parse_date rt (meta_get meta (py "updated")) (Some d)) as [u|];
    [|discriminate H].
  destruct (rewrite_image_links _ _ _ _) as [rewritten n].
  injection H as H _. subst post. simpl.
  split; [apply slugify_nonempty|]. split; [apply slugify_chars|].
  intros c Hc Hlt.
  assert (Hs := slugify_chars
                  (or_else
                     (strip (py_str rt (py_or (meta_get meta (py "slug"))
                                              (VStr (default_post_stem p source_dir)))))
                     (default_post_stem p source_dir))).
  rewrite forallb_forall in Hs. specialize (Hs c Hc).
  unfold slug_char in Hs. apply orb_true_iff in Hs.
  destruct Hs as [Hs|Hs]; [exact Hs|].
  apply andb_true_iff in Hs. destruct Hs as [Hge _].
  apply N.leb_le in Hge. lia.
Qed.

(** Where [parse_date] does not read a text and is not given a datetime,
    its result carries a time zone: a number gives the local time of the
    timestamp, anything else the fallback or the current local time. *)
Lemma parse_date_aware (rt : runtime) (v : value)
  (fallback : option datetime) (d : datetime) :
  aware (now_local rt) ->
  (forall x y, fromtimestamp_local rt x = Some y -> aware y) ->
  (forall f, fallback = Some f -> aware f) ->
  match v with
  | VStr s => strip s = []
  | VDatetime _ => False
  | _ => True
  end ->
  parse_date rt v fallback = Some d -> aware d.
Proof.
  intros Hnow Hts Hfb Hv H.
  assert (Ho : match fallback with
               | Some f => Some f
               | None => Some (now_local rt)
               end = Some d -> aware d).
  { destruct fallback as [f|]; intros E; injection E as <-;
      [exact (Hfb f eq_refl)|exact Hnow]. }
  destruct v as [|b|z|f|s|l|m|dt]; cbn [parse_date] in H;
    try (exact (Ho H)); try (exact (Hts _ _ H)); try contradiction.
  unfold parse_date in H. rewrite Hv in H. exact (Ho H).
Qed.

(** C3 fails on the code. A date written without an offset, as Hexo writes
    it, gives a post whose dates carry no time zone, while a post without a
    date gets the current local time, which carries one; the two dates
    cannot be compared, in either order, so the sort of [collect_posts]
    raises for a directory with these two posts. *)
Theorem read_post_keeps_naive_date :
  exists post undated,
    read_post rt_example example_path example_raw [py "_posts"] []
              (py "admin") (py "prefix") (py "/hexo-assets") (py "keep")
    = Some (post, None)
    /\ date post = mk_datetime 2020 1 1 10 0 0 0 None
    /\ updated post = mk_datetime 2020 1 1 10 0 0 0 None
    /\ ~ post_invariant post
    /\ read_post rt_example undated_path undated_raw [py "_posts"] []
                 (py "admin") (py "prefix") (py "/hexo-assets") (py "keep")
       = Some (undated, None)
    /\ date undated = now_local rt_example
    /\ aware (date undated)
    /\ datetime_lt (date post) (date undated) = None
    /\ datetime_lt (date undated) (date post) = None.
Proof.
  eexists. eexists. split; [vm_compute; reflexivity|].
  split; [reflexivity|]. split; [reflexivity|].
  split; [intros (_ & _ & Hd & _); apply Hd; reflexivity|].
  split; [vm_compute; reflexivity|].
  split; [reflexivity|]. split; [discriminate|].
  split; reflexivity.
Qed.

(** ** Masking and restoring *)

(** C2 fails on the code. The document holds no text of a token, yet
    restoring does not give it back: the inline span that the two lone
    backticks delimit holds the token of the fenced block, and the tokens of
    the fenced blocks are restored first, while that token is still hidden
    in the token of the span. The fenced block is lost, also in the result
    of [normalize_mathjax_underscores]. Restoring the tokens of the spans
    before those of the fenced blocks gives the document back. *)
Theorem mask_then_restore_loses_fenced_block :
  contains backticks_around_fence (py "@@") = false
  /\ contains backticks_around_fence (py "HEXO2TYPECHO") = false
  /\ mask_then_restore backticks_around_fence
     = join [LF] [py "Use ` to quote."; py "@@HEXO2TYPECHO_TOKEN_0@@The ` char."]
  /\ mask_then_restore backticks_around_fence <> backticks_around_fence
  /\ normalize_mathjax_underscores (py "escaped") backticks_around_fence
     = join [LF] [py "Use ` to quote."; py "@@HEXO2TYPECHO_TOKEN_0@@The ` char."]
  /\ (let '(masked, fence_tokens, next_token) :=
        mask_fenced_code_blocks backticks_around_fence 0%Z in
      let '(masked, inline_code_tokens, _) :=
        mask_inline_code_spans masked next_token in
      restore_tokens (restore_tokens masked inline_code_tokens) fence_tokens)
     = backticks_around_fence.
Proof.
  split; [reflexivity|]. split; [reflexivity|].
  split; [vm_compute; reflexivity|].
  split; [vm_compute; discriminate|].
  split; vm_compute; reflexivity.
Qed.

(** ** Masking a text that has one code span *)

Lemma plain_in (s : str) (c : ascii) :
  plain s -> In c s -> is_plain_char c = true.
Proof. unfold plain. rewrite forallb_forall. auto. Qed.

Lemma plain_char_cases (c : ascii) :
  is_plain_char c = true ->
  (c =? "`")%char = false /\ (c =? "~")%char = false
  /\ (c =? "$")%char = false /\ (c =? "\")%char = false
  /\ (c =? "@")%char = false.
Proof.
  unfold is_plain_char. rewrite negb_true_iff, !orb_false_iff. tauto.
Qed.

Lemma plain_cons (c : ascii) (s : str) :
  plain (c :: s) -> is_plain_char c = true /\ plain s.
Proof. unfold plain. simpl. rewrite andb_true_iff. auto. Qed.

Lemma splitlines_aux_concat (n : nat) :
  forall (s cur : str), length s <= n ->
    concat (splitlines_aux true cur s) = rev cur ++ s.
Proof.
  induction n as [|n IH]; intros s cur Hn.
  - destruct s; [|simpl in Hn; lia]. simpl.
    destruct cur; simpl; rewrite ?app_nil_r; reflexivity.
  - destruct s as [|c s']; [simpl; destruct cur; simpl; rewrite ?app_nil_r;
                            reflexivity|].
    simpl in Hn. cbn [splitlines_aux]. destruct (is_linebreak c).
    + destruct s' as [|d s'']; [simpl; rewrite app_nil_r; reflexivity|].
      destruct ((c =? CR)%char && (d =? LF)%char); cbn [concat].
      * rewrite (IH s'' []) by (simpl in Hn; lia).
        rewrite <- app_assoc. reflexivity.
      * rewrite (IH (d :: s'') []) by lia.
        rewrite <- app_assoc. reflexivity.
    + rewrite (IH s' (c :: cur)) by lia. simpl.
      rewrite <- app_assoc. reflexivity.
Qed.

Lemma no_fence_run_suffix (a b : str) :
  no_fence_run (a ++ b) = true -> no_fence_run b = true.
Proof.
  induction a as [|c a IH]; simpl; [auto|].
  rewrite !andb_true_iff. intros [_ H]. apply IH. exact H.
Qed.

Lemma starts_with_backtick_prefix (a b : str) :
  a <> [] -> starts_with_backtick (a ++ b) = starts_with_backtick a.
Proof. destruct a; [contradiction|reflexivity]. Qed.

Lemma no_fence_run_prefix (a b : str) :
  no_fence_run (a ++ b) = true -> no_fence_run a = true.
Proof.
  induction a as [|c a IH]; simpl; [reflexivity|].
  rewrite !andb_true_iff. intros [[H1 H2] H3].
  split; [split; [exact H1|]|apply IH; exact H3].
  destruct a as [|d a]; [|exact H2].
  simpl. rewrite andb_false_r. reflexivity.
Qed.

Lemma lstrip_by_suffix (f : ascii -> bool) (s : str) :
  exists a, s = a ++ lstrip_by f s.
Proof.
  induction s as [|c s [a Ha]]; simpl.
  - exists []. reflexivity.
  - destruct (f c).
    + exists (c :: a). simpl. f_equal. exact Ha.
    + exists []. reflexivity.
Qed.

Lemma fence_open_none (line : str) :
  no_fence_run line = true -> fence_open line = None.
Proof.
  intros H. unfold fence_open.
  destruct (lstrip_by_suffix is_blank line) as [a Ha].
  rewrite Ha in H. apply no_fence_run_suffix in H.
  destruct (lstrip_by is_blank line) as [|c body]; [reflexivity|].
  simpl in H. rewrite !andb_true_iff, !negb_true_iff in H.
  destruct H as [[H1 H2] _].
  unfold is_fence_char. rewrite H1, orb_false_r.
  destruct (c =? "`")%char eqn:Ec; [|reflexivity].
  apply Ascii.eqb_eq in Ec. subst c. simpl in H2. simpl.
  destruct body as [|d body]; [reflexivity|].
  simpl in H2. cbn [span]. rewrite H2. reflexivity.
Qed.

Lemma splitlines_aux_no_fence (n : nat) :
  forall (s cur : str), length s <= n ->
    no_fence_run (rev cur ++ s) = true ->
    Forall (fun line => fence_open line = None) (splitlines_aux true cur s).
Proof.
  induction n as [|n IH]; intros s cur Hn H.
  - destruct s; [|simpl in Hn; lia]. simpl. rewrite app_nil_r in H.
    destruct cur; [constructor|].
    constructor; [apply fence_open_none; exact H|constructor].
  - destruct s as [|c s'].
    + simpl. rewrite app_nil_r in H. destruct cur; [constructor|].
      constructor; [apply fence_open_none; exact H|constructor].
    + simpl in Hn. cbn [splitlines_aux]. destruct (is_linebreak c).
      * destruct s' as [|d s''].
        -- constructor; [apply fence_open_none; exact H|constructor].
        -- destruct ((c =? CR)%char && (d =? LF)%char).
           ++ constructor.
              ** apply fence_open_none.
                 apply (no_fence_run_prefix (rev cur ++ [c; d]) s'').
                 rewrite <- app_assoc. exact H.
              ** apply (IH s'' []); [simpl in Hn; lia|].
                 apply (no_fence_run_suffix (rev cur ++ [c; d])).
                 rewrite <- app_assoc. exact H.
           ++ constructor.
              ** apply fence_open_none.
                 apply (no_fence_run_prefix (rev cur ++ [c]) (d :: s'')).
                 rewrite <- app_assoc. exact H.
              ** apply (IH (d :: s'') []); [lia|].
                 apply (no_fence_run_suffix (rev cur ++ [c])).
                 rewrite <- app_assoc. exact H.
      * apply (IH s' (c :: cur)); [lia|]. simpl. rewrite <- app_assoc. exact H.
Qed.

Lemma mask_fenced_lines_no_fence (lines : list str)
  (tokens : list (str * str)) (k : Z) :
  Forall (fun line => fence_open line = None) lines ->
  mask_fenced_lines lines None tokens k = (concat lines, tokens, k).
Proof.
  induction 1 as [|line lines Hl _ IH]; simpl; [reflexivity|].
  rewrite Hl, IH. reflexivity.
Qed.

(** A text in which no line opens a fence is its own masked text. *)
Lemma mask_fenced_no_fence (text : str) (k : Z) :
  no_fence_run text = true ->
  mask_fenced_code_blocks text k = (text, [], k).
Proof.
  intros H. unfold mask_fenced_code_blocks, splitlines.
  rewrite (mask_fenced_lines_no_fence _ [] k
             (splitlines_aux_no_fence (length text) text [] (Nat.le_refl _) H)).
  rewrite (splitlines_aux_concat (length text) text [] (Nat.le_refl _)).
  reflexivity.
Qed.

Lemma no_fence_run_plain (p s : str) :
  plain p -> no_fence_run (p ++ s) = no_fence_run s.
Proof.
  induction p as [|c p IH]; intros Hp; simpl; [reflexivity|].
  apply plain_cons in Hp. destruct Hp as [Hc Hp].
  destruct (plain_char_cases c Hc) as (H1 & H2 & _).
  rewrite H1, H2. simpl. apply IH. exact Hp.
Qed.

Lemma plain_no_fence_run (p : str) : plain p -> no_fence_run p = true.
Proof.
  intros Hp. rewrite <- (app_nil_r p), no_fence_run_plain by exact Hp.
  reflexivity.
Qed.

Lemma starts_with_backtick_plain (p s : str) :
  plain p -> p <> [] -> starts_with_backtick (p ++ s) = false.
Proof.
  destruct p as [|c p]; [contradiction|]. intros Hp _.
  apply plain_cons in Hp. destruct Hp as [Hc _].
  destruct (plain_char_cases c Hc) as (H1 & _). exact H1.
Qed.

(** The loop of [mask_inline_code_spans] copies a text without backtick. *)
Lemma mask_inline_skip (p rest : str) (tokens : list (str * str)) (k : Z) :
  (forall c, In c p -> (c =? "`")%char = false) ->
  mask_inline_from 0 (p ++ rest) tokens k
  = let '(out, tokens1, k1) := mask_inline_from 0 rest tokens k in
    (p ++ out, tokens1, k1).
Proof.
  induction p as [|c p IH]; intros Hp.
  - simpl. destruct (mask_inline_from 0 rest tokens k) as [[o t] n]. reflexivity.
  - cbn [app mask_inline_from]. rewrite (Hp c (or_introl eq_refl)).
    cbn [negb]. rewrite IH by (intros d Hd; apply Hp; right; exact Hd).
    destruct (mask_inline_from 0 rest tokens k) as [[o t] n]. reflexivity.
Qed.

Lemma mask_inline_skip_end (p : str) (tokens : list (str * str)) (k : Z) :
  (forall c, In c p -> (c =? "`")%char = false) ->
  mask_inline_from 0 p tokens k = (p, tokens, k).
Proof.
  intros Hp. rewrite <- (app_nil_r p) at 1.
  rewrite (mask_inline_skip p [] tokens k Hp). simpl.
  rewrite app_nil_r. reflexivity.
Qed.

(** A substitution passes over a text in which the pattern cannot start. *)
Lemma re_sub_skip {St : Type}
  (matcher : option ascii -> str -> option (list str))
  (repl : list str -> St -> str * St) (p rest : str)
  (prev : option ascii) (st : St) :
  Forall (dead matcher) p ->
  re_sub_from matcher repl 0 prev (p ++ rest) st
  = let '(out, st1) :=
      re_sub_from matcher repl 0 (prev_after prev p) rest st in
    (p ++ out, st1).
Proof.
  intros Hp. revert prev. induction Hp as [|c p Hc _ IH]; intros prev.
  - simpl. destruct (re_sub_from matcher repl 0 prev rest st). reflexivity.
  - simpl. rewrite (Hc prev (p ++ rest)). rewrite IH.
    unfold prev_after. simpl.
    destruct (re_sub_from matcher repl 0 _ rest st). reflexivity.
Qed.

Lemma re_sub_skip_end {St : Type}
  (matcher : option ascii -> str -> option (list str))
  (repl : list str -> St -> str * St) (p : str)
  (prev : option ascii) (st : St) :
  Forall (dead matcher) p ->
  re_sub_from matcher repl 0 prev p st = (p, st).
Proof.
  intros Hp. rewrite <- (app_nil_r p) at 1.
  rewrite (re_sub_skip matcher repl p [] prev st Hp). simpl.
  rewrite app_nil_r. reflexivity.
Qed.

Lemma startswith_other_head (c d : ascii) (tail p : str) :
  (c =? d)%char = false -> startswith (c :: tail) (d :: p) = false.
Proof.
  intros H. cbn [startswith]. rewrite Ascii.eqb_sym, H. reflexivity.
Qed.

Lemma delimited_other_head (dot guard : ascii -> bool) (c d : ascii)
  (tail op cl : str) :
  (c =? d)%char = false ->
  delimited dot (d :: op) cl guard (c :: tail) = None.
Proof.
  intros H. unfold delimited.
  rewrite (startswith_other_head c d tail op H). reflexivity.
Qed.

Lemma dead_display (c : ascii) :
  (c =? "$")%char = false -> dead DISPLAY_DOLLAR_RE c.
Proof.
  intros H prev tail. unfold DISPLAY_DOLLAR_RE.
  change (py "$$") with ("$"%char :: py "$").
  rewrite (delimited_other_head _ _ c "$" tail _ _ H).
  destruct (not_backslash prev); reflexivity.
Qed.

Lemma dead_inline (c : ascii) :
  (c =? "$")%char = false -> dead INLINE_DOLLAR_RE c.
Proof.
  intros H prev tail. unfold INLINE_DOLLAR_RE.
  change (py "$") with ("$"%char :: []).
  rewrite (delimited_other_head _ _ c "$" tail _ _ H).
  destruct (not_backslash prev && _); reflexivity.
Qed.

Lemma dead_bracket (c : ascii) :
  (c =? "\")%char = false -> dead BRACKET_MATH_RE c.
Proof.
  intros H prev tail. unfold BRACKET_MATH_RE.
  change (py "\[") with ("\"%char :: py "[").
  apply (delimited_other_head _ _ c "\" tail _ _ H).
Qed.

Lemma dead_paren (c : ascii) :
  (c =? "\")%char = false -> dead PAREN_MATH_RE c.
Proof.
  intros H prev tail. unfold PAREN_MATH_RE.
  change (py "\(") with ("\"%char :: py "(").
  apply (delimited_other_head _ _ c "\" tail _ _ H).
Qed.

Lemma plain_dead (matcher : option ascii -> str -> option (list str))
  (p : str) :
  (forall c, is_plain_char c = true -> dead matcher c) ->
  plain p -> Forall (dead matcher) p.
Proof.
  intros Hd Hp. apply Forall_forall. intros c Hc.
  apply Hd. exact (plain_in p c Hp Hc).
Qed.

Lemma plain_dead_display (c : ascii) :
  is_plain_char c = true -> dead DISPLAY_DOLLAR_RE c.
Proof. intros H. apply dead_display. apply (plain_char_cases c H). Qed.

Lemma plain_dead_inline (c : ascii) :
  is_plain_char c = true -> dead INLINE_DOLLAR_RE c.
Proof. intros H. apply dead_inline. apply (plain_char_cases c H). Qed.

Lemma plain_dead_bracket (c : ascii) :
  is_plain_char c = true -> dead BRACKET_MATH_RE c.
Proof. intros H. apply dead_bracket. apply (plain_char_cases c H). Qed.

Lemma plain_dead_paren (c : ascii) :
  is_plain_char c = true -> dead PAREN_MATH_RE c.
Proof. intros H. apply dead_paren. apply (plain_char_cases c H). Qed.

(** The character before the end of a text without backslash is no
    backslash. *)
Lemma prev_after_not_backslash (prev : option ascii) (p : str) :
  not_backslash prev = true ->
  (forall c, In c p -> (c =? "\")%char = false) ->
  not_backslash (prev_after prev p) = true.
Proof.
  unfold prev_after. revert prev. induction p as [|c p IH]; intros prev H Hp.
  - exact H.
  - simpl. apply IH.
    + simpl. rewrite (Hp c (or_introl eq_refl)). reflexivity.
    + intros d Hd. apply Hp. right. exact Hd.
Qed.

(** [replace] passes over a text that holds no first character of the
    text to replace. *)
Lemma replace_from_skip (old new p rest : str) (c0 : ascii) :
  (forall c, In c p -> (c =? c0)%char = false) ->
  replace_from (c0 :: old) new 0 (p ++ rest)
  = p ++ replace_from (c0 :: old) new 0 rest.
Proof.
  induction p as [|c p IH]; intros Hp; [reflexivity|].
  cbn [app replace_from].
  rewrite (startswith_other_head c c0 (p ++ rest) old (Hp c (or_introl eq_refl))).
  f_equal. apply IH. intros d Hd. apply Hp. right. exact Hd.
Qed.

Lemma replace_from_skip_end (old new p : str) (c0 : ascii) :
  (forall c, In c p -> (c =? c0)%char = false) ->
  replace_from (c0 :: old) new 0 p = p.
Proof.
  intros Hp. rewrite <- (app_nil_r p) at 1.
  rewrite (replace_from_skip old new p [] c0 Hp). simpl. apply app_nil_r.
Qed.

Lemma startswith_nil (s : str) : startswith s [] = true.
Proof. destruct s; reflexivity. Qed.

Lemma startswith_app (p tail : str) : startswith (p ++ tail) p = true.
Proof.
  induction p as [|c p IH]; [apply startswith_nil|].
  cbn [app startswith]. rewrite Ascii.eqb_refl. exact IH.
Qed.

Lemma replace_from_skipn (old new q rest : str) :
  replace_from old new (length q) (q ++ rest) = replace_from old new 0 rest.
Proof. induction q as [|c q IH]; [reflexivity|exact IH]. Qed.

(** [replace] at an occurrence. *)
Lemma replace_from_at (c : ascii) (old new tail : str) :
  replace_from (c :: old) new 0 ((c :: old) ++ tail)
  = new ++ replace_from (c :: old) new 0 tail.
Proof.
  cbn [app replace_from].
  change (c :: old ++ tail) with ((c :: old) ++ tail).
  rewrite startswith_app.
  replace (length (c :: old) - 1) with (length old) by (simpl; lia).
  rewrite replace_from_skipn. reflexivity.
Qed.

Lemma find_from_skip (p rest : str) (pos : nat) :
  (forall c, In c p -> (c =? "`")%char = false) ->
  find_from ["`"%char] pos (p ++ "`"%char :: rest) = Some (pos + length p).
Proof.
  revert pos. induction p as [|c p IH]; intros pos Hp.
  - cbn [app find_from startswith]. rewrite Ascii.eqb_refl.
    simpl. f_equal. lia.
  - cbn [app find_from].
    rewrite (startswith_other_head c "`" _ [] (Hp c (or_introl eq_refl))).
    rewrite IH by (intros d Hd; apply Hp; right; exact Hd).
    simpl. f_equal. lia.
Qed.

Lemma mask_inline_skipn (q rest : str) (tokens : list (str * str)) (k : Z) :
  mask_inline_from (length q) (q ++ rest) tokens k
  = mask_inline_from 0 rest tokens k.
Proof. induction q as [|c q IH]; [reflexivity|exact IH]. Qed.

(** The loop of [mask_inline_code_spans] at a span between two single
    backticks. *)
Lemma mask_inline_span (c0 : ascii) (inner rest : str)
  (tokens : list (str * str)) (k : Z) :
  (forall c, In c (c0 :: inner) -> (c =? "`")%char = false) ->
  mask_inline_from 0 ("`"%char :: (c0 :: inner) ++ "`"%char :: rest) tokens k
  = let '(out, tokens1, k1) :=
      mask_inline_from 0 rest
        (dict_set str_eqb tokens (make_token k)
                  ("`"%char :: (c0 :: inner) ++ ["`"%char]))
        (k + 1)%Z in
    (make_token k ++ out, tokens1, k1).
Proof.
  intros Hp.
  assert (Hc0 : (c0 =? "`")%char = false) by (apply Hp; left; reflexivity).
  assert (Hspan : span (fun d => (d =? "`")%char)
                       ("`"%char :: (c0 :: inner) ++ "`"%char :: rest)
                  = (["`"%char], (c0 :: inner) ++ "`"%char :: rest)).
  { cbn [span app]. rewrite Ascii.eqb_refl, Hc0. reflexivity. }
  set (body := c0 :: inner) in *.
  cbn [mask_inline_from]. rewrite Ascii.eqb_refl. cbn [negb].
  rewrite Hspan. unfold find. rewrite (find_from_skip body rest 0 Hp).
  replace (length ["`"%char] + (0 + length body) + length ["`"%char] - 1)
    with (length (body ++ ["`"%char]))
    by (rewrite length_app; simpl; lia).
  replace (body ++ "`"%char :: rest) with ((body ++ ["`"%char]) ++ rest)
    by (rewrite <- app_assoc; reflexivity).
  rewrite mask_inline_skipn.
  replace (firstn (length ["`"%char] + (0 + length body) + length ["`"%char])
                  ("`"%char :: (body ++ ["`"%char]) ++ rest))
    with ("`"%char :: body ++ ["`"%char]); [reflexivity|].
  change ("`"%char :: (body ++ ["`"%char]) ++ rest)
    with (("`"%char :: body ++ ["`"%char]) ++ rest).
  replace (length ["`"%char] + (0 + length body) + length ["`"%char])
    with (length ("`"%char :: body ++ ["`"%char]) + 0)
    by (simpl; rewrite length_app; simpl; lia).
  rewrite firstn_app_2. simpl. rewrite app_nil_r. reflexivity.
Qed.

Section ReSubSteps.
Context {St : Type}.
Variable matcher : option ascii -> str -> option (list str).
Variable repl : list str -> St -> str * St.

Lemma re_sub_step_none (prev : option ascii) (c : ascii) (s : str) (st : St) :
  matcher prev (c :: s) = None ->
  re_sub_from matcher repl 0 prev (c :: s) st
  = let '(out, st1) := re_sub_from matcher repl 0 (Some c) s st in
    (c :: out, st1).
Proof. intros H. cbn [re_sub_from]. rewrite H. reflexivity. Qed.

Lemma re_sub_step_match (prev : option ascii) (c : ascii) (s : str) (st : St)
  (groups : list str) :
  matcher prev (c :: s) = Some groups ->
  re_sub_from matcher repl 0 prev (c :: s) st
  = let '(r, st1) := repl groups st in
    let '(out, st2) :=
      re_sub_from matcher repl (length (nth 0 groups []) - 1) (Some c) s st1 in
    (r ++ out, st2).
Proof. intros H. cbn [re_sub_from]. rewrite H. reflexivity. Qed.

Lemma re_sub_skipn (q rest : str) (prev : option ascii) (st : St) :
  re_sub_from matcher repl (length q) prev (q ++ rest) st
  = re_sub_from matcher repl 0 (prev_after prev q) rest st.
Proof.
  revert prev. induction q as [|c q IH]; intros prev; [reflexivity|].
  cbn [length app re_sub_from]. rewrite IH. reflexivity.
Qed.
End ReSubSteps.

(** ** Math regions and code spans *)


Lemma display_at_math (prev : option ascii) (rest : str) :
  DISPLAY_DOLLAR_RE prev (py "$x_1$" ++ rest) = None.
Proof.
  unfold DISPLAY_DOLLAR_RE. destruct (not_backslash prev); reflexivity.
Qed.

Lemma display_at_lone_dollar (prev : option ascii) (rest : str) :
  starts_with_dollar rest = false ->
  DISPLAY_DOLLAR_RE prev ("$"%char :: rest) = None.
Proof.
  intros H. unfold DISPLAY_DOLLAR_RE, delimited.
  destruct rest as [|d rest]; [destruct (not_backslash prev); reflexivity|].
  simpl in H. cbn [py String.list_ascii_of_string startswith].
  rewrite Ascii.eqb_refl, (Ascii.eqb_sym "$" d), H.
  destruct (not_backslash prev); reflexivity.
Qed.

Lemma display_math {St : Type} (repl : list str -> St -> str * St)
  (prev : option ascii) (rest : str) (st : St) :
  starts_with_dollar rest = false ->
  re_sub_from DISPLAY_DOLLAR_RE repl 0 prev (py "$x_1$" ++ rest) st
  = let '(out, st1) :=
      re_sub_from DISPLAY_DOLLAR_RE repl 0 (Some "$"%char) rest st in
    (py "$x_1$" ++ out, st1).
Proof.
  intros H.
  change (py "$x_1$" ++ rest) with ("$"%char :: py "x_1" ++ "$"%char :: rest).
  rewrite re_sub_step_none by (apply (display_at_math prev rest)).
  rewrite (re_sub_skip DISPLAY_DOLLAR_RE repl (py "x_1")).
  2:{ repeat constructor; apply dead_display; reflexivity. }
  rewrite re_sub_step_none by (apply display_at_lone_dollar; exact H).
  destruct (re_sub_from DISPLAY_DOLLAR_RE repl 0 (Some "$"%char) rest st).
  reflexivity.
Qed.

Lemma inline_at_math (prev : option ascii) (rest : str) :
  not_backslash prev = true ->
  INLINE_DOLLAR_RE prev (py "$x_1$" ++ rest) = Some [py "$x_1$"; py "x_1"].
Proof.
  intros H. unfold INLINE_DOLLAR_RE. rewrite H. reflexivity.
Qed.

Lemma inline_math (prev : option ascii) (rest : str) :
  not_backslash prev = true ->
  re_sub_from INLINE_DOLLAR_RE (inline_repl (py "escaped")) 0 prev
              (py "$x_1$" ++ rest) tt
  = let '(out, st1) :=
      re_sub_from INLINE_DOLLAR_RE (inline_repl (py "escaped")) 0
                  (Some "$"%char) rest tt in
    (py "$x\_1$" ++ out, st1).
Proof.
  intros H.
  change (py "$x_1$" ++ rest) with ("$"%char :: py "x_1$" ++ rest).
  rewrite (re_sub_step_match _ _ prev "$" (py "x_1$" ++ rest) tt
             [py "$x_1$"; py "x_1"] (inline_at_math prev rest H)).
  change (inline_repl (py "escaped") [py "$x_1$"; py "x_1"] tt)
    with (py "$x\_1$", tt).
  change (length (nth 0 [py "$x_1$"; py "x_1"] []) - 1)
    with (length (py "x_1$")).
  cbv beta iota.
  rewrite re_sub_skipn.
  change (prev_after (Some "$"%char) (py "x_1$")) with (Some "$"%char).
  destruct (re_sub_from INLINE_DOLLAR_RE _ 0 (Some "$"%char) rest tt).
  reflexivity.
Qed.


Lemma starts_with_dollar_plain (p s : str) :
  plain p -> starts_with_dollar s = false -> starts_with_dollar (p ++ s) = false.
Proof.
  destruct p as [|c p]; [auto|]. intros Hp _.
  apply plain_cons in Hp. destruct Hp as [Hc _].
  apply (plain_char_cases c Hc).
Qed.


Lemma starts_with_backtick_plain_app (p s : str) :
  plain p -> starts_with_backtick s = false ->
  starts_with_backtick (p ++ s) = false.
Proof.
  destruct p as [|c p]; [auto|]. intros Hp _.
  apply plain_cons in Hp. destruct Hp as [Hc _].
  apply (plain_char_cases c Hc).
Qed.

Lemma no_fence_code (rest : str) :
  starts_with_backtick rest = false ->
  no_fence_run (py "`$x_1$`" ++ rest) = no_fence_run rest.
Proof.
  intros H.
  cbn [py String.list_ascii_of_string app no_fence_run starts_with_backtick].
  rewrite H. reflexivity.
Qed.

Lemma no_fence_math (rest : str) :
  no_fence_run (py "$x_1$" ++ rest) = no_fence_run rest.
Proof. reflexivity. Qed.

Lemma in_code_not (f : ascii -> bool) (s : str) :
  forallb (fun c => negb (f c)) s = true ->
  forall c, In c s -> f c = false.
Proof.
  intros H c Hc. rewrite forallb_forall in H. specialize (H c Hc).
  apply negb_true_iff. exact H.
Qed.

Lemma plain_not (f : ascii -> bool) (p : str) :
  (forall c, is_plain_char c = true -> f c = false) ->
  plain p -> forall c, In c p -> f c = false.
Proof. intros Hf Hp c Hc. apply Hf. exact (plain_in p c Hp Hc). Qed.

Lemma in_app_not (f : ascii -> bool) (a b : str) :
  (forall c, In c a -> f c = false) -> (forall c, In c b -> f c = false) ->
  forall c, In c (a ++ b) -> f c = false.
Proof.
  intros Ha Hb c Hc. apply in_app_iff in Hc. destruct Hc; auto.
Qed.

Lemma plain_not_backtick (c : ascii) :
  is_plain_char c = true -> (c =? "`")%char = false.
Proof. intros H. apply (plain_char_cases c H). Qed.
Lemma plain_not_dollar (c : ascii) :
  is_plain_char c = true -> (c =? "$")%char = false.
Proof. intros H. apply (plain_char_cases c H). Qed.
Lemma plain_not_backslash (c : ascii) :
  is_plain_char c = true -> (c =? "\")%char = false.
Proof. intros H. apply (plain_char_cases c H). Qed.
Lemma plain_not_at (c : ascii) :
  is_plain_char c = true -> (c =? "@")%char = false.
Proof. intros H. apply (plain_char_cases c H). Qed.

Lemma dead_of_not (matcher : option ascii -> str -> option (list str))
  (f : ascii -> bool) (s : str) :
  (forall c, f c = false -> dead matcher c) ->
  (forall c, In c s -> f c = false) -> Forall (dead matcher) s.
Proof.
  intros Hd Hs. apply Forall_forall. intros c Hc. apply Hd, Hs, Hc.
Qed.

(** The token of index 0 in a text that holds no other at sign. *)
Lemma restore_single (p tail raw : str) :
  (forall c, In c p -> (c =? "@")%char = false) ->
  (forall c, In c tail -> (c =? "@")%char = false) ->
  restore_tokens (p ++ make_token 0 ++ tail) [(make_token 0, raw)]
  = p ++ raw ++ tail.
Proof.
  intros Hp Ht. unfold restore_tokens. cbn [fold_left fst snd].
  change (make_token 0) with ("@"%char :: py "@HEXO2TYPECHO_TOKEN_0@@").
  unfold replace.
  rewrite (replace_from_skip _ raw p _ "@" Hp).
  rewrite replace_from_at.
  rewrite (replace_from_skip_end _ raw tail "@" Ht). reflexivity.
Qed.

(** In a text without other backtick, tilde, dollar sign, backslash or at
    sign, a code span before an inline math region is left as it is and the
    region gets its underscore escaped. *)
Lemma code_span_before_math (pre mid post : str) :
  plain pre -> plain mid -> plain post ->
  normalize_mathjax_underscores (py "escaped")
    (pre ++ py "`$x_1$`" ++ mid ++ py "$x_1$" ++ post)
  = pre ++ py "`$x_1$`" ++ mid ++ py "$x\_1$" ++ post.
Proof.
  intros Hpre Hmid Hpost.
  assert (Hbt : forall p, plain p -> forall c, In c p -> (c =? "`")%char = false)
    by (intros p Hp; apply (plain_not _ p plain_not_backtick Hp)).
  assert (Hdl : forall p, plain p -> forall c, In c p -> (c =? "$")%char = false)
    by (intros p Hp; apply (plain_not _ p plain_not_dollar Hp)).
  assert (Hbs : forall p, plain p -> forall c, In c p -> (c =? "\")%char = false)
    by (intros p Hp; apply (plain_not _ p plain_not_backslash Hp)).
  assert (Hat : forall p, plain p -> forall c, In c p -> (c =? "@")%char = false)
    by (intros p Hp; apply (plain_not _ p plain_not_at Hp)).
  assert (Hpost_d : starts_with_dollar post = false).
  { rewrite <- (app_nil_r post). apply starts_with_dollar_plain;
      [exact Hpost|reflexivity]. }
  unfold normalize_mathjax_underscores.
  change (str_eqb (py "escaped") (py "keep")) with false. cbn [orb].
  assert (Hne : str_empty (pre ++ py "`$x_1$`" ++ mid ++ py "$x_1$" ++ post)
                = false) by (destruct pre; reflexivity).
  rewrite Hne.
  (* fenced blocks: none *)
  rewrite mask_fenced_no_fence.
  2:{ rewrite (no_fence_run_plain pre _ Hpre), no_fence_code.
      - rewrite (no_fence_run_plain mid _ Hmid), no_fence_math.
        apply plain_no_fence_run. exact Hpost.
      - apply starts_with_backtick_plain_app; [exact Hmid|reflexivity]. }
  (* inline spans: one *)
  unfold mask_inline_code_spans.
  rewrite (mask_inline_skip pre _ [] 0 (Hbt pre Hpre)).
  change (py "`$x_1$`" ++ mid ++ py "$x_1$" ++ post)
    with ("`"%char :: ("$"%char :: py "x_1$") ++ "`"%char
                   :: (mid ++ py "$x_1$" ++ post)).
  rewrite (mask_inline_span "$" (py "x_1$") _ [] 0)
    by (apply in_code_not; reflexivity).
  rewrite mask_inline_skip_end.
  2:{ apply in_app_not; [exact (Hbt mid Hmid)|].
      apply in_app_not; [apply in_code_not; reflexivity|exact (Hbt post Hpost)]. }
  cbv beta iota.
  change (dict_set str_eqb [] (make_token 0)
            ("`"%char :: ("$"%char :: py "x_1$") ++ ["`"%char]))
    with [(make_token 0, py "`$x_1$`")].
  change (dict_update str_eqb [] [(make_token 0, py "`$x_1$`")])
    with [(make_token 0, py "`$x_1$`")].
  change (0 + 1)%Z with 1%Z.
  (* display math: none *)
  unfold protect_math, re_sub.
  replace (pre ++ make_token 0 ++ mid ++ py "$x_1$" ++ post)
    with ((pre ++ make_token 0 ++ mid) ++ py "$x_1$" ++ post)
    by (rewrite <- !app_assoc; reflexivity).
  assert (Hd1 : forall c, In c (pre ++ make_token 0 ++ mid) ->
                          (c =? "$")%char = false).
  { apply in_app_not; [exact (Hdl pre Hpre)|].
    apply in_app_not; [apply in_code_not; reflexivity|exact (Hdl mid Hmid)]. }
  assert (Hb1 : forall c, In c (pre ++ make_token 0 ++ mid) ->
                          (c =? "\")%char = false).
  { apply in_app_not; [exact (Hbs pre Hpre)|].
    apply in_app_not; [apply in_code_not; reflexivity|exact (Hbs mid Hmid)]. }
  rewrite (re_sub_skip DISPLAY_DOLLAR_RE _ (pre ++ make_token 0 ++ mid))
    by (apply (dead_of_not _ _ _ dead_display Hd1)).
  rewrite (display_math _ _ post _ Hpost_d).
  rewrite (re_sub_skip_end DISPLAY_DOLLAR_RE _ post)
    by (apply (dead_of_not _ _ _ dead_display (Hdl post Hpost))).
  cbv beta iota.
  (* bracket and paren math: none *)
  assert (Hb2 : forall c,
             In c ((pre ++ make_token 0 ++ mid) ++ py "$x_1$" ++ post) ->
             (c =? "\")%char = false).
  { apply in_app_not; [exact Hb1|].
    apply in_app_not; [apply in_code_not; reflexivity|exact (Hbs post Hpost)]. }
  rewrite (re_sub_skip_end BRACKET_MATH_RE _ _ None _
             (dead_of_not _ _ _ dead_bracket Hb2)).
  cbv beta iota.
  rewrite (re_sub_skip_end PAREN_MATH_RE _ _ None _
             (dead_of_not _ _ _ dead_paren Hb2)).
  cbv beta iota. cbn [snd].
  (* inline math *)
  rewrite (re_sub_skip INLINE_DOLLAR_RE _ (pre ++ make_token 0 ++ mid))
    by (apply (dead_of_not _ _ _ dead_inline Hd1)).
  rewrite inline_math
    by (apply prev_after_not_backslash; [reflexivity|exact Hb1]).
  rewrite (re_sub_skip_end INLINE_DOLLAR_RE _ post)
    by (apply (dead_of_not _ _ _ dead_inline (Hdl post Hpost))).
  cbv beta iota. cbn [fst].
  (* restoring *)
  change (restore_tokens ((pre ++ make_token 0 ++ mid) ++ py "$x\_1$" ++ post) [])
    with ((pre ++ make_token 0 ++ mid) ++ py "$x\_1$" ++ post).
  replace ((pre ++ make_token 0 ++ mid) ++ py "$x\_1$" ++ post)
    with (pre ++ make_token 0 ++ (mid ++ py "$x\_1$" ++ post))
    by (rewrite <- !app_assoc; reflexivity).
  apply restore_single; [exact (Hat pre Hpre)|].
  apply in_app_not; [exact (Hat mid Hmid)|].
  apply in_app_not; [apply in_code_not; reflexivity|exact (Hat post Hpost)].
Qed.

(** The same with the math region before the code span. *)
Lemma math_before_code_span (pre mid post : str) :
  plain pre -> plain mid -> plain post ->
  normalize_mathjax_underscores (py "escaped")
    (pre ++ py "$x_1$" ++ mid ++ py "`$x_1$`" ++ post)
  = pre ++ py "$x\_1$" ++ mid ++ py "`$x_1$`" ++ post.
Proof.
  intros Hpre Hmid Hpost.
  assert (Hbt : forall p, plain p -> forall c, In c p -> (c =? "`")%char = false)
    by (intros p Hp; apply (plain_not _ p plain_not_backtick Hp)).
  assert (Hdl : forall p, plain p -> forall c, In c p -> (c =? "$")%char = false)
    by (intros p Hp; apply (plain_not _ p plain_not_dollar Hp)).
  assert (Hbs : forall p, plain p -> forall c, In c p -> (c =? "\")%char = false)
    by (intros p Hp; apply (plain_not _ p plain_not_backslash Hp)).
  assert (Hat : forall p, plain p -> forall c, In c p -> (c =? "@")%char = false)
    by (intros p Hp; apply (plain_not _ p plain_not_at Hp)).
  assert (Hpost_b : starts_with_backtick post = false).
  { rewrite <- (app_nil_r post). apply starts_with_backtick_plain_app;
      [exact Hpost|reflexivity]. }
  assert (Hrest_d : starts_with_dollar (mid ++ make_token 0 ++ post) = false).
  { apply starts_with_dollar_plain; [exact Hmid|reflexivity]. }
  unfold normalize_mathjax_underscores.
  change (str_eqb (py "escaped") (py "keep")) with false. cbn [orb].
  assert (Hne : str_empty (pre ++ py "$x_1$" ++ mid ++ py "`$x_1$`" ++ post)
                = false) by (destruct pre; reflexivity).
  rewrite Hne.
  (* fenced blocks: none *)
  rewrite mask_fenced_no_fence.
  2:{ rewrite (no_fence_run_plain pre _ Hpre), no_fence_math.
      rewrite (no_fence_run_plain mid _ Hmid), no_fence_code by exact Hpost_b.
      apply plain_no_fence_run. exact Hpost. }
  (* inline spans: one *)
  unfold mask_inline_code_spans.
  replace (pre ++ py "$x_1$" ++ mid ++ py "`$x_1$`" ++ post)
    with ((pre ++ py "$x_1$" ++ mid) ++ py "`$x_1$`" ++ post)
    by (rewrite <- !app_assoc; reflexivity).
  rewrite (mask_inline_skip (pre ++ py "$x_1$" ++ mid) _ [] 0).
  2:{ apply in_app_not; [exact (Hbt pre Hpre)|].
      apply in_app_not; [apply in_code_not; reflexivity|exact (Hbt mid Hmid)]. }
  change (py "`$x_1$`" ++ post)
    with ("`"%char :: ("$"%char :: py "x_1$") ++ "`"%char :: post).
  rewrite (mask_inline_span "$" (py "x_1$") _ [] 0)
    by (apply in_code_not; reflexivity).
  rewrite (mask_inline_skip_end post _ _ (Hbt post Hpost)).
  cbv beta iota.
  change (dict_set str_eqb [] (make_token 0)
            ("`"%char :: ("$"%char :: py "x_1$") ++ ["`"%char]))
    with [(make_token 0, py "`$x_1$`")].
  change (dict_update str_eqb [] [(make_token 0, py "`$x_1$`")])
    with [(make_token 0, py "`$x_1$`")].
  change (0 + 1)%Z with 1%Z.
  (* display math: none *)
  unfold protect_math, re_sub.
  replace ((pre ++ py "$x_1$" ++ mid) ++ make_token 0 ++ post)
    with (pre ++ py "$x_1$" ++ (mid ++ make_token 0 ++ post))
    by (rewrite <- !app_assoc; reflexivity).
  assert (Hd2 : forall c, In c (mid ++ make_token 0 ++ post) ->
                          (c =? "$")%char = false).
  { apply in_app_not; [exact (Hdl mid Hmid)|].
    apply in_app_not; [apply in_code_not; reflexivity|exact (Hdl post Hpost)]. }
  assert (Hb2 : forall c,
             In c (pre ++ py "$x_1$" ++ (mid ++ make_token 0 ++ post)) ->
             (c =? "\")%char = false).
  { apply in_app_not; [exact (Hbs pre Hpre)|].
    apply in_app_not; [apply in_code_not; reflexivity|].
    apply in_app_not; [exact (Hbs mid Hmid)|].
    apply in_app_not; [apply in_code_not; reflexivity|exact (Hbs post Hpost)]. }
  rewrite (re_sub_skip DISPLAY_DOLLAR_RE _ pre)
    by (apply (dead_of_not _ _ _ dead_display (Hdl pre Hpre))).
  rewrite (display_math _ _ _ _ Hrest_d).
  rewrite (re_sub_skip_end DISPLAY_DOLLAR_RE _ (mid ++ make_token 0 ++ post))
    by (apply (dead_of_not _ _ _ dead_display Hd2)).
  cbv beta iota.
  (* bracket and paren math: none *)
  rewrite (re_sub_skip_end BRACKET_MATH_RE _ _ None _
             (dead_of_not _ _ _ dead_bracket Hb2)).
  cbv beta iota.
  rewrite (re_sub_skip_end PAREN_MATH_RE _ _ None _
             (dead_of_not _ _ _ dead_paren Hb2)).
  cbv beta iota. cbn [snd].
  (* inline math *)
  rewrite (re_sub_skip INLINE_DOLLAR_RE _ pre)
    by (apply (dead_of_not _ _ _ dead_inline (Hdl pre Hpre))).
  rewrite inline_math
    by (apply prev_after_not_backslash; [reflexivity|exact (Hbs pre Hpre)]).
  rewrite (re_sub_skip_end INLINE_DOLLAR_RE _ (mid ++ make_token 0 ++ post))
    by (apply (dead_of_not _ _ _ dead_inline Hd2)).
  cbv beta iota. cbn [fst].
  (* restoring *)
  change (restore_tokens
            (pre ++ py "$x\_1$" ++ mid ++ make_token 0 ++ post) [])
    with (pre ++ py "$x\_1$" ++ mid ++ make_token 0 ++ post).
  replace (pre ++ py "$x\_1$" ++ mid ++ make_token 0 ++ post)
    with ((pre ++ py "$x\_1$" ++ mid) ++ make_token 0 ++ post)
    by (rewrite <- !app_assoc; reflexivity).
  rewrite restore_single.
  - rewrite <- !app_assoc. reflexivity.
  - apply in_app_not; [exact (Hat pre Hpre)|].
    apply in_app_not; [apply in_code_not; reflexivity|exact (Hat mid Hmid)].
  - exact (Hat post Hpost).
Qed.

(** C8 fails on the code. A code span that lies between two dollar signs
    is inside what the converter takes for an inline math region: the
    underscores of its masking token are escaped with the rest, the token is
    no longer found when the tokens are restored, and the code span is lost.
    The math region after it is rewritten as the claim says. *)
Theorem code_span_lost_between_dollars :
  normalize_mathjax_underscores (py "escaped")
    (py "Price: $5. Code `$x_1$`. Cost $6. Math $x_1$.")
  = py "Price: $5. Code @@HEXO2TYPECHO\_TOKEN\_0@@. Cost $6. Math $x\_1$."
  /\ contains (normalize_mathjax_underscores (py "escaped")
                 (py "Price: $5. Code `$x_1$`. Cost $6. Math $x_1$."))
              (py "`$x_1$`") = false.
Proof. split; vm_compute; reflexivity. Qed.

(** * Further properties of the converter *)

(** ** SQL literals *)

Lemma replace_one_char (s : str) (c : ascii) (new : str) :
  replace s [c] new = flat_map (fun d => if (d =? c)%char then new else [d]) s.
Proof.
  unfold replace. induction s as [|d s IH]; [reflexivity|].
  cbn [replace_from flat_map startswith length Nat.sub].
  rewrite andb_true_r, (Ascii.eqb_sym c d).
  destruct (d =? c)%char; rewrite IH; reflexivity.
Qed.

Lemma flat_map_twice {A B C : Type} (f : A -> list B) (g : B -> list C)
  (l : list A) :
  flat_map g (flat_map f l) = flat_map (fun x => flat_map g (f x)) l.
Proof.
  induction l as [|x l IH]; [reflexivity|].
  cbn [flat_map]. rewrite flat_map_app, IH. reflexivity.
Qed.

(** The seven replacements of [sql_quote] do not act on each other's
    results: each character of the value is written on its own. *)
Lemma sql_quote_chars (s : str) :
  sql_quote (Some s) = [SQUOTE] ++ flat_map sql_escape_char s ++ [SQUOTE].
Proof.
  unfold sql_quote. do 2 f_equal.
  change (py "\") with ["\"%char].
  rewrite !replace_one_char, !flat_map_twice.
  apply flat_map_ext. intros c.
  destruct c as [[] [] [] [] [] [] [] []]; vm_compute; reflexivity.
Qed.

Lemma sql_escape_char_cases (c : ascii) :
  (sql_escape_char c = [c] /\ (c =? "\")%char = false
   /\ (c =? SQUOTE)%char = false)
  \/ exists x, sql_escape_char c = ["\"%char; x] /\ sql_unescape x = [c].
Proof.
  destruct c as [[] [] [] [] [] [] [] []];
    first [ left; repeat split; reflexivity
          | right; eexists; split; vm_compute; reflexivity ].
Qed.

Lemma sql_read_escaped (s : str) :
  sql_read (flat_map sql_escape_char s ++ [SQUOTE]) = Some s.
Proof.
  induction s as [|c s IH]; [reflexivity|].
  cbn [flat_map]. rewrite <- app_assoc.
  destruct (sql_escape_char_cases c) as [(E & H1 & H2)|(x & E & Hx)]; rewrite E.
  - cbn [app sql_read]. rewrite H1, H2, IH. reflexivity.
  - cbn [app sql_read]. change ("\" =? "\")%char with true. cbv iota.
    rewrite IH, Hx. reflexivity.
Qed.

(** The literal that [sql_quote] writes is read back as the value: [NULL]
    for no value, and for a text a quoted literal that ends where it should
    and stands for that text, whatever quotes, backslashes and control
    characters it holds. *)
Theorem sql_quote_reads_back (v : option str) :
  sql_literal_value (sql_quote v) = Some v.
Proof.
  destruct v as [s|]; [|reflexivity].
  rewrite sql_quote_chars. unfold sql_literal_value.
  destruct (str_eqb _ _) eqn:E.
  - apply str_eqb_eq in E. discriminate E.
  - cbn [app]. change (SQUOTE =? SQUOTE)%char with true. cbv iota.
    rewrite sql_read_escaped. reflexivity.
Qed.

(** ** Front matter with a block *)

Lemma split_nonempty (sep : ascii) (s : str) : split sep s <> [].
Proof.
  destruct s as [|c s]; simpl; [discriminate|].
  destruct (c =? sep)%char; [discriminate|].
  destruct (split sep s); discriminate.
Qed.

Lemma split_app (sep : ascii) (a b : str) :
  split sep (a ++ sep :: b) = split sep a ++ split sep b.
Proof.
  induction a as [|c a IH]; cbn [app split].
  - rewrite Ascii.eqb_refl. reflexivity.
  - destruct (c =? sep)%char.
    + rewrite IH. reflexivity.
    + rewrite IH. destruct (split sep a) as [|l ls] eqn:E.
      * exfalso. exact (split_nonempty sep a E).
      * reflexivity.
Qed.

Lemma split_no_sep (sep : ascii) (s : str) :
  ~ In sep s -> split sep s = [s].
Proof.
  induction s as [|c s IH]; intros H; cbn [split]; [reflexivity|].
  destruct (Ascii.eqb_spec c sep) as [E|E].
  - exfalso. apply H. left. exact E.
  - rewrite IH; [reflexivity|]. intro Hin. apply H. right. exact Hin.
Qed.

Lemma join_split (sep : ascii) (s : str) : join [sep] (split sep s) = s.
Proof.
  induction s as [|c s IH]; [reflexivity|].
  cbn [split]. destruct (Ascii.eqb_spec c sep) as [E|E].
  - subst c. destruct (split sep s) as [|l ls] eqn:El.
    + exfalso. exact (split_nonempty sep s El).
    + change (join [sep] ([] :: l :: ls))
        with ([] ++ [sep] ++ join [sep] (l :: ls)).
      rewrite IH. reflexivity.
  - destruct (split sep s) as [|l ls] eqn:El.
    + exfalso. exact (split_nonempty sep s El).
    + rewrite <- IH. destruct ls; reflexivity.
Qed.

Lemma find_boundary_first (pre rest : list str) (line : str) (idx : nat) :
  forallb (fun l => negb (is_boundary l)) pre = true ->
  is_boundary line = true ->
  find_boundary idx (pre ++ line :: rest) = Some (idx + length pre).
Proof.
  revert idx. induction pre as [|l pre IH]; intros idx Hp Hl; cbn [app find_boundary].
  - rewrite Hl. f_equal. simpl. lia.
  - cbn [forallb] in Hp. apply andb_true_iff in Hp. destruct Hp as [H1 H2].
    apply negb_true_iff in H1. rewrite H1, (IH (S idx) H2 Hl).
    f_equal. simpl. lia.
Qed.

(** A text that opens with a delimiter line and has a later one: the
    metadata are those of the lines between the first two delimiter lines,
    and the body is the text after the second one, without its leading line
    feeds. *)
Theorem split_front_matter_with_block (rt : runtime)
  (opening front closing body : str) :
  is_boundary opening = true -> ~ In LF opening ->
  is_boundary closing = true -> ~ In LF closing ->
  forallb (fun l => negb (is_boundary l)) (split LF front) = true ->
  ~ In CR (opening ++ LF :: front ++ LF :: closing ++ LF :: body) ->
  split_front_matter rt (opening ++ LF :: front ++ LF :: closing ++ LF :: body)
  = (match parse_front_matter rt front with VDict d => d | _ => [] end,
     lstrip_chars [LF] body).
Proof.
  intros Ho Hol Hc Hcl Hf Hcr.
  unfold split_front_matter.
  rewrite (normalize_newlines_no_cr _ Hcr).
  rewrite split_app, (split_no_sep LF opening Hol).
  rewrite split_app, split_app, (split_no_sep LF closing Hcl).
  cbn [app]. rewrite Ho. cbn [negb skipn].
  rewrite (find_boundary_first (split LF front) (split LF body) closing 1 Hf Hc).
  cbv beta iota zeta.
  assert (E1 : slice (opening :: split LF front ++ closing :: split LF body) 1
                 (1 + length (split LF front)) = split LF front).
  { unfold slice. cbn [skipn].
    replace (1 + length (split LF front) - 1) with (length (split LF front) + 0)
      by lia.
    rewrite firstn_app_2. cbn [firstn]. apply app_nil_r. }
  assert (E2 : skipn (1 + length (split LF front) + 1)
                 (opening :: split LF front ++ closing :: split LF body)
               = split LF body).
  { replace (1 + length (split LF front) + 1)
      with (S (length (split LF front) + 1)) by lia.
    cbn [skipn]. rewrite skipn_app.
    rewrite skipn_all2 by lia.
    replace (length (split LF front) + 1 - length (split LF front)) with 1 by lia.
    reflexivity. }
  rewrite E1, E2, !join_split.
  destruct (parse_front_matter rt front); reflexivity.
Qed.

Lemma split_front_matter_with_block_witness :
  split_front_matter rt_example
    (py "---" ++ LF :: py "title: Hello" ++ LF :: py "---" ++ LF :: py "Body")
  = ([(py "title", VStr (py "Hello"))], py "Body").
Proof.
  rewrite (split_front_matter_with_block rt_example (py "---")
             (py "title: Hello") (py "---") (py "Body")).
  - reflexivity.
  - reflexivity.
  - intros [H|[H|[H|[]]]]; discriminate H.
  - reflexivity.
  - intros [H|[H|[H|[]]]]; discriminate H.
  - reflexivity.
  - intro H. vm_compute in H. repeat (destruct H as [H|H]; [discriminate H|]). exact H.
Defined.

(** ** Identifiers of the SQL rows *)

Lemma ids_from_S (c : Z) (n : nat) :
  ids_from c (S n) = c :: ids_from (c + 1) n.
Proof.
  unfold ids_from. cbn [seq map]. f_equal; [lia|].
  rewrite <- seq_shift, map_map. apply map_ext. intros i. lia.
Qed.

Lemma post_rows_cids (rt : runtime) (posts : list HexoPost) (author_id c : Z) :
  map row_cid (post_rows_from rt posts author_id c) = ids_from c (length posts).
Proof.
  revert c. induction posts as [|post posts IH]; intros c; [reflexivity|].
  cbn [post_rows_from map length]. rewrite ids_from_S, IH. reflexivity.
Qed.

Lemma fold_max_ids (n : nat) (c x : Z) :
  (x < c)%Z ->
  fold_left Z.max (ids_from c n) x
  = match n with O => x | S k => (c + Z.of_nat k)%Z end.
Proof.
  revert c x. induction n as [|n IH]; intros c x H; [reflexivity|].
  rewrite ids_from_S. cbn [fold_left].
  rewrite IH by lia. destruct n; lia.
Qed.

Lemma max_default_ids (n : nat) (c d : Z) :
  max_default (ids_from c n) d
  = match n with O => d | S k => (c + Z.of_nat k)%Z end.
Proof.
  destruct n as [|n]; [reflexivity|].
  rewrite ids_from_S. unfold max_default.
  rewrite fold_max_ids by lia. destruct n; lia.
Qed.

(** The content rows get consecutive identifiers from [max(cid_start, 1)]
    on, in the order of the posts, and the value written for
    [AUTO_INCREMENT] is the first identifier after them. *)
Theorem content_ids_consecutive (rt : runtime) (posts : list HexoPost)
  (author_id cid_start : Z) :
  let post_rows := post_rows_from rt posts author_id (Z.max cid_start 1) in
  length post_rows = length posts
  /\ map row_cid post_rows = ids_from (Z.max cid_start 1) (length posts)
  /\ Z.max (max_default (map row_cid post_rows) (cid_start - 1) + 1) 1
     = (Z.max cid_start 1 + Z.of_nat (length posts))%Z.
Proof.
  cbv zeta. split; [|split].
  - rewrite <- (length_map row_cid), post_rows_cids.
    unfold ids_from. rewrite length_map, length_seq. reflexivity.
  - apply post_rows_cids.
  - rewrite post_rows_cids, max_default_ids.
    destruct (length posts); lia.
Qed.

(** ** Relationships and counts *)

Lemma rel_sound_step (events : list (Z * term_key)) (st : term_state)
  (cid : Z) (key : term_key) :
  linked events st -> rel_sound events st ->
  rel_sound (events ++ [(cid, key)]) (add_key st (cid, key)).
Proof.
  intros Hl Hs.
  destruct (add_key_term_map st cid key)
    as (t & Hget & Hother & Hcase & Hold & Hnew).
  assert (Hmid : forall e, In e events ->
            relation_of (term_map (add_key st (cid, key))) e
            = relation_of (term_map st) e).
  { intros [c k] He. unfold relation_of, mid_of. cbn [fst snd]. f_equal.
    destruct (Hl c k He) as (u & Hu & _).
    destruct (key_eqb k key) eqn:Ek.
    - apply key_eqb_eq in Ek. subst k. rewrite Hget, Hu.
      rewrite Hu in Hcase. destruct Hcase as (Ht & _). subst t. reflexivity.
    - rewrite Hother; [reflexivity|]. intro E. subst k.
      rewrite (eqb_same key_eqb key_eqb_eq) in Ek. discriminate Ek. }
  assert (Hnew_rel : relation_of (term_map (add_key st (cid, key))) (cid, key)
                     = (cid, mid t)).
  { unfold relation_of, mid_of. cbn [fst snd]. rewrite Hget. reflexivity. }
  intros r Hr. rewrite map_app, in_app_iff.
  assert (Hcases : In r (relationships st) \/ r = (cid, mid t)).
  { destruct (seen_dec (cid, mid t) (relation_seen st)) as [Hin|Hnin].
    - destruct (Hold Hin) as [E1 _]. rewrite E1 in Hr. left. exact Hr.
    - destruct (Hnew Hnin) as [E1 _]. rewrite E1, in_app_iff in Hr.
      destruct Hr as [Hr|[Hr|[]]]; [left; exact Hr|right; symmetry; exact Hr]. }
  destruct Hcases as [Hr0|Hr0].
  - left. apply Hs in Hr0. apply in_map_iff in Hr0.
    destruct Hr0 as (e & Ee & He). apply in_map_iff. exists e.
    split; [rewrite Hmid by exact He; exact Ee|exact He].
  - right. left. rewrite Hnew_rel. symmetry. exact Hr0.
Qed.

Lemma fold_add_key_sound (events : list (Z * term_key)) :
  forall (before : list (Z * term_key)) (st : term_state),
    rel_inv st -> linked before st -> rel_sound before st ->
    rel_sound (before ++ events) (fold_left add_key events st).
Proof.
  induction events as [|[cid key] events IH]; intros before st Hr Hl Hs.
  - simpl. rewrite app_nil_r. exact Hs.
  - simpl.
    replace (before ++ (cid, key) :: events)
      with ((before ++ [(cid, key)]) ++ events)
      by (rewrite <- app_assoc; reflexivity).
    apply IH.
    + apply rel_inv_step. exact Hr.
    + apply linked_step; assumption.
    + apply rel_sound_step; assumption.
Qed.

Lemma build_terms_sound (posts : list HexoPost) (cid_start mid_start : Z) :
  rel_sound (post_events posts (Z.max cid_start 1))
            (build_terms posts cid_start mid_start).
Proof.
  unfold build_terms. rewrite add_posts_events.
  apply (fold_add_key_sound (post_events posts (Z.max cid_start 1)) []).
  - split; [constructor|]. intros r. reflexivity.
  - intros c k [].
  - intros r [].
Qed.

Lemma post_events_inv (posts : list HexoPost) (c cid : Z) (key : term_key) :
  In (cid, key) (post_events posts c) ->
  exists i post,
    nth_error posts i = Some post /\ cid = (c + Z.of_nat i)%Z
    /\ In key (post_keys post).
Proof.
  revert c. induction posts as [|p posts IH]; intros c H; [destruct H|].
  cbn [post_events] in H. apply in_app_iff in H. destruct H as [H|H].
  - apply in_map_iff in H. destruct H as (k & E & Hk). injection E as E1 E2.
    subst. exists 0, p. split; [reflexivity|]. split; [lia|exact Hk].
  - destruct (IH _ H) as (i & post & Hn & Hc & Hk).
    exists (S i), post. split; [exact Hn|]. split; [lia|exact Hk].
Qed.

(** The relationship rows are the pairs of the identifier of a post and
    the identifier of one of its categories or tags: each row refers to the
    content row of a post of the list and to the term of a name of that
    post, and each such pair has its row. *)
Theorem relationships_are_post_terms (posts : list HexoPost)
  (cid_start mid_start : Z) (cid m : Z) :
  In (cid, m) (relationships (build_terms posts cid_start mid_start))
  <-> exists i post key t,
        nth_error posts i = Some post
        /\ cid = (Z.max cid_start 1 + Z.of_nat i)%Z
        /\ In key (post_keys post)
        /\ dict_get key_eqb (term_map (build_terms posts cid_start mid_start))
                    key = Some t
        /\ mid t = m.
Proof.
  destruct (build_terms_inv posts cid_start mid_start) as (_ & _ & Hl).
  split.
  - intros H. apply build_terms_sound in H. apply in_map_iff in H.
    destruct H as ([c key] & E & He).
    unfold relation_of, mid_of in E. cbn [fst snd] in E.
    destruct (Hl c key He) as (t & Ht & _). rewrite Ht in E.
    injection E as E1 E2. subst c.
    destruct (post_events_inv posts _ cid key He) as (i & post & Hn & Hc & Hk).
    exists i, post, key, t. repeat split; assumption.
  - intros (i & post & key & t & Hn & Hc & Hk & Ht & Hm). subst cid m.
    destruct (Hl _ key (post_events_in posts (Z.max cid_start 1) i post key Hn Hk))
      as (u & Hu & Hr).
    rewrite Ht in Hu. injection Hu as Hu. subst u. exact Hr.
Qed.

Lemma nth_error_dict_get {K V : Type} (eqb : K -> K -> bool)
  (eqb_eq : forall a b, eqb a b = true <-> a = b)
  (d : list (K * V)) (n : nat) (k : K) (v : V) :
  NoDup (map fst d) -> nth_error d n = Some (k, v) ->
  dict_get eqb d k = Some v.
Proof.
  revert n. induction d as [|[k' v'] d IH]; intros n Hnd Hn.
  - destruct n; discriminate Hn.
  - cbn [map fst] in Hnd. inversion Hnd as [|? ? Hk Hnd']. subst.
    destruct n as [|n]; cbn [nth_error] in Hn.
    + injection Hn as E1 E2. subst. cbn [dict_get].
      rewrite (eqb_same eqb eqb_eq). reflexivity.
    + cbn [dict_get]. destruct (eqb k k') eqn:E.
      * apply eqb_eq in E. subst k'. exfalso. apply Hk.
        apply nth_error_In in Hn. apply (in_map fst) in Hn. exact Hn.
      * apply (IH n Hnd' Hn).
Qed.

Lemma term_map_nth (base : Z) (keys : list term_key) (st : term_state)
  (n : nat) (key : term_key) (t : Term) :
  term_inv base keys st ->
  nth_error (term_map st) n = Some (key, t) ->
  nth_error (uniq key_eqb keys) n = Some key
  /\ dict_get key_eqb (term_map st) key = Some t
  /\ mid t = (base + Z.of_nat n)%Z
  /\ count t = Z.of_nat (occurrences key keys)
  /\ term_name t = snd key /\ term_type t = fst key
  /\ term_slug t = slugify (snd key).
Proof.
  intros (Hkeys & _ & Hterms) Hn.
  assert (Hk : nth_error (uniq key_eqb keys) n = Some key).
  { rewrite <- Hkeys, nth_error_map, Hn. reflexivity. }
  assert (Hg : dict_get key_eqb (term_map st) key = Some t).
  { apply (nth_error_dict_get key_eqb key_eqb_eq _ n); [|exact Hn].
    rewrite Hkeys. apply (uniq_nodup key_eqb key_eqb_eq). }
  destruct (Hterms n key Hk) as (u & Hu & H).
  rewrite Hg in Hu. injection Hu as Hu. subst u.
  split; [exact Hk|]. split; [exact Hg|exact H].
Qed.

Lemma term_map_mids (base : Z) (keys : list term_key) (st : term_state) :
  term_inv base keys st ->
  map mid (map snd (term_map st)) = ids_from base (length (term_map st)).
Proof.
  intros Hinv. apply nth_error_ext. intros n.
  unfold ids_from. rewrite !nth_error_map.
  destruct (nth_error (term_map st) n) as [[key t]|] eqn:En.
  - destruct (term_map_nth base keys st n key t Hinv En) as (_ & _ & Hm & _).
    assert (Hlt : n < length (term_map st)).
    { apply nth_error_Some. rewrite En. discriminate. }
    rewrite nth_error_seq. destruct (Nat.ltb_spec n (length (term_map st)));
      [|lia].
    cbn [option_map snd]. rewrite Hm. reflexivity.
  - apply nth_error_None in En. rewrite nth_error_seq.
    destruct (Nat.ltb_spec n (length (term_map st))); [lia|reflexivity].
Qed.

Lemma ids_from_app (b : Z) (n k : nat) :
  ids_from b (n + k) = ids_from b n ++ ids_from (b + Z.of_nat n) k.
Proof.
  revert b. induction n as [|n IH]; intros b.
  - cbn [Nat.add ids_from seq map app]. unfold ids_from.
    apply map_ext. intros i. lia.
  - cbn [Nat.add]. rewrite !ids_from_S, IH. cbn [app]. do 2 f_equal.
    unfold ids_from. apply map_ext. intros i. lia.
Qed.

Lemma ids_from_in (b : Z) (n : nat) (x : Z) :
  In x (ids_from b n) -> (b <= x < b + Z.of_nat n)%Z.
Proof.
  unfold ids_from. intros H. apply in_map_iff in H.
  destruct H as (i & E & Hi). apply in_seq in Hi. lia.
Qed.

Lemma app_eq_length {A : Type} (a c b d : list A) :
  length a = length c -> a ++ b = c ++ d -> a = c /\ b = d.
Proof.
  revert c. induction a as [|x a IH]; intros [|y c] Hl H;
    try discriminate Hl.
  - split; [reflexivity|exact H].
  - injection H as E H. injection Hl as Hl.
    destruct (IH c Hl H) as [E1 E2]. subst. split; reflexivity.
Qed.

Lemma insert_term_last (t : Term) (l : list Term) :
  Forall (fun u => (mid u <= mid t)%Z) l -> insert_term t l = l ++ [t].
Proof.
  induction 1 as [|u l Hu _ IH]; [reflexivity|].
  cbn [insert_term app]. apply Z.leb_le in Hu. rewrite Hu, IH. reflexivity.
Qed.

Lemma terms_by_mid_increasing (m : list (term_key * Term)) :
  forall (acc : list Term) (base : Z),
    map mid (acc ++ map snd m) = ids_from base (length acc + length m) ->
    fold_left (fun acc kv => insert_term (snd kv) acc) m acc
    = acc ++ map snd m.
Proof.
  induction m as [|[k t] m IH]; intros acc base H.
  - cbn [fold_left map]. rewrite app_nil_r. reflexivity.
  - cbn [fold_left map snd length] in *.
    rewrite map_app, ids_from_app in H.
    apply app_eq_length in H;
      [|unfold ids_from; rewrite !length_map, length_seq; reflexivity].
    destruct H as [Hacc Hrest].
    rewrite ids_from_S in Hrest. cbn [map] in Hrest.
    injection Hrest as Ht Hrest.
    rewrite insert_term_last.
    + rewrite (IH (acc ++ [t]) base).
      * rewrite <- app_assoc. reflexivity.
      * rewrite <- app_assoc, map_app, length_app. cbn [app map length].
        replace (length acc + 1 + length m) with (length acc + S (length m))
          by lia.
        rewrite ids_from_app, ids_from_S, Hacc, Ht, Hrest. reflexivity.
    + apply Forall_forall. intros u Hu.
      apply (in_map mid) in Hu. rewrite Hacc in Hu.
      apply ids_from_in in Hu. lia.
Qed.

Lemma terms_by_mid_values (base : Z) (keys : list term_key) (st : term_state) :
  term_inv base keys st ->
  terms_by_mid (term_map st) = map snd (term_map st).
Proof.
  intros Hinv. unfold terms_by_mid.
  apply (terms_by_mid_increasing (term_map st) [] base).
  cbn [app length Nat.add]. apply (term_map_mids base keys st Hinv).
Qed.

(** The rows of the terms are written in the order in which the terms
    were first met, which is the order of their identifiers; the identifiers
    are consecutive from [max(mid_start, 1)] on, there is one row for each
    distinct pair of a kind and a name, and the value written for
    [AUTO_INCREMENT] is the first identifier after them. *)
Theorem term_rows_in_id_order (posts : list HexoPost) (cid_start mid_start : Z) :
  let st := build_terms posts cid_start mid_start in
  let terms := terms_by_mid (term_map st) in
  map (fun t => (term_type t, term_name t)) terms = uniq key_eqb (all_keys posts)
  /\ map mid terms = ids_from (Z.max mid_start 1) (length terms)
  /\ Z.max (max_default (map mid terms) (mid_start - 1) + 1) 1
     = (Z.max mid_start 1 + Z.of_nat (length terms))%Z
  /\ Forall (fun t => term_slug t = slugify (term_name t)) terms.
Proof.
  cbv zeta.
  destruct (build_terms_inv posts cid_start mid_start) as (Hinv & _).
  rewrite (terms_by_mid_values _ _ _ Hinv).
  assert (Hmids := term_map_mids _ _ _ Hinv).
  rewrite length_map.
  split; [|split; [exact Hmids|split]].
  - destruct Hinv as (Hkeys & _). rewrite <- Hkeys.
    apply nth_error_ext. intros n. rewrite !nth_error_map.
    destruct (nth_error (term_map (build_terms posts cid_start mid_start)) n)
      as [[key t]|] eqn:En; [|reflexivity].
    destruct (build_terms_inv posts cid_start mid_start) as (Hinv & _).
    destruct (term_map_nth _ _ _ n key t Hinv En)
      as (_ & _ & _ & _ & Hn & Ht & _).
    cbn [option_map snd fst]. rewrite Hn, Ht. destruct key; reflexivity.
  - rewrite Hmids, max_default_ids.
    destruct (length (term_map (build_terms posts cid_start mid_start))); lia.
  - apply Forall_forall. intros t Ht. apply in_map_iff in Ht.
    destruct Ht as ([key u] & E & Hu). cbn [snd] in E. subst u.
    apply In_nth_error in Hu. destruct Hu as (n & Hn).
    destruct (term_map_nth _ _ _ n key t Hinv Hn)
      as (_ & _ & _ & _ & Hname & _ & Hslug).
    rewrite Hslug, Hname. reflexivity.
Qed.

Lemma post_events_nodup (posts : list HexoPost) (c : Z) :
  NoDup (post_events posts c).
Proof.
  revert c. induction posts as [|p posts IH]; intros c; [constructor|].
  cbn [post_events]. apply NoDup_app.
  - assert (H := post_keys_nodup p).
    induction H as [|k ks Hk _ IHk]; cbn [map]; constructor; [|exact IHk].
    intro Hin. apply in_map_iff in Hin. destruct Hin as (k' & E & Hk').
    injection E as E. subst k'. contradiction.
  - apply IH.
  - intros [cid key] H1 H2. apply in_map_iff in H1.
    destruct H1 as (k & E & _). injection E as E _. subst cid.
    apply post_events_inv in H2. destruct H2 as (i & _ & _ & Hc & _). lia.
Qed.

Lemma nodup_map_on {A B : Type} (f : A -> B) (l : list A) :
  (forall x y, In x l -> In y l -> f x = f y -> x = y) ->
  NoDup l -> NoDup (map f l).
Proof.
  intros Hinj H. induction H as [|x l Hx _ IH]; cbn [map]; constructor.
  - intro Hin. apply in_map_iff in Hin. destruct Hin as (y & E & Hy).
    assert (y = x) by (apply Hinj; [right; exact Hy|left; reflexivity|exact E]).
    subst y. contradiction.
  - apply IH. intros a b Ha Hb. apply Hinj; right; assumption.
Qed.

Lemma filter_length_permutation {A : Type} (f : A -> bool) (l l' : list A) :
  Permutation l l' -> length (filter f l) = length (filter f l').
Proof.
  induction 1 as [|x l l' _ IH|x y l|l l' l'' _ IH1 _ IH2]; cbn [filter].
  - reflexivity.
  - destruct (f x); cbn [length]; rewrite IH; reflexivity.
  - destruct (f x), (f y); reflexivity.
  - rewrite IH1. exact IH2.
Qed.

Lemma term_mid_injective (base : Z) (keys : list term_key) (st : term_state)
  (k1 k2 : term_key) (t1 t2 : Term) :
  term_inv base keys st ->
  dict_get key_eqb (term_map st) k1 = Some t1 ->
  dict_get key_eqb (term_map st) k2 = Some t2 ->
  mid t1 = mid t2 -> k1 = k2.
Proof.
  intros (Hkeys & _ & Hterms) H1 H2 Hm.
  assert (Hin : forall k t, dict_get key_eqb (term_map st) k = Some t ->
                  exists n, nth_error (uniq key_eqb keys) n = Some k
                            /\ mid t = (base + Z.of_nat n)%Z).
  { intros k t Hk.
    assert (Hm0 : In k (map fst (term_map st))).
    { apply (dict_has_in key_eqb key_eqb_eq). unfold dict_has. rewrite Hk.
      reflexivity. }
    rewrite Hkeys in Hm0. apply In_nth_error in Hm0. destruct Hm0 as (n & Hn).
    exists n. split; [exact Hn|].
    destruct (Hterms n k Hn) as (u & Hu & Hmid & _).
    rewrite Hk in Hu. injection Hu as Hu. subst u. exact Hmid. }
  destruct (Hin k1 t1 H1) as (n1 & Hn1 & Hm1).
  destruct (Hin k2 t2 H2) as (n2 & Hn2 & Hm2).
  assert (n1 = n2) by lia. subst n2. rewrite Hn1 in Hn2.
  injection Hn2 as E. exact E.
Qed.

Lemma filter_map_length {A B : Type} (f : A -> B) (p : B -> bool)
  (q : A -> bool) (l : list A) :
  (forall x, In x l -> p (f x) = q x) ->
  length (filter p (map f l)) = length (filter q l).
Proof.
  induction l as [|x l IH]; intros H; [reflexivity|].
  cbn [map filter]. rewrite (H x (or_introl eq_refl)).
  destruct (q x); cbn [length]; rewrite IH; try reflexivity;
    intros y Hy; apply H; right; exact Hy.
Qed.

(** The count written for a term is the number of relationship rows that
    refer to it. *)
Theorem term_counts_match_relationships (posts : list HexoPost)
  (cid_start mid_start : Z) :
  let st := build_terms posts cid_start mid_start in
  Forall (fun t =>
            count t
            = Z.of_nat (length (filter (fun r => (snd r =? mid t)%Z)
                                       (relationships st))))
         (terms_by_mid (term_map st)).
Proof.
  cbv zeta.
  destruct (build_terms_inv posts cid_start mid_start)
    as (Hinv & (Hnd & _) & Hl).
  set (st := build_terms posts cid_start mid_start) in *.
  set (events := post_events posts (Z.max cid_start 1)) in *.
  rewrite (terms_by_mid_values _ _ _ Hinv).
  assert (Hkeys_in : forall e, In e events ->
            exists t, dict_get key_eqb (term_map st) (snd e) = Some t).
  { intros [c k] He. destruct (Hl c k He) as (t & Ht & _). exists t. exact Ht. }
  assert (Hperm : Permutation (relationships st)
                              (map (relation_of (term_map st)) events)).
  { apply NoDup_Permutation; [exact Hnd| |].
    - apply nodup_map_on; [|apply post_events_nodup].
      intros [c1 k1] [c2 k2] He1 He2 E.
      unfold relation_of, mid_of in E. cbn [fst snd] in E.
      destruct (Hkeys_in _ He1) as (t1 & Ht1), (Hkeys_in _ He2) as (t2 & Ht2).
      cbn [snd] in Ht1, Ht2. rewrite Ht1, Ht2 in E. injection E as Ec Em.
      subst c2. f_equal.
      exact (term_mid_injective _ _ _ k1 k2 t1 t2 Hinv Ht1 Ht2 Em).
    - intros r. split; [apply build_terms_sound|].
      intros Hr. apply in_map_iff in Hr. destruct Hr as ([c k] & E & He).
      destruct (Hl c k He) as (t & Ht & Hin).
      unfold relation_of, mid_of in E. cbn [fst snd] in E. rewrite Ht in E.
      subst r. exact Hin. }
  apply Forall_forall. intros t Ht. apply in_map_iff in Ht.
  destruct Ht as ([key u] & E & Hu). cbn [snd] in E. subst u.
  apply In_nth_error in Hu. destruct Hu as (n & Hn).
  destruct (term_map_nth _ _ _ n key t Hinv Hn) as (_ & Hg & _ & Hc & _).
  rewrite Hc. apply (f_equal Z.of_nat).
  rewrite (filter_length_permutation _ _ _ Hperm).
  rewrite (filter_map_length (relation_of (term_map st)) _
             (fun e => key_eqb key (snd e)) events).
  - unfold occurrences. fold st. unfold events.
    rewrite <- (post_events_keys posts (Z.max cid_start 1)).
    generalize (post_events posts (Z.max cid_start 1)). intros l.
    induction l as [|e l IH]; [reflexivity|].
    cbn [map filter]. destruct (key_eqb key (snd e)); cbn [length];
      rewrite IH; reflexivity.
  - intros [c k] He. unfold relation_of, mid_of. cbn [fst snd].
    destruct (Hkeys_in _ He) as (u & Hu'). cbn [snd] in Hu'. rewrite Hu'.
    destruct (key_eqb key k) eqn:Ek.
    + apply key_eqb_eq in Ek. subst k. rewrite Hg in Hu'. injection Hu' as E.
      subst u. apply Z.eqb_refl.
    + apply Z.eqb_neq. intro Em.
      assert (k = key)
        by exact (term_mid_injective _ _ _ k key u t Hinv Hu' Hg Em).
      subst k. rewrite (eqb_same key_eqb key_eqb_eq) in Ek. discriminate Ek.
Qed.

(** ** Trimmed texts *)

Lemma lstrip_by_split (f : ascii -> bool) (s : str) :
  exists pre, s = pre ++ lstrip_by f s /\ forallb f pre = true.
Proof.
  induction s as [|c s (pre & E & Hp)]; [exists []; split; reflexivity|].
  cbn [lstrip_by]. destruct (f c) eqn:Ec.
  - exists (c :: pre). cbn [app forallb]. rewrite Ec, Hp, <- E.
    split; reflexivity.
  - exists []. split; reflexivity.
Qed.

Lemma lstrip_by_head (f : ascii -> bool) (s : str) (c : ascii) (r : str) :
  lstrip_by f s = c :: r -> f c = false.
Proof.
  induction s as [|a s IH]; cbn [lstrip_by]; [discriminate|].
  destruct (f a) eqn:Ea; [exact IH|].
  intros E. injection E as E _. subst a. exact Ea.
Qed.

Lemma lstrip_by_fixed (f : ascii -> bool) (s : str) :
  match s with [] => True | c :: _ => f c = false end -> lstrip_by f s = s.
Proof. destruct s as [|c s]; [reflexivity|]. cbn [lstrip_by]. intros ->. reflexivity. Qed.

Lemma lstrip_by_idem (f : ascii -> bool) (s : str) :
  lstrip_by f (lstrip_by f s) = lstrip_by f s.
Proof.
  apply lstrip_by_fixed. destruct (lstrip_by f s) as [|c r] eqn:E; [exact I|].
  exact (lstrip_by_head f s c r E).
Qed.

Lemma rstrip_by_split (f : ascii -> bool) (s : str) :
  exists suf, s = rstrip_by f s ++ suf /\ forallb f suf = true.
Proof.
  unfold rstrip_by. destruct (lstrip_by_split f (rev s)) as (pre & E & Hp).
  exists (rev pre). split.
  - rewrite <- rev_app_distr, <- E, rev_involutive. reflexivity.
  - apply forallb_forall. intros c Hc. apply in_rev in Hc.
    rewrite forallb_forall in Hp. exact (Hp c Hc).
Qed.

Lemma rstrip_by_idem (f : ascii -> bool) (s : str) :
  rstrip_by f (rstrip_by f s) = rstrip_by f s.
Proof. unfold rstrip_by. rewrite rev_involutive, lstrip_by_idem. reflexivity. Qed.

Lemma lstrip_rstrip_fixed (f : ascii -> bool) (x : str) :
  lstrip_by f x = x -> lstrip_by f (rstrip_by f x) = rstrip_by f x.
Proof.
  intros Hx. apply lstrip_by_fixed.
  destruct (rstrip_by f x) as [|d r] eqn:Er; [exact I|].
  destruct (rstrip_by_split f x) as (suf & E & _). rewrite Er in E.
  rewrite E in Hx. cbn [app] in Hx.
  exact (lstrip_by_head f _ d _ Hx).
Qed.

Lemma strip_by_trimmed (f : ascii -> bool) (s : str) : trimmed f (strip_by f s).
Proof.
  unfold trimmed, strip_by. split.
  - apply lstrip_rstrip_fixed, lstrip_by_idem.
  - apply rstrip_by_idem.
Qed.

Lemma trimmed_strip_by (f : ascii -> bool) (s : str) :
  trimmed f s -> strip_by f s = s.
Proof. intros [H1 H2]. unfold strip_by. rewrite H1. exact H2. Qed.

Lemma strip_by_idem (f : ascii -> bool) (s : str) :
  strip_by f (strip_by f s) = strip_by f s.
Proof. apply trimmed_strip_by, strip_by_trimmed. Qed.

Lemma strip_idem (s : str) : strip (strip s) = strip s.
Proof. apply strip_by_idem. Qed.

(** ** Lists of names *)

Lemma dedupe_fixed (l : list str) :
  NoDup l -> Forall (fun x => x <> [] /\ strip x = x) l -> dedupe l = l.
Proof.
  induction l as [|x l IH] using rev_ind; intros Hnd Hall; [reflexivity|].
  apply Forall_app in Hall. destruct Hall as [Hl Hx].
  inversion Hx as [|? ? [Hne Hs] _]. subst.
  apply NoDup_remove in Hnd. rewrite app_nil_r in Hnd.
  destruct Hnd as [Hnd Hnin].
  rewrite dedupe_snoc, IH by assumption. f_equal.
  rewrite Hs.
  assert (Hmap : map strip l = l).
  { rewrite <- (map_id l) at 2. apply map_ext_in. intros y Hy.
    rewrite Forall_forall in Hl. exact (proj2 (Hl y Hy)). }
  rewrite Hmap, (mem_false x l Hnin).
  destruct x; [contradiction|reflexivity].
Qed.

Lemma dedupe_items (l : list str) :
  Forall (fun y => y <> [] /\ strip y = y) (dedupe l).
Proof.
  apply Forall_forall. intros y Hy. apply dedupe_in in Hy.
  destruct Hy as [Hne Hy]. split; [exact Hne|].
  apply in_map_iff in Hy. destruct Hy as (x & E & _). subst y.
  apply strip_idem.
Qed.

(** [dedupe] returns names without duplicates, none of them empty or with
    blanks around it: the non-empty trimmed texts of the items. Applying it
    again changes nothing. *)
Theorem dedupe_is_canonical (items : list str) :
  NoDup (dedupe items)
  /\ (forall y, In y (dedupe items)
                <-> y <> [] /\ exists x, In x items /\ strip x = y)
  /\ Forall (fun y => strip y = y) (dedupe items)
  /\ dedupe (dedupe items) = dedupe items.
Proof.
  split; [apply dedupe_nodup|]. split; [|split].
  - intros y. rewrite dedupe_in, in_map_iff.
    split; intros [H1 (x & H2 & H3)]; (split; [exact H1|]); exists x; auto.
  - eapply Forall_impl; [|apply dedupe_items]. intros y [_ H]. exact H.
  - apply dedupe_fixed; [apply dedupe_nodup|apply dedupe_items].
Qed.

Lemma normalize_list_fixed (rt : runtime) :
  forall v, dedupe (normalize_list rt v) = normalize_list rt v.
Proof.
  assert (Hd : forall l, dedupe (dedupe l) = dedupe l).
  { intros l. apply dedupe_fixed; [apply dedupe_nodup|apply dedupe_items]. }
  fix IH 1. intros v. destruct v as [|b|z|f|s|l|d|dt];
    try (cbn [normalize_list]; apply Hd); try reflexivity.
  - cbn [normalize_list].
    destruct (str_empty (strip s)); [reflexivity|].
    destruct (startswith (strip s) (py "[") && endswith (strip s) (py "]"));
      [|apply Hd].
    destruct (str_empty (strip (strip_ends (strip s)))); [reflexivity|apply Hd].
  - cbn [normalize_list].
    set (name_of := fix name_of (l : list (str * value)) : option (list str) :=
           match l with
           | [] => None
           | (k, x) :: l' =>
               if str_eqb (py "name") k then Some (normalize_list rt x)
               else name_of l'
           end).
    assert (Hn : forall r, name_of d = Some r -> dedupe r = r).
    { clear -IH. revert d.
      fix IHd 1. intros d r. destruct d as [|[k x] d']; cbn [name_of].
      - discriminate.
      - destruct (str_eqb (py "name") k).
        + intros E. injection E as E. subst r. apply IH.
        + apply IHd. }
    destruct (name_of d) as [r|] eqn:E; [exact (Hn r eq_refl)|apply Hd].
Qed.

(** The names that [normalize_list] returns are those of [dedupe]: without
    duplicates, none of them empty or with blanks around it; the [dedupe]
    of [build_sql] leaves them as they are. *)
Theorem normalize_list_is_canonical (rt : runtime) (v : value) :
  dedupe (normalize_list rt v) = normalize_list rt v
  /\ NoDup (normalize_list rt v)
  /\ Forall (fun y => y <> [] /\ strip y = y) (normalize_list rt v).
Proof.
  assert (E := normalize_list_fixed rt v).
  split; [exact E|]. rewrite <- E.
  split; [apply dedupe_nodup|apply dedupe_items].
Qed.

Lemma normalize_status_in (rt : runtime) (meta : list (str * value)) :
  In (normalize_status rt meta) statuses.
Proof.
  unfold normalize_status.
  match goal with
  | |- In (if mem ?s ?l then _ else _) _ => destruct (mem s l) eqn:E
  end.
  - apply mem_in in E. exact E.
  - destruct (meta_get meta (py "draft")) as [|[]| | | | | |];
      destruct (meta_get meta (py "published")) as [|[]| | | | | |];
      cbn; auto.
Qed.

(** The status of a post is one of the five that Typecho knows, whatever
    the metadata hold; [build_sql] writes it as it is. *)
Theorem normalize_status_is_known (rt : runtime) (meta : list (str * value)) :
  In (normalize_status rt meta) statuses
  /\ (if mem (normalize_status rt meta) statuses
      then normalize_status rt meta else py "publish")
     = normalize_status rt meta.
Proof.
  assert (H := normalize_status_in rt meta).
  split; [exact H|]. apply mem_in in H. rewrite H. reflexivity.
Qed.

(** ** Slugs are fixed points *)

Lemma lstrip_by_none (f : ascii -> bool) (s : str) :
  (forall c, In c s -> f c = false) -> lstrip_by f s = s.
Proof.
  intros H. apply lstrip_by_fixed. destruct s as [|c s]; [exact I|].
  apply H. left. reflexivity.
Qed.

Lemma strip_by_none (f : ascii -> bool) (s : str) :
  (forall c, In c s -> f c = false) -> strip_by f s = s.
Proof.
  intros H. unfold strip_by, rstrip_by.
  rewrite (lstrip_by_none f s H), lstrip_by_none.
  - apply rev_involutive.
  - intros c Hc. apply H. apply in_rev. exact Hc.
Qed.

Lemma sub_runs_none (f : ascii -> bool) (rep : str) (b : bool) (s : str) :
  (forall c, In c s -> f c = false) -> sub_runs f rep b s = s.
Proof.
  revert b. induction s as [|c s IH]; intros b H; [reflexivity|].
  cbn [sub_runs]. rewrite (H c (or_introl eq_refl)).
  rewrite IH; [reflexivity|]. intros d Hd. apply H. right. exact Hd.
Qed.

Lemma filter_all {A : Type} (f : A -> bool) (l : list A) :
  (forall x, In x l -> f x = true) -> filter f l = l.
Proof.
  induction l as [|x l IH]; intros H; [reflexivity|].
  cbn [filter]. rewrite (H x (or_introl eq_refl)), IH; [reflexivity|].
  intros y Hy. apply H. right. exact Hy.
Qed.

Lemma is_hyphen_eq (c : ascii) : is_hyphen c = true -> c = "-"%char.
Proof. unfold is_hyphen. intros H. apply Ascii.eqb_eq in H. exact H. Qed.

Lemma single_hyphens_cons (c d : ascii) (r : str) :
  single_hyphens (c :: d :: r)
  = negb (is_hyphen c && is_hyphen d) && single_hyphens (d :: r).
Proof. reflexivity. Qed.

Lemma sub_runs_single (s : str) (b : bool) :
  single_hyphens (sub_runs is_hyphen (py "-") b s) = true
  /\ (b = true -> starts_with_hyphen (sub_runs is_hyphen (py "-") b s) = false).
Proof.
  revert b. induction s as [|c s IH]; intros b; [split; reflexivity|].
  cbn [sub_runs]. destruct (is_hyphen c) eqn:Ec.
  - destruct (IH true) as [H1 H2]. specialize (H2 eq_refl).
    destruct b; cbn [app]; [split; [exact H1|intros _; exact H2]|].
    split; [|discriminate].
    change (py "-" ++ sub_runs is_hyphen (py "-") true s)
      with ("-"%char :: sub_runs is_hyphen (py "-") true s).
    destruct (sub_runs is_hyphen (py "-") true s) as [|d r] eqn:E;
      [reflexivity|].
    rewrite single_hyphens_cons. cbn [starts_with_hyphen] in H2.
    rewrite H2, andb_false_r. exact H1.
  - destruct (IH false) as [H1 _]. split.
    + destruct (sub_runs is_hyphen (py "-") false s) as [|d r] eqn:E;
        [reflexivity|].
      rewrite single_hyphens_cons, Ec. exact H1.
    + intros _. cbn [starts_with_hyphen]. exact Ec.
Qed.

Lemma single_hyphens_fixed (s : str) (b : bool) :
  single_hyphens s = true ->
  (b = true -> starts_with_hyphen s = false) ->
  sub_runs is_hyphen (py "-") b s = s.
Proof.
  revert b. induction s as [|c s IH]; intros b Hs Hb; [reflexivity|].
  cbn [sub_runs]. destruct (is_hyphen c) eqn:Ec.
  - destruct b; [specialize (Hb eq_refl); cbn in Hb; congruence|].
    apply is_hyphen_eq in Ec as Ec'. subst c.
    rewrite IH; [reflexivity| |].
    + destruct s as [|d r]; [reflexivity|].
      rewrite single_hyphens_cons in Hs. apply andb_true_iff in Hs. apply Hs.
    + intros _. destruct s as [|d r]; [reflexivity|].
      rewrite single_hyphens_cons in Hs. apply andb_true_iff in Hs.
      destruct Hs as [Hs _]. change (is_hyphen "-") with true in Hs.
      cbn [andb negb] in Hs.
      cbn [starts_with_hyphen]. destruct (is_hyphen d); [discriminate Hs|reflexivity].
  - rewrite IH; [reflexivity| |discriminate].
    destruct s as [|d r]; [reflexivity|].
    rewrite single_hyphens_cons in Hs. apply andb_true_iff in Hs. apply Hs.
Qed.

Lemma single_hyphens_app (a b : str) :
  single_hyphens (a ++ b) = true ->
  single_hyphens a = true /\ single_hyphens b = true.
Proof.
  induction a as [|c a IH]; intros H; [split; [reflexivity|exact H]|].
  destruct a as [|d a'].
  - split; [reflexivity|]. cbn [app] in H. destruct b as [|e b']; [reflexivity|].
    rewrite single_hyphens_cons in H. apply andb_true_iff in H. apply H.
  - cbn [app] in H. rewrite single_hyphens_cons in H. apply andb_true_iff in H.
    destruct H as [H1 H2]. destruct (IH H2) as [Ha Hb].
    split; [|exact Hb]. rewrite single_hyphens_cons, H1. exact Ha.
Qed.

Lemma strip_by_single (f : ascii -> bool) (s : str) :
  single_hyphens s = true -> single_hyphens (strip_by f s) = true.
Proof.
  intros H. unfold strip_by.
  destruct (lstrip_by_split f s) as (pre & E & _).
  rewrite E in H. apply single_hyphens_app in H. destruct H as [_ H].
  destruct (rstrip_by_split f (lstrip_by f s)) as (suf & E' & _).
  rewrite E' in H. apply single_hyphens_app in H. apply H.
Qed.

Lemma kept_char_is_slug_letter (c0 : ascii) :
  (is_word (lower_char c0) || is_space (lower_char c0)
   || is_hyphen (lower_char c0)) = true ->
  (is_space (lower_char c0) || (lower_char c0 =? "_")%char) = false ->
  is_hyphen (lower_char c0) = false ->
  slug_letter (lower_char c0) = true.
Proof.
  destruct c0 as [[] [] [] [] [] [] [] []]; vm_compute; intros H1 H2 H3;
    first [reflexivity | discriminate H1 | discriminate H2 | discriminate H3].
Qed.

Lemma slugify_letters (t : str) (c : ascii) :
  In c (slugify t) -> is_hyphen c = true \/ slug_letter c = true.
Proof.
  unfold slugify, or_else. intros Hc.
  match type of Hc with
  | In c (match ?v with [] => _ | _ :: _ => _ end) =>
      destruct v as [|a v'] eqn:Ev
  end.
  - destruct Hc as [H|[H|[H|[H|[]]]]]; subst c; right; reflexivity.
  - rewrite <- Ev in Hc. apply strip_by_in in Hc.
    apply sub_runs_in in Hc.
    destruct Hc as [[H|[]]|[Hc Hh]]; [subst c; left; reflexivity|].
    apply sub_runs_in in Hc.
    destruct Hc as [[H|[]]|[Hc Hs]]; [subst c; left; reflexivity|].
    apply filter_In in Hc. destruct Hc as [Hc Hk].
    unfold lower in Hc. apply in_map_iff in Hc.
    destruct Hc as (c0 & E & _). subst c.
    right. apply kept_char_is_slug_letter; assumption.
Qed.

Lemma slug_char_facts (c : ascii) :
  is_hyphen c = true \/ slug_letter c = true ->
  is_space c = false /\ lower_char c = c
  /\ (is_word c || is_space c || is_hyphen c) = true
  /\ (is_space c || (c =? "_")%char) = false.
Proof.
  destruct c as [[] [] [] [] [] [] [] []]; vm_compute;
    intros [H|H]; try discriminate H; repeat split; reflexivity.
Qed.

Lemma char_in_hyphen (c : ascii) : char_in (py "-") c = is_hyphen c.
Proof. unfold char_in, is_hyphen. cbn [py existsb String.list_ascii_of_string]. apply orb_false_r. Qed.

(** A slug is a fixed point of [slugify]: making a slug of a slug changes
    nothing. In a slug no two hyphens follow each other and no hyphen
    stands at either end. *)
Theorem slugify_idempotent (text : str) :
  slugify (slugify text) = slugify text
  /\ single_hyphens (slugify text) = true
  /\ trimmed (char_in (py "-")) (slugify text).
Proof.
  assert (Hs : single_hyphens (slugify text) = true).
  { unfold slugify, or_else.
    match goal with
    | |- single_hyphens (match ?v with [] => _ | _ :: _ => _ end) = true =>
        destruct v as [|a v'] eqn:Ev
    end; [reflexivity|].
    rewrite <- Ev. apply strip_by_single. apply sub_runs_single. }
  assert (Ht : trimmed (char_in (py "-")) (slugify text)).
  { unfold slugify, or_else.
    match goal with
    | |- trimmed _ (match ?v with [] => _ | _ :: _ => _ end) =>
        destruct v as [|a v'] eqn:Ev
    end; [split; reflexivity|].
    rewrite <- Ev. apply strip_by_trimmed. }
  split; [|split; assumption].
  assert (Hc := slugify_letters text).
  assert (Hne := slugify_nonempty text).
  set (s := slugify text) in *.
  assert (Hf : forall c, In c s ->
            is_space c = false /\ lower_char c = c
            /\ (is_word c || is_space c || is_hyphen c) = true
            /\ (is_space c || (c =? "_")%char) = false).
  { intros c H. apply slug_char_facts, Hc, H. }
  unfold slugify.
  assert (E1 : strip s = s).
  { apply strip_by_none. intros c H. apply (Hf c H). }
  assert (E2 : lower s = s).
  { unfold lower. rewrite <- (map_id s) at 2. apply map_ext_in.
    intros c H. apply (Hf c H). }
  rewrite E1, E2.
  rewrite (filter_all _ s) by (intros c H; apply (Hf c H)).
  rewrite (sub_runs_none _ _ false s) by (intros c H; apply (Hf c H)).
  rewrite (single_hyphens_fixed s false Hs) by discriminate.
  unfold strip_chars. rewrite (trimmed_strip_by _ s Ht).
  destruct s; [contradiction|reflexivity].
Qed.

(** ** Table prefix and row text *)

Lemma lstrip_fixed_app (f : ascii -> bool) (s t : str) :
  s <> [] -> lstrip_by f s = s -> lstrip_by f (s ++ t) = s ++ t.
Proof.
  intros Hne H. destruct s as [|c s]; [contradiction|].
  apply lstrip_by_fixed. cbn [app]. exact (lstrip_by_head f _ c s H).
Qed.

Lemma rstrip_fixed_app (f : ascii -> bool) (s t : str) :
  t <> [] -> rstrip_by f t = t -> rstrip_by f (s ++ t) = s ++ t.
Proof.
  intros Hne H. unfold rstrip_by in *. rewrite rev_app_distr.
  assert (Hr : lstrip_by f (rev t) = rev t).
  { rewrite <- (rev_involutive (lstrip_by f (rev t))), H. reflexivity. }
  rewrite lstrip_fixed_app; [rewrite <- rev_app_distr; apply rev_involutive| |exact Hr].
  intro E. apply Hne. rewrite <- (rev_involutive t), E. reflexivity.
Qed.

Lemma trimmed_app (f : ascii -> bool) (s t : str) :
  s <> [] -> t <> [] -> lstrip_by f s = s -> rstrip_by f t = t ->
  trimmed f (s ++ t).
Proof.
  intros Hs Ht H1 H2. split;
    [apply lstrip_fixed_app|apply rstrip_fixed_app]; assumption.
Qed.

Lemma endswith_app (s p : str) : endswith (s ++ p) p = true.
Proof. unfold endswith. rewrite rev_app_distr. apply startswith_app. Qed.

(** The table prefix that [build_sql] uses is never empty, ends with an
    underscore and has no blanks around it; normalizing it again changes
    nothing. *)
Theorem normalize_prefix_is_canonical (prefix : str) :
  endswith (normalize_prefix prefix) (py "_") = true
  /\ strip (normalize_prefix prefix) = normalize_prefix prefix
  /\ normalize_prefix (normalize_prefix prefix) = normalize_prefix prefix.
Proof.
  assert (H : endswith (normalize_prefix prefix) (py "_") = true
              /\ strip (normalize_prefix prefix) = normalize_prefix prefix).
  { unfold normalize_prefix.
    destruct (str_empty (strip prefix)) eqn:Ee; [split; reflexivity|].
    destruct (endswith (strip prefix) (py "_")) eqn:Eu.
    - split; [exact Eu|apply strip_idem].
    - split; [apply endswith_app|].
      apply trimmed_strip_by.
      destruct (strip_by_trimmed is_space prefix) as [H1 _].
      apply trimmed_app; [|discriminate|exact H1|reflexivity].
      intro E. unfold strip in E, Ee. rewrite E in Ee. discriminate Ee. }
  destruct H as [H1 H2]. split; [exact H1|]. split; [exact H2|].
  unfold normalize_prefix at 1. rewrite H2, H1.
  destruct (normalize_prefix prefix) eqn:E; [|reflexivity].
  discriminate H1.
Qed.

(** The text of a content row starts with the marker by which Typecho
    knows Markdown and has no blanks around it; a text that [compose_text]
    made is left as it is when it is composed again without an excerpt, so
    the marker is not written twice. *)
Theorem compose_text_has_marker (content excerpt : str) :
  startswith (compose_text content excerpt) (py "<!--markdown-->") = true
  /\ strip (compose_text content excerpt) = compose_text content excerpt
  /\ compose_text (compose_text content excerpt) []
     = compose_text content excerpt.
Proof.
  assert (Hm : startswith (compose_text content excerpt) (py "<!--markdown-->")
               = true).
  { unfold compose_text.
    match goal with
    | |- startswith (if startswith ?m _ then _ else _) _ = true =>
        destruct (startswith m (py "<!--markdown-->")) eqn:E
    end; [exact E|apply startswith_app]. }
  assert (Ht : trimmed is_space (compose_text content excerpt)).
  { unfold compose_text.
    destruct (strip_by_trimmed is_space content) as [Hb1 Hb2].
    destruct (strip_by_trimmed is_space excerpt) as [Hs1 Hs2].
    fold (strip content) in Hb1, Hb2. fold (strip excerpt) in Hs1, Hs2.
    set (body := strip content) in *. set (summary := strip excerpt) in *.
    assert (Hmerged :
      trimmed is_space
        (if str_empty summary then body
         else if contains body (py "<!--more-->") then body
         else if str_empty body then summary
         else summary ++ [LF; LF] ++ py "<!--more-->" ++ [LF; LF] ++ body)).
    { destruct (str_empty summary) eqn:E1; [split; assumption|].
      destruct (contains body (py "<!--more-->")); [split; assumption|].
      destruct (str_empty body) eqn:E2; [split; assumption|].
      split.
      - apply lstrip_fixed_app; [|exact Hs1].
        intro E. rewrite E in E1. discriminate E1.
      - rewrite !app_assoc. apply rstrip_fixed_app; [|exact Hb2].
        intro E. rewrite E in E2. discriminate E2. }
    match goal with
    | |- trimmed _ (if startswith ?m _ then _ else _) =>
        set (merged := m) in *;
        destruct (startswith merged (py "<!--markdown-->"))
    end; [exact Hmerged|].
    destruct merged as [|c merged'] eqn:Em.
    - split; reflexivity.
    - destruct Hmerged as [_ Hr]. split.
      + reflexivity.
      + apply rstrip_fixed_app; [discriminate|exact Hr]. }
  assert (Hs : strip (compose_text content excerpt)
               = compose_text content excerpt)
    by (apply trimmed_strip_by; exact Ht).
  split; [exact Hm|]. split; [exact Hs|].
  unfold compose_text at 1.
  change (strip []) with (@nil ascii). cbn [str_empty].
  rewrite Hs, Hm. reflexivity.
Qed.

(** ** Escaping underscores *)

Lemma backslash_run_next (pre rest : str) (ch : ascii) :
  backslash_run (pre ++ ch :: rest) (S (length pre))
  = if (ch =? "\")%char
    then S (backslash_run (pre ++ ch :: rest) (length pre))
    else 0.
Proof. cbn [backslash_run]. rewrite nth_middle. reflexivity. Qed.

Lemma escape_loop_scan (rest pre : str) :
  escape_loop (pre ++ rest) (length pre) rest
  = escape_from (is_escaped_at (pre ++ rest) (length pre)) rest.
Proof.
  revert pre. induction rest as [|ch rest IH]; intros pre; [reflexivity|].
  cbn [escape_loop escape_from].
  assert (E : pre ++ ch :: rest = (pre ++ [ch]) ++ rest)
    by (rewrite <- app_assoc; reflexivity).
  assert (El : S (length pre) = length (pre ++ [ch]))
    by (rewrite length_app; simpl; lia).
  assert (Hnext : is_escaped_at (pre ++ ch :: rest) (S (length pre))
                  = if (ch =? "\")%char
                    then negb (is_escaped_at (pre ++ ch :: rest) (length pre))
                    else false).
  { unfold is_escaped_at. rewrite backslash_run_next.
    destruct (ch =? "\")%char; [|reflexivity].
    rewrite Nat.odd_succ, <- Nat.negb_odd. reflexivity. }
  assert (Hrec : escape_loop (pre ++ ch :: rest) (S (length pre)) rest
                 = escape_from
                     (is_escaped_at (pre ++ ch :: rest) (S (length pre))) rest).
  { rewrite E, El. apply IH. }
  rewrite Hrec, Hnext.
  destruct (Ascii.eqb_spec ch "_") as [Eu|Eu].
  - subst ch. change ("_" =? "\")%char with false. cbv iota.
    destruct (is_escaped_at (pre ++ "_"%char :: rest) (length pre));
      reflexivity.
  - cbn [andb app]. destruct (ch =? "\")%char; reflexivity.
Qed.

Lemma escape_scan (x : str) : escape_math_underscores x = escape_from false x.
Proof. exact (escape_loop_scan x []). Qed.

Lemma escape_from_idem (x : str) (o : bool) :
  escape_from o (escape_from o x) = escape_from o x.
Proof.
  revert o. induction x as [|ch x IH]; intros o; [reflexivity|].
  cbn [escape_from].
  destruct (Ascii.eqb_spec ch "_") as [Eu|Eu].
  - subst ch. destruct o; cbn [app escape_from].
    + change ("_" =? "_")%char with true. cbv iota. cbn [app].
      rewrite IH. reflexivity.
    + change ("\" =? "_")%char with false. change ("\" =? "\")%char with true.
      cbv iota. cbn [negb escape_from].
      change ("_" =? "_")%char with true. cbv iota. cbn [app].
      rewrite IH. reflexivity.
  - destruct (ch =? "\")%char eqn:Eb; cbn [escape_from].
    + apply Ascii.eqb_neq in Eu. rewrite Eu, Eb, IH. reflexivity.
    + apply Ascii.eqb_neq in Eu. rewrite Eu, Eb, IH. reflexivity.
Qed.

Lemma escape_from_all_escaped (x : str) (o : bool) :
  all_escaped o (escape_from o x) = true.
Proof.
  revert o. induction x as [|ch x IH]; intros o; [reflexivity|].
  cbn [escape_from].
  destruct (Ascii.eqb_spec ch "_") as [Eu|Eu].
  - subst ch. destruct o; cbn [app all_escaped].
    + change ("_" =? "_")%char with true. cbv iota. cbn [andb]. apply IH.
    + change ("\" =? "_")%char with false. change ("\" =? "\")%char with true.
      cbv iota. cbn [negb all_escaped].
      change ("_" =? "_")%char with true. cbv iota. cbn [andb]. apply IH.
  - apply Ascii.eqb_neq in Eu.
    destruct (ch =? "\")%char eqn:Eb; cbn [all_escaped]; rewrite Eu, Eb;
      apply IH.
Qed.

Lemma all_escaped_at (y pre : str) (i : nat) :
  all_escaped (is_escaped_at (pre ++ y) (length pre)) y = true ->
  nth_error y i = Some "_"%char ->
  is_escaped_at (pre ++ y) (length pre + i) = true.
Proof.
  revert pre i. induction y as [|ch y IH]; intros pre i Ha Hn.
  - destruct i; discriminate Hn.
  - assert (E : pre ++ ch :: y = (pre ++ [ch]) ++ y)
      by (rewrite <- app_assoc; reflexivity).
    assert (El : S (length pre) = length (pre ++ [ch]))
      by (rewrite length_app; simpl; lia).
    assert (Hnext : is_escaped_at (pre ++ ch :: y) (S (length pre))
                    = if (ch =? "\")%char
                      then negb (is_escaped_at (pre ++ ch :: y) (length pre))
                      else false).
    { unfold is_escaped_at. rewrite backslash_run_next.
      destruct (ch =? "\")%char; [|reflexivity].
      rewrite Nat.odd_succ, <- Nat.negb_odd. reflexivity. }
    cbn [all_escaped] in Ha.
    destruct i as [|i].
    + cbn [nth_error] in Hn. injection Hn as Hn. subst ch.
      change ("_" =? "_")%char with true in Ha. cbv iota in Ha.
      apply andb_true_iff in Ha. rewrite Nat.add_0_r. apply Ha.
    + cbn [nth_error] in Hn.
      replace (length pre + S i) with (length (pre ++ [ch]) + i)
        by (rewrite length_app; simpl; lia).
      rewrite E. apply IH; [|exact Hn].
      rewrite <- E, <- El, Hnext.
      destruct (ch =? "_")%char eqn:Eu.
      * apply Ascii.eqb_eq in Eu. subst ch.
        change ("_" =? "\")%char with false. cbv iota.
        apply andb_true_iff in Ha. apply Ha.
      * destruct (ch =? "\")%char; exact Ha.
Qed.

(** After [escape_math_underscores] every underscore is escaped: an odd
    number of backslashes stands before it. Escaping again changes
    nothing. *)
Theorem escape_math_underscores_idempotent (x : str) :
  escape_math_underscores (escape_math_underscores x)
  = escape_math_underscores x
  /\ forall i, nth_error (escape_math_underscores x) i = Some "_"%char ->
               is_escaped_at (escape_math_underscores x) i = true.
Proof.
  split.
  - rewrite !escape_scan. apply escape_from_idem.
  - intros i Hi.
    apply (all_escaped_at (escape_math_underscores x) [] i); [|exact Hi].
    cbn [app length]. rewrite escape_scan.
    apply (escape_from_all_escaped x false).
Qed.

(** ** Texts without math *)

Lemma no_markup_in (s : str) (c : ascii) :
  no_markup s -> In c s ->
  (c =? "`")%char = false /\ (c =? "~")%char = false
  /\ (c =? "$")%char = false /\ (c =? "\")%char = false.
Proof.
  unfold no_markup. rewrite forallb_forall. intros H Hc.
  specialize (H c Hc). unfold no_markup_char in H.
  rewrite negb_true_iff, !orb_false_iff in H. tauto.
Qed.

Lemma no_markup_no_fence_run (s : str) : no_markup s -> no_fence_run s = true.
Proof.
  induction s as [|c s IH]; intros H; [reflexivity|].
  destruct (no_markup_in (c :: s) c H (or_introl eq_refl)) as (H1 & H2 & _).
  cbn [no_fence_run]. rewrite H1, H2. cbn [negb andb]. apply IH.
  unfold no_markup in *. cbn [forallb] in H. apply andb_true_iff in H. apply H.
Qed.

(** A text without backtick, tilde, dollar sign and backslash has no
    code and no math: [normalize_mathjax_underscores] returns it as it is in
    every mode, underscores included. *)
Theorem text_without_math_is_kept (mode markdown : str) :
  no_markup markdown ->
  normalize_mathjax_underscores mode markdown = markdown.
Proof.
  intros H. unfold normalize_mathjax_underscores.
  destruct (str_eqb mode (py "keep") || str_empty markdown); [reflexivity|].
  rewrite (mask_fenced_no_fence markdown 0 (no_markup_no_fence_run _ H)).
  unfold mask_inline_code_spans.
  rewrite (mask_inline_skip_end markdown [] 0)
    by (intros c Hc; apply (no_markup_in markdown c H Hc)).
  cbn [dict_update fold_left].
  unfold protect_math, re_sub.
  assert (Hd : forall c, In c markdown -> (c =? "$")%char = false)
    by (intros c Hc; apply (no_markup_in markdown c H Hc)).
  assert (Hb : forall c, In c markdown -> (c =? "\")%char = false)
    by (intros c Hc; apply (no_markup_in markdown c H Hc)).
  rewrite (re_sub_skip_end DISPLAY_DOLLAR_RE _ markdown None _
             (dead_of_not _ _ _ dead_display Hd)).
  rewrite (re_sub_skip_end BRACKET_MATH_RE _ markdown None _
             (dead_of_not _ _ _ dead_bracket Hb)).
  rewrite (re_sub_skip_end PAREN_MATH_RE _ markdown None _
             (dead_of_not _ _ _ dead_paren Hb)).
  cbn [snd].
  rewrite (re_sub_skip_end INLINE_DOLLAR_RE _ markdown None _
             (dead_of_not _ _ _ dead_inline Hd)).
  reflexivity.
Qed.

Lemma text_without_math_is_kept_witness :
  normalize_mathjax_underscores (py "escaped") (py "snake_case and a_b")
  = py "snake_case and a_b".
Proof. apply text_without_math_is_kept. reflexivity. Defined.


(** ** URLs *)

Lemma span_spec (f : ascii -> bool) (s a b : str) :
  span f s = (a, b) ->
  s = a ++ b /\ forallb f a = true
  /\ match b with [] => True | c :: _ => f c = false end.
Proof.
  revert a b. induction s as [|c s IH]; intros a b H; cbn [span] in H.
  - injection H as <- <-. repeat split.
  - destruct (f c) eqn:Ec.
    + destruct (span f s) as [a' b'] eqn:Es. injection H as <- <-.
      destruct (IH a' b' eq_refl) as (E & Ha & Hb).
      cbn [app forallb]. rewrite Ec, Ha, <- E. repeat split. exact Hb.
    + injection H as <- <-. repeat split. exact Ec.
Qed.

Lemma span_all (f : ascii -> bool) (a b : str) :
  forallb f a = true ->
  match b with [] => True | c :: _ => f c = false end ->
  span f (a ++ b) = (a, b).
Proof.
  intros Ha Hb. induction a as [|c a IH]; cbn [app span].
  - destruct b as [|d b]; [reflexivity|]. cbn [span]. rewrite Hb. reflexivity.
  - cbn [forallb] in Ha. apply andb_true_iff in Ha. destruct Ha as [Hc Ha].
    rewrite Hc, (IH Ha). reflexivity.
Qed.

Lemma split_url_and_suffix_app (url : str) :
  fst (split_url_and_suffix url) ++ snd (split_url_and_suffix url) = url.
Proof.
  unfold split_url_and_suffix. destruct (span _ url) as [a b] eqn:E.
  destruct (span_spec _ url a b E) as (Eu & _). symmetry. exact Eu.
Qed.

(** A URL is cut at its first question mark or hash sign: the two parts
    make the URL again, the path holds neither sign, and the suffix is
    empty or starts with one of them. *)
Theorem split_url_and_suffix_parts (url : str) :
  fst (split_url_and_suffix url) ++ snd (split_url_and_suffix url) = url
  /\ (forall c, In c (fst (split_url_and_suffix url)) ->
                c <> "?"%char /\ c <> "#"%char)
  /\ (snd (split_url_and_suffix url) = []
      \/ startswith (snd (split_url_and_suffix url)) (py "?") = true
      \/ startswith (snd (split_url_and_suffix url)) (py "#") = true).
Proof.
  unfold split_url_and_suffix.
  destruct (span _ url) as [a b] eqn:E.
  destruct (span_spec _ url a b E) as (Eu & Ha & Hb). cbn [fst snd].
  split; [symmetry; exact Eu|]. split.
  - intros c Hc. rewrite forallb_forall in Ha. specialize (Ha c Hc).
    apply andb_true_iff in Ha. destruct Ha as [H1 H2].
    apply negb_true_iff in H1, H2. apply Ascii.eqb_neq in H1, H2. auto.
  - destruct b as [|c b]; [left; reflexivity|right].
    apply andb_false_iff in Hb. rewrite !negb_false_iff in Hb.
    destruct Hb as [Hb|Hb]; apply Ascii.eqb_eq in Hb; subst c;
      [left|right]; reflexivity.
Qed.

(** The query string and the fragment of a URL are kept when the URL is
    rewritten. *)
Theorem rewritten_url_keeps_suffix
  (url asset_dir_name asset_url_prefix rewritten : str) :
  rewrite_relative_asset_url url asset_dir_name asset_url_prefix
  = Some rewritten ->
  exists base,
    base <> []
    /\ rewritten = base ++ snd (split_url_and_suffix (strip url)).
Proof.
  unfold rewrite_relative_asset_url.
  destruct (negb (is_relative_url url)); [discriminate|].
  destruct (split_url_and_suffix (strip url)) as [path_part suffix].
  cbn [snd].
  destruct (startswith _ (py "../")); [discriminate|].
  destruct (str_empty (lstrip_chars _ _)); [discriminate|].
  destruct (filter _ _) as [|first_seg rel]; [discriminate|].
  match goal with
  | |- (if str_empty ?r then _ else _) = _ -> _ => destruct r as [|c r'] eqn:Er
  end; [discriminate|].
  cbn [str_empty]. intros E. injection E as E. subst rewritten.
  exists (c :: r'). split; [discriminate|reflexivity].
Qed.

Lemma rewritten_url_keeps_suffix_witness :
  rewrite_relative_asset_url (py "img/a b.png?v=1#top") (py "post")
                             (py "/hexo-assets")
  = Some (py "/hexo-assets/post/img/a%20b.png?v=1#top")
  /\ exists base,
       base <> []
       /\ py "/hexo-assets/post/img/a%20b.png?v=1#top"
          = base ++ snd (split_url_and_suffix (strip (py "img/a b.png?v=1#top"))).
Proof.
  split; [reflexivity|].
  exact (rewritten_url_keeps_suffix (py "img/a b.png?v=1#top") (py "post")
           (py "/hexo-assets") _ eq_refl).
Defined.

Lemma lstrip_by_app_fixed (f : ascii -> bool) (x y : str) :
  y <> [] -> lstrip_by f y = y -> lstrip_by f (x ++ y) = lstrip_by f x ++ y.
Proof.
  intros Hne Hy. induction x as [|c x IH]; [exact Hy|].
  cbn [app lstrip_by]. destruct (f c); [exact IH|reflexivity].
Qed.

Lemma rstrip_by_app_fixed (f : ascii -> bool) (a b : str) :
  a <> [] -> rstrip_by f a = a -> rstrip_by f (a ++ b) = a ++ rstrip_by f b.
Proof.
  intros Hne Ha. unfold rstrip_by in *. rewrite rev_app_distr.
  rewrite lstrip_by_app_fixed.
  - rewrite rev_app_distr, rev_involutive. reflexivity.
  - intro E. apply Hne. rewrite <- (rev_involutive a), E. reflexivity.
  - rewrite <- (rev_involutive (lstrip_by f (rev a))), Ha. reflexivity.
Qed.

Lemma scheme_char_not_space (c : ascii) :
  is_scheme_char c = true -> is_space c = false.
Proof.
  destruct c as [[] [] [] [] [] [] [] []]; vm_compute; intros H;
    first [reflexivity | discriminate H].
Qed.

Lemma alpha_is_scheme_char (c : ascii) :
  is_ascii_alpha c = true -> is_scheme_char c = true.
Proof. unfold is_scheme_char. intros ->. reflexivity. Qed.

Lemma alpha_not_special (c : ascii) :
  is_ascii_alpha c = true ->
  (c =? "/")%char = false /\ (c =? "#")%char = false.
Proof.
  destruct c as [[] [] [] [] [] [] [] []]; vm_compute; intros H;
    first [split; reflexivity | discriminate H].
Qed.

(** A URL that starts with a scheme, a letter followed by letters, digits,
    plus signs, dots or hyphens and then a colon, is not relative, whatever
    follows the colon: it is never rewritten. *)
Theorem url_with_scheme_is_kept (c : ascii) (s rest : str)
  (asset_dir_name asset_url_prefix : str) :
  is_ascii_alpha c = true -> forallb is_scheme_char s = true ->
  is_relative_url (c :: s ++ py ":" ++ rest) = false
  /\ rewrite_relative_asset_url (c :: s ++ py ":" ++ rest) asset_dir_name
                                asset_url_prefix = None.
Proof.
  intros Hc Hs.
  assert (H : is_relative_url (c :: s ++ py ":" ++ rest) = false).
  { unfold is_relative_url.
    assert (Hstrip : strip (c :: s ++ py ":" ++ rest)
                     = c :: s ++ py ":" ++ rstrip_by is_space rest).
    { unfold strip, strip_by.
      rewrite lstrip_by_fixed
        by (apply scheme_char_not_space, alpha_is_scheme_char, Hc).
      replace (c :: s ++ py ":" ++ rest) with ((c :: s ++ py ":") ++ rest)
        by (cbn [app]; rewrite <- app_assoc; reflexivity).
      rewrite rstrip_by_app_fixed.
      - cbn [app]. rewrite <- app_assoc. reflexivity.
      - discriminate.
      - change (c :: s ++ py ":") with ((c :: s) ++ py ":").
        apply rstrip_fixed_app; [discriminate|reflexivity]. }
    rewrite Hstrip. cbn [str_empty].
    destruct (alpha_not_special c Hc) as [H1 H2].
    cbn [existsb startswith py String.list_ascii_of_string].
    rewrite (Ascii.eqb_sym "/" c), (Ascii.eqb_sym "#" c), H1, H2.
    cbn [andb orb].
    match goal with
    | |- (if ?b then false else _) = false => destruct b; [reflexivity|]
    end.
    unfold has_scheme. rewrite Hc.
    rewrite (span_all is_scheme_char s ([":"%char] ++ rstrip_by is_space rest) Hs)
      by reflexivity.
    reflexivity. }
  split; [exact H|]. unfold rewrite_relative_asset_url. rewrite H. reflexivity.
Qed.

Lemma url_with_scheme_is_kept_witness :
  is_relative_url (py "https://example.com/a.png") = false
  /\ rewrite_relative_asset_url (py "https://example.com/a.png") (py "post")
                                (py "/hexo-assets") = None.
Proof.
  exact (url_with_scheme_is_kept "h" (py "ttps") (py "//example.com/a.png")
           (py "post") (py "/hexo-assets") eq_refl eq_refl).
Defined.

Lemma quote_char_safe (c : ascii) :
  forallb url_path_char
    (if is_unreserved c then [c] else flat_map percent_byte (utf8_bytes c))
  = true.
Proof. destruct c as [[] [] [] [] [] [] [] []]; vm_compute; reflexivity. Qed.

Lemma quote_safe (seg : str) : forallb url_path_char (quote seg) = true.
Proof.
  unfold quote. induction seg as [|c seg IH]; [reflexivity|].
  cbn [flat_map]. rewrite forallb_app, quote_char_safe, IH. reflexivity.
Qed.

Lemma join_quoted_safe (segs : list str) :
  forallb url_path_char (join (py "/") (map quote segs)) = true.
Proof.
  induction segs as [|seg segs IH]; [reflexivity|].
  cbn [map]. destruct segs as [|seg2 segs'].
  - cbn [map join]. apply quote_safe.
  - change (join (py "/") (quote seg :: map quote (seg2 :: segs')))
      with (quote seg ++ py "/" ++ join (py "/") (map quote (seg2 :: segs'))).
    rewrite !forallb_app, quote_safe, IH. reflexivity.
Qed.

(** When the prefix is a path, not a URL with a scheme or a host, the
    rewritten path is made of unreserved characters, percent escapes and
    slashes only: no blank, quote, parenthesis or angle bracket of a file
    name or of the prefix reaches the Markdown or the HTML around it. *)
Theorem join_url_prefix_is_quoted (prefix : str) (path_segments : list str) :
  has_scheme (py "://") (strip prefix) || startswith (strip prefix) (py "//")
  = false ->
  forallb url_path_char (join_url_prefix prefix path_segments) = true.
Proof.
  intros H. unfold join_url_prefix. rewrite H.
  destruct (startswith (strip prefix) (py "/")).
  - cbn [app py String.list_ascii_of_string forallb].
    rewrite join_quoted_safe. reflexivity.
  - apply join_quoted_safe.
Qed.

Lemma join_url_prefix_is_quoted_witness :
  join_url_prefix (py "/my assets/") [py "post (1)"; py "a b.png"]
  = py "/my%20assets/post%20%281%29/a%20b.png"
  /\ forallb url_path_char
       (join_url_prefix (py "/my assets/") [py "post (1)"; py "a b.png"])
     = true.
Proof.
  split; [reflexivity|].
  exact (join_url_prefix_is_quoted (py "/my assets/")
           [py "post (1)"; py "a b.png"] eq_refl).
Defined.

(** ** Images *)

Lemma no_image_start_in (s : str) (c : ascii) :
  forallb no_image_start s = true -> In c s ->
  (c =? "!")%char = false /\ (c =? "<")%char = false.
Proof.
  rewrite forallb_forall. intros H Hc. specialize (H c Hc).
  unfold no_image_start in H. apply andb_true_iff in H.
  rewrite !negb_true_iff in H. exact H.
Qed.

Lemma dead_markdown_image (c : ascii) :
  (c =? "!")%char = false -> dead MARKDOWN_IMAGE_RE c.
Proof.
  intros H prev tail. unfold MARKDOWN_IMAGE_RE.
  destruct tail as [|c2 s1]; [reflexivity|]. rewrite H. reflexivity.
Qed.

Lemma dead_html_img (c : ascii) :
  (c =? "<")%char = false -> dead HTML_IMG_SRC_RE c.
Proof.
  intros H prev tail. unfold HTML_IMG_SRC_RE.
  destruct tail as [|c2 [|c3 [|c4 r]]]; try reflexivity.
  rewrite H. reflexivity.
Qed.

Lemma re_finditer_skip_end
  (matcher : option ascii -> str -> option (list str)) (p : str)
  (prev : option ascii) :
  Forall (dead matcher) p -> re_finditer_from matcher 0 prev p = [].
Proof.
  intros Hp. revert prev. induction Hp as [|c p Hc _ IH]; intros prev;
    [reflexivity|].
  cbn [re_finditer_from]. rewrite (Hc prev p). apply IH.
Qed.

(** A text that holds no exclamation mark and no opening angle bracket has
    no image: it is returned as it is, nothing is counted and no relative
    image is reported. *)
Theorem text_without_image_is_kept
  (content : str) (asset_dir_name : option str)
  (asset_mode asset_url_prefix : str) :
  forallb no_image_start content = true ->
  rewrite_image_links content asset_dir_name asset_mode asset_url_prefix
  = (content, 0%Z)
  /\ has_relative_image_links content = false.
Proof.
  intros H.
  assert (Hm : Forall (dead MARKDOWN_IMAGE_RE) content).
  { apply Forall_forall. intros c Hc.
    apply dead_markdown_image, (no_image_start_in content c H Hc). }
  assert (Hh : Forall (dead HTML_IMG_SRC_RE) content).
  { apply Forall_forall. intros c Hc.
    apply dead_html_img, (no_image_start_in content c H Hc). }
  split.
  - unfold rewrite_image_links.
    destruct (negb (str_eqb asset_mode (py "prefix"))); [reflexivity|].
    destruct asset_dir_name as [[|d dir]|]; try reflexivity.
    unfold re_sub. rewrite (re_sub_skip_end MARKDOWN_IMAGE_RE _ content None _ Hm).
    apply (re_sub_skip_end HTML_IMG_SRC_RE _ content None _ Hh).
  - unfold has_relative_image_links.
    rewrite (re_finditer_skip_end _ content None Hm).
    rewrite (re_finditer_skip_end _ content None Hh). reflexivity.
Qed.

Lemma text_without_image_is_kept_witness :
  rewrite_image_links (py "See [the docs](docs/a.md).") (Some (py "post"))
                      (py "prefix") (py "/hexo-assets")
  = (py "See [the docs](docs/a.md).", 0%Z).
Proof.
  exact (proj1 (text_without_image_is_kept (py "See [the docs](docs/a.md).")
                  (Some (py "post")) (py "prefix") (py "/hexo-assets")
                  eq_refl)).
Defined.

Lemma bare_url_char_in (s : str) (c : ascii) :
  forallb bare_url_char s = true -> In c s ->
  is_space c = false /\ (c =? ")")%char = false /\ (c =? "<")%char = false
  /\ (c =? ">")%char = false.
Proof.
  rewrite forallb_forall. intros H Hc. specialize (H c Hc).
  unfold bare_url_char in H. rewrite !andb_true_iff, !negb_true_iff in H. tauto.
Qed.

Lemma space_is_lf : is_space LF = true.
Proof. reflexivity. Qed.

(** The pattern of a Markdown image on an image whose alternative text has
    no closing bracket and whose target has no closing parenthesis and no
    line feed. *)
Lemma markdown_image_match (prev : option ascii) (alt target rest : str) :
  forallb (fun c => negb (c =? "]")%char) alt = true ->
  forallb (fun c => negb (c =? ")")%char && negb (c =? LF)%char) target = true ->
  target <> [] ->
  MARKDOWN_IMAGE_RE prev
    (py "![" ++ alt ++ py "](" ++ target ++ py ")" ++ rest)
  = Some [py "![" ++ alt ++ py "](" ++ target ++ py ")";
          py "![" ++ alt ++ py "]("; target; py ")"].
Proof.
  intros Ha Ht Hne. unfold MARKDOWN_IMAGE_RE.
  change (py "![" ++ alt ++ py "](" ++ target ++ py ")" ++ rest)
    with ("!"%char :: "["%char
            :: alt ++ ("]"%char :: "("%char :: target ++ ")"%char :: rest)).
  change (("!" =? "!")%char && ("[" =? "[")%char) with true. cbv iota.
  rewrite (span_all _ alt _ Ha) by reflexivity.
  change (("]" =? "]")%char && ("(" =? "(")%char) with true. cbv iota.
  rewrite (span_all _ target (")"%char :: rest) Ht) by reflexivity.
  destruct target as [|t0 target']; [contradiction|].
  change (")" =? ")")%char with true. cbv iota.
  rewrite <- !app_assoc. reflexivity.
Qed.

Lemma split_bare_target (url : str) :
  forallb bare_url_char url = true -> url <> [] ->
  split_markdown_target url = (url, [], false).
Proof.
  intros Hu Hne. unfold split_markdown_target.
  assert (Hs : strip url = url).
  { apply strip_by_none. intros c Hc. apply (bare_url_char_in url c Hu Hc). }
  rewrite Hs. destruct url as [|u0 url'] eqn:E; [contradiction|].
  rewrite <- E in *. 
  assert (Hsp : span (fun c => negb (is_space c)) url = (url, [])).
  { rewrite <- (app_nil_r url) at 1. apply span_all; [|exact I].
    apply forallb_forall. intros c Hc. apply negb_true_iff.
    apply (bare_url_char_in url c Hu Hc). }
  rewrite Hsp. cbn [lstrip lstrip_by].
  assert (Hlt : startswith url (py "<") = false).
  { rewrite E. cbn [startswith py String.list_ascii_of_string].
    rewrite Ascii.eqb_sym.
    destruct (bare_url_char_in url u0 Hu) as (_ & _ & H3 & _);
      [rewrite E; left; reflexivity|].
    rewrite H3. reflexivity. }
  rewrite Hlt. rewrite E. reflexivity.
Qed.

Lemma rstrip_by_in (f : ascii -> bool) (s : str) (c : ascii) :
  In c (rstrip_by f s) -> In c s.
Proof.
  unfold rstrip_by. intros H. apply in_rev in H. apply lstrip_by_in in H.
  apply in_rev in H. exact H.
Qed.

Lemma join_url_prefix_chars (prefix : str) (segs : list str) (c : ascii) :
  In c (join_url_prefix prefix segs) -> url_path_char c = true \/ In c prefix.
Proof.
  unfold join_url_prefix.
  assert (Hq : forall l, In c (join (py "/") (map quote l)) ->
                         url_path_char c = true).
  { intros l H. assert (Hs := join_quoted_safe l).
    rewrite forallb_forall in Hs. exact (Hs c H). }
  destruct (has_scheme (py "://") (strip prefix)
            || startswith (strip prefix) (py "//")).
  - assert (Hb : In c (rstrip_chars (py "/") (strip prefix)) -> In c prefix).
    { intros H. apply rstrip_by_in in H. apply strip_by_in in H. exact H. }
    destruct (nonempty _).
    + intros H. apply in_app_iff in H. destruct H as [H|H]; [right; auto|].
      apply in_app_iff in H. destruct H as [[H|[]]|H];
        [subst c; left; reflexivity|left; exact (Hq _ H)].
    + intros H. right. auto.
  - destruct (startswith (strip prefix) (py "/")).
    + intros [H|H]; [subst c; left; reflexivity|left; exact (Hq _ H)].
    + intros H. left. exact (Hq _ H).
Qed.

Lemma rewritten_url_chars (url dir prefix r : str) (c : ascii) :
  rewrite_relative_asset_url url dir prefix = Some r -> In c r ->
  url_path_char c = true \/ In c prefix \/ In c url.
Proof.
  unfold rewrite_relative_asset_url.
  destruct (negb (is_relative_url url)); [discriminate|].
  destruct (split_url_and_suffix (strip url)) as [path_part suffix] eqn:Es.
  destruct (startswith _ (py "../")); [discriminate|].
  destruct (str_empty (lstrip_chars _ _)); [discriminate|].
  destruct (filter _ _) as [|first_seg rel]; [discriminate|].
  match goal with
  | |- (if str_empty ?x then _ else _) = _ -> _ => destruct (str_empty x)
  end; [discriminate|].
  intros E Hc. injection E as E. subst r. apply in_app_iff in Hc.
  destruct Hc as [Hc|Hc].
  - apply join_url_prefix_chars in Hc. destruct Hc; auto.
  - right. right. apply (strip_by_in is_space).
    assert (Eu := split_url_and_suffix_app (strip url)).
    rewrite Es in Eu. cbn [fst snd] in Eu. fold (strip url). rewrite <- Eu.
    apply in_app_iff. right. exact Hc.
Qed.

(** A Markdown image whose target is a bare URL, in a text that has no
    other image, with an asset URL prefix that holds no opening angle
    bracket: when the URL can be rewritten, the image gets the rewritten
    URL in its place, the rest of the text is kept and one link is counted;
    when it cannot, the text is returned as it is and nothing is counted.
    (An angle bracket in the prefix could open an HTML image in the
    rewritten URL, which the second pass would rewrite again.) *)
Theorem markdown_image_is_rewritten
  (pre alt url post asset_dir_name asset_url_prefix : str) :
  forallb no_image_start pre = true ->
  forallb no_image_start post = true ->
  forallb (fun c => negb (c =? "]")%char && negb (c =? "<")%char) alt = true ->
  forallb bare_url_char url = true -> url <> [] ->
  asset_dir_name <> [] ->
  forallb (fun c => negb (c =? "<")%char) asset_url_prefix = true ->
  rewrite_image_links
    (pre ++ py "![" ++ alt ++ py "](" ++ url ++ py ")" ++ post)
    (Some asset_dir_name) (py "prefix") asset_url_prefix
  = match rewrite_relative_asset_url url asset_dir_name asset_url_prefix with
    | Some rewritten =>
        (pre ++ py "![" ++ alt ++ py "](" ++ rewritten ++ py ")" ++ post, 1%Z)
    | None =>
        (pre ++ py "![" ++ alt ++ py "](" ++ url ++ py ")" ++ post, 0%Z)
    end.
Proof.
  intros Hpre Hpost Halt Hurl Hne Hdir Hprefix.
  unfold rewrite_image_links.
  change (negb (str_eqb (py "prefix") (py "prefix"))) with false. cbv iota.
  destruct asset_dir_name as [|d0 dir'] eqn:Ed; [contradiction|].
  rewrite <- Ed in *. clear Hdir.
  (* facts on the characters *)
  assert (Halt1 : forallb (fun c => negb (c =? "]")%char) alt = true).
  { apply forallb_forall. intros c Hc. rewrite forallb_forall in Halt.
    specialize (Halt c Hc). apply andb_true_iff in Halt. apply Halt. }
  assert (Halt2 : forall c, In c alt -> (c =? "<")%char = false).
  { intros c Hc. rewrite forallb_forall in Halt.
    specialize (Halt c Hc). apply andb_true_iff in Halt.
    apply negb_true_iff. apply Halt. }
  assert (Hurl1 : forallb (fun c => negb (c =? ")")%char && negb (c =? LF)%char)
                          url = true).
  { apply forallb_forall. intros c Hc.
    destruct (bare_url_char_in url c Hurl Hc) as (H1 & H2 & _).
    rewrite H2. cbn [negb andb]. apply negb_true_iff.
    destruct (Ascii.eqb_spec c LF) as [E|E]; [|reflexivity].
    subst c. rewrite space_is_lf in H1. discriminate H1. }
  assert (Hurl2 : forall c, In c url -> (c =? "<")%char = false).
  { intros c Hc. apply (bare_url_char_in url c Hurl Hc). }
  assert (Hpre1 : Forall (dead MARKDOWN_IMAGE_RE) pre).
  { apply Forall_forall. intros c Hc.
    apply dead_markdown_image, (no_image_start_in pre c Hpre Hc). }
  assert (Hpost1 : Forall (dead MARKDOWN_IMAGE_RE) post).
  { apply Forall_forall. intros c Hc.
    apply dead_markdown_image, (no_image_start_in post c Hpost Hc). }
  (* the first substitution *)
  unfold re_sub.
  rewrite (re_sub_skip MARKDOWN_IMAGE_RE _ pre _ None 0%Z Hpre1).
  set (q := "["%char :: alt ++ py "](" ++ url ++ py ")").
  change (py "![" ++ alt ++ py "](" ++ url ++ py ")" ++ post)
    with ("!"%char :: "["%char :: alt ++ py "](" ++ url ++ py ")" ++ post).
  rewrite (re_sub_step_match MARKDOWN_IMAGE_RE
             (replace_markdown asset_dir_name asset_url_prefix)
             (prev_after None pre) "!"
             ("["%char :: alt ++ py "](" ++ url ++ py ")" ++ post) 0%Z _
             (markdown_image_match (prev_after None pre) alt url post
                                   Halt1 Hurl1 Hne)).
  unfold replace_markdown, group. cbn [nth].
  rewrite (split_bare_target url Hurl Hne).
  replace (str_empty url) with false by (destruct url; [contradiction|reflexivity]).
  replace (length (py "![" ++ alt ++ py "](" ++ url ++ py ")") - 1)
    with (length q) by (unfold q; cbn [py String.list_ascii_of_string app length]; lia).
  replace ("["%char :: alt ++ py "](" ++ url ++ py ")" ++ post)
    with (q ++ post)
    by (unfold q; cbn [app]; rewrite <- !app_assoc; reflexivity).
  assert (Hrest : forall st : Z,
            re_sub_from MARKDOWN_IMAGE_RE
              (replace_markdown asset_dir_name asset_url_prefix)
              (length q) (Some "!"%char) (q ++ post) st = (post, st)).
  { intros st. rewrite re_sub_skipn.
    apply (re_sub_skip_end MARKDOWN_IMAGE_RE _ post _ st Hpost1). }
  assert (Hhtml : forall (text : str) (st : Z),
            (forall c, In c text -> (c =? "<")%char = false) ->
            re_sub_from HTML_IMG_SRC_RE
                   (replace_html asset_dir_name asset_url_prefix) 0 None text st
            = (text, st)).
  { intros text st Ht.
    apply re_sub_skip_end. apply Forall_forall. intros c Hc.
    apply dead_html_img, Ht, Hc. }
  assert (Hpre2 : forall c, In c pre -> (c =? "<")%char = false)
    by (intros c Hc; apply (no_image_start_in pre c Hpre Hc)).
  assert (Hpost2 : forall c, In c post -> (c =? "<")%char = false)
    by (intros c Hc; apply (no_image_start_in post c Hpost Hc)).
  destruct (rewrite_relative_asset_url url asset_dir_name asset_url_prefix)
    as [r|] eqn:Er.
  - cbv beta iota. rewrite Hrest. cbv beta iota.
    rewrite app_nil_r.
    replace (pre ++ ((py "![" ++ alt ++ py "](") ++ r ++ py ")") ++ post)
      with (pre ++ py "![" ++ alt ++ py "](" ++ r ++ py ")" ++ post)
      by (rewrite <- !app_assoc; reflexivity).
    apply Hhtml.
    assert (Hr : forall c, In c r -> (c =? "<")%char = false).
    { intros c Hc.
      destruct (rewritten_url_chars url asset_dir_name asset_url_prefix r c
                  Er Hc) as [H|[H|H]].
      - destruct (Ascii.eqb_spec c "<") as [E|E]; [|reflexivity].
        subst c. discriminate H.
      - rewrite forallb_forall in Hprefix. apply negb_true_iff, Hprefix, H.
      - apply Hurl2, H. }
    intros c Hc. rewrite !in_app_iff in Hc.
    destruct Hc as [Hc|[Hc|[Hc|[Hc|[Hc|[Hc|Hc]]]]]]; auto;
      cbn in Hc; repeat (destruct Hc as [Hc|Hc]; [subst c; reflexivity|]);
      destruct Hc.
  - cbv beta iota. rewrite Hrest. cbv beta iota.
    replace (pre ++ (py "![" ++ alt ++ py "](" ++ url ++ py ")") ++ post)
      with (pre ++ py "![" ++ alt ++ py "](" ++ url ++ py ")" ++ post)
      by (rewrite <- !app_assoc; reflexivity).
    replace (pre ++ "!"%char :: q ++ post)
      with (pre ++ py "![" ++ alt ++ py "](" ++ url ++ py ")" ++ post)
      by (unfold q; cbn [app py String.list_ascii_of_string];
          rewrite <- !app_assoc; cbn [app];
          rewrite <- !app_assoc; reflexivity).
    apply Hhtml.
    intros c Hc. rewrite !in_app_iff in Hc.
    destruct Hc as [Hc|[Hc|[Hc|[Hc|[Hc|[Hc|Hc]]]]]]; auto;
      cbn in Hc; repeat (destruct Hc as [Hc|Hc]; [subst c; reflexivity|]);
      destruct Hc.
Qed.

Lemma markdown_image_is_rewritten_witness :
  rewrite_image_links (py "Look: ![a cat](cat.png?x=1) here.")
                      (Some (py "my-post")) (py "prefix") (py "/hexo-assets")
  = (py "Look: ![a cat](/hexo-assets/my-post/cat.png?x=1) here.", 1%Z).
Proof.
  exact (markdown_image_is_rewritten (py "Look: ") (py "a cat")
           (py "cat.png?x=1") (py " here.") (py "my-post") (py "/hexo-assets")
           eq_refl eq_refl eq_refl eq_refl
           ltac:(discriminate) ltac:(discriminate) eq_refl).
Defined.

(** ** Dates *)

Lemma strip_app_fixed (t tail : str) :
  tail <> [] -> trimmed is_space tail ->
  strip (t ++ tail) = lstrip t ++ tail.
Proof.
  intros Hne [Hl Hr]. unfold strip, strip_by, lstrip.
  rewrite (lstrip_by_app_fixed is_space t tail Hne Hl).
  apply rstrip_fixed_app; assumption.
Qed.

Lemma endswith_last (s : str) (c d : ascii) :
  endswith (s ++ [c]) [d] = (d =? c)%char.
Proof.
  unfold endswith. rewrite rev_app_distr. cbn [rev app startswith].
  apply andb_true_r.
Qed.

Lemma digit_not_sign (c : ascii) : is_digit c = true -> is_sign c = false.
Proof.
  destruct c as [[] [] [] [] [] [] [] []]; vm_compute; intros H;
    first [reflexivity | discriminate H].
Qed.

Lemma digit_not_space (c : ascii) :
  is_digit c = true -> is_space c = false /\ (c =? "Z")%char = false.
Proof.
  destruct c as [[] [] [] [] [] [] [] []]; vm_compute; intros H;
    first [split; reflexivity | discriminate H].
Qed.

Lemma parse_date_text (rt : runtime) (s : str) (fallback : option datetime)
  (text : str) :
  strip s <> [] ->
  date_offset_sub
    (if endswith (strip s) (py "Z") then removelast (strip s) ++ py "+00:00"
     else strip s) = text ->
  parse_date rt (VStr s) fallback
  = match first_success (fromisoformat rt)
                        [text; replace text (py "/") (py "-")] with
    | Some d => Some d
    | None =>
        match first_success (strptime rt text) known_formats with
        | Some d => Some d
        | None =>
            match fallback with
            | Some d => Some d
            | None => Some (now_local rt)
            end
        end
    end.
Proof.
  intros Hne E. subst text. unfold parse_date.
  destruct (strip s) as [|c r]; [contradiction|reflexivity].
Qed.

(** A date that ends with [Z] is read as the same date with the offset
    [+00:00]. *)
Theorem parse_date_reads_utc_suffix (rt : runtime) (t : str)
  (fallback : option datetime) :
  parse_date rt (VStr (t ++ py "Z")) fallback
  = parse_date rt (VStr (t ++ py "+00:00")) fallback.
Proof.
  assert (E1 : strip (t ++ py "Z") = lstrip t ++ py "Z")
    by (apply strip_app_fixed; [discriminate|split; reflexivity]).
  assert (E2 : strip (t ++ py "+00:00") = lstrip t ++ py "+00:00")
    by (apply strip_app_fixed; [discriminate|split; reflexivity]).
  rewrite (parse_date_text rt (t ++ py "Z") fallback
             (date_offset_sub (lstrip t ++ py "+00:00"))).
  - rewrite (parse_date_text rt (t ++ py "+00:00") fallback
               (date_offset_sub (lstrip t ++ py "+00:00"))).
    + reflexivity.
    + rewrite E2. destruct (lstrip t); discriminate.
    + rewrite E2.
      replace (lstrip t ++ py "+00:00")
        with ((lstrip t ++ py "+00:0") ++ ["0"%char])
        by (rewrite <- app_assoc; reflexivity).
      change (py "Z") with ["Z"%char]. rewrite endswith_last. reflexivity.
  - rewrite E1. destruct (lstrip t); discriminate.
  - rewrite E1. change (py "Z") with ["Z"%char].
    rewrite endswith_last. change ("Z" =? "Z")%char with true. cbv iota.
    rewrite removelast_last. reflexivity.
Qed.

(** An offset written as a sign and four digits at the end of a date is
    read as the same offset with a colon between the hours and the
    minutes. *)
Theorem parse_date_reads_compact_offset (rt : runtime) (t : str)
  (sign h1 h2 m1 m2 : ascii) (fallback : option datetime) :
  is_sign sign = true -> forallb is_digit [h1; h2; m1; m2] = true ->
  parse_date rt (VStr (t ++ [sign; h1; h2; m1; m2])) fallback
  = parse_date rt (VStr (t ++ [sign; h1; h2; ":"%char; m1; m2])) fallback.
Proof.
  intros Hs Hd.
  cbn [forallb] in Hd. rewrite !andb_true_iff in Hd.
  destruct Hd as (D1 & D2 & D3 & D4 & _).
  assert (Hsp : is_space sign = false).
  { unfold is_sign in Hs. apply orb_true_iff in Hs.
    destruct Hs as [Hs|Hs]; apply Ascii.eqb_eq in Hs; subst sign; reflexivity. }
  destruct (digit_not_space m2 D4) as [Hm2 Hz].
  assert (T1 : trimmed is_space [sign; h1; h2; m1; m2]).
  { split; [apply lstrip_by_fixed; exact Hsp|].
    unfold rstrip_by. cbn [rev app]. rewrite lstrip_by_fixed by exact Hm2.
    reflexivity. }
  assert (T2 : trimmed is_space [sign; h1; h2; ":"%char; m1; m2]).
  { split; [apply lstrip_by_fixed; exact Hsp|].
    unfold rstrip_by. cbn [rev app]. rewrite lstrip_by_fixed by exact Hm2.
    reflexivity. }
  assert (E1 : strip (t ++ [sign; h1; h2; m1; m2])
               = lstrip t ++ [sign; h1; h2; m1; m2])
    by (apply strip_app_fixed; [discriminate|exact T1]).
  assert (E2 : strip (t ++ [sign; h1; h2; ":"%char; m1; m2])
               = lstrip t ++ [sign; h1; h2; ":"%char; m1; m2])
    by (apply strip_app_fixed; [discriminate|exact T2]).
  set (x := lstrip t) in *.
  rewrite (parse_date_text rt (t ++ [sign; h1; h2; m1; m2]) fallback
             (x ++ [sign; h1; h2; ":"%char; m1; m2])).
  - rewrite (parse_date_text rt (t ++ [sign; h1; h2; ":"%char; m1; m2]) fallback
               (x ++ [sign; h1; h2; ":"%char; m1; m2])).
    + reflexivity.
    + rewrite E2. destruct x; discriminate.
    + rewrite E2.
      replace (x ++ [sign; h1; h2; ":"%char; m1; m2])
        with ((x ++ [sign; h1; h2; ":"%char; m1]) ++ [m2])
        by (rewrite <- app_assoc; reflexivity).
      change (py "Z") with ["Z"%char]. rewrite endswith_last.
      rewrite Ascii.eqb_sym, Hz.
      rewrite <- app_assoc. cbn [app].
      unfold date_offset_sub.
      replace (length (x ++ [sign; h1; h2; ":"%char; m1; m2]))
        with (length x + 6) by (rewrite length_app; reflexivity).
      replace (length x + 6 - 5) with (length x + 1) by lia.
      rewrite app_nth2_plus. cbn [nth].
      rewrite (digit_not_sign h1 D1), andb_false_r. reflexivity.
  - rewrite E1. destruct x; discriminate.
  - rewrite E1.
    replace (x ++ [sign; h1; h2; m1; m2])
      with ((x ++ [sign; h1; h2; m1]) ++ [m2])
      by (rewrite <- app_assoc; reflexivity).
    change (py "Z") with ["Z"%char]. rewrite endswith_last.
    rewrite Ascii.eqb_sym, Hz.
    rewrite <- app_assoc. cbn [app].
    unfold date_offset_sub.
    replace (length (x ++ [sign; h1; h2; m1; m2]))
      with (length x + 5) by (rewrite length_app; reflexivity).
    replace (length x + 5 - 5) with (length x + 0) by lia.
    replace (length x + 5 - 4) with (length x + 1) by lia.
    replace (length x + 5 - 2) with (length x + 3) by lia.
    rewrite app_nth2_plus. cbn [nth]. rewrite Hs.
    rewrite skipn_app, skipn_all2 by lia.
    replace (length x + 1 - length x) with 1 by lia.
    cbn [skipn app forallb]. rewrite D1, D2, D3, D4. cbn [andb].
    replace (5 <=? length x + 5) with true by (symmetry; apply Nat.leb_le; lia).
    cbv iota.
    rewrite firstn_app, firstn_all2 by lia.
    rewrite skipn_app, (skipn_all2 x) by lia.
    replace (length x + 3 - length x) with 3 by lia.
    cbn [firstn skipn app py String.list_ascii_of_string andb].
    rewrite <- app_assoc. reflexivity.
Qed.

Lemma parse_date_reads_compact_offset_witness :
  parse_date rt_example (VStr (py "2020-01-01 10:00:00+0800")) None
  = parse_date rt_example (VStr (py "2020-01-01 10:00:00+08:00")) None
  /\ parse_date rt_example (VStr (py "2020-01-01 10:00:00+0800")) None
     = Some (mk_datetime 2020 1 1 10 0 0 0 (Some 28800%Z)).
Proof.
  split; [|reflexivity].
  exact (parse_date_reads_compact_offset rt_example (py "2020-01-01 10:00:00")
           "+" "0" "8" "0" "0" None eq_refl eq_refl).
Defined.

Lemma first_success_none {A B : Type} (f : A -> option B) (l : list A) :
  (forall x, In x l -> f x = None) -> first_success f l = None.
Proof.
  induction l as [|x l IH]; intros H; [reflexivity|].
  cbn [first_success]. rewrite (H x (or_introl eq_refl)).
  apply IH. intros y Hy. apply H. right. exact Hy.
Qed.

(** [parse_date] raises only for a number that cannot be a timestamp. A
    datetime is returned as it is. For no value, a list, a dict, a blank
    text and a text that no format reads, the result is the fallback, or the
    current local time when there is none. *)
Theorem parse_date_falls_back (rt : runtime) (v : value)
  (fallback : option datetime) :
  (parse_date rt v fallback = None ->
   is_number v = true /\ fromtimestamp_local rt v = None)
  /\ (forall d, v = VDatetime d -> parse_date rt v fallback = Some d)
  /\ (no_date rt v ->
      parse_date rt v fallback
      = Some (match fallback with Some d => d | None => now_local rt end)).
Proof.
  assert (Ho : match fallback with
               | Some d => Some d
               | None => Some (now_local rt)
               end
               = Some (match fallback with
                       | Some d => d
                       | None => now_local rt
                       end)) by (destruct fallback; reflexivity).
  split; [|split].
  - destruct v as [|b|z|f|s|l|d|dt]; cbn [parse_date is_number];
      try (rewrite Ho; discriminate); try (intros H; split; [reflexivity|exact H]);
      try discriminate.
    unfold parse_date.
    destruct (negb (str_empty (strip s))); [|rewrite Ho; discriminate].
    destruct (first_success _ _); [discriminate|].
    destruct (first_success _ _); [discriminate|].
    rewrite Ho. discriminate.
  - intros d ->. reflexivity.
  - destruct v as [|b|z|f|s|l|d|dt]; cbn [no_date]; try contradiction;
      try (intros _; exact Ho).
    intros [Hs|(H1 & H2 & H3)].
    + unfold parse_date. rewrite Hs. exact Ho.
    + destruct (strip s) as [|c r] eqn:Es;
        [unfold parse_date; rewrite Es; exact Ho|].
      rewrite (parse_date_text rt s fallback (date_text s));
        [|rewrite Es; discriminate|reflexivity].
      rewrite first_success_none.
      * rewrite (first_success_none _ _ H3). exact Ho.
      * intros x [<-|[<-|[]]]; assumption.
Qed.

Lemma parse_date_falls_back_witness :
  no_date rt_example (VStr (py "next week"))
  /\ parse_date rt_example (VStr (py "next week"))
                (Some (mk_datetime 2020 1 1 10 0 0 0 None))
     = Some (mk_datetime 2020 1 1 10 0 0 0 None)
  /\ parse_date rt_example (VStr (py "next week")) None
     = Some (now_local rt_example).
Proof.
  assert (H : no_date rt_example (VStr (py "next week"))).
  { right. split; [reflexivity|]. split; [reflexivity|].
    intros fmt Hf. cbn [known_formats In] in Hf.
    repeat (destruct Hf as [<-|Hf]; [reflexivity|]). contradiction. }
  split; [exact H|]. split.
  - exact (proj2 (proj2 (parse_date_falls_back rt_example _ _)) H).
  - exact (proj2 (proj2 (parse_date_falls_back rt_example _ None)) H).
Defined.

(** ** Asset directories, tokens and the fields of a post *)

Lemma sorted_in (l : list str) (x : str) : In x (sorted l) -> In x l.
Proof.
  intros H. apply (Permutation_in x (Permutation_sym (sorted_perm l))). exact H.
Qed.

Lemma hd_error_in {A : Type} (l : list A) (x : A) :
  hd_error l = Some x -> In x l.
Proof. destruct l; [discriminate|]. intros E. injection E as E. left. exact E. Qed.

(** For a file of the source directory the asset directory, when there is
    one, is one of the directories given; a directory named as the file
    stem is taken before any other. A file of a sub-directory has that
    sub-directory as its asset directory, whatever the directories given. *)
Theorem resolve_asset_dir_name_is_a_directory
  (p : path) (source_dir : list str) (dirs : list str) :
  (parent p = source_dir ->
   (forall r, resolve_asset_dir_name p source_dir dirs = Some r -> In r dirs)
   /\ (In (path_stem p) dirs ->
       resolve_asset_dir_name p source_dir dirs = Some (path_stem p)))
  /\ (parent p <> source_dir ->
      resolve_asset_dir_name p source_dir dirs = Some (dir_name (parent p))).
Proof.
  split.
  - intros Hp. unfold resolve_asset_dir_name.
    rewrite Hp, dir_eqb_refl. cbn [negb]. split.
    + intros r. destruct (mem (path_stem p) dirs) eqn:Em.
      * intros E. injection E as E. subst r. apply mem_in. exact Em.
      * assert (Hf : forall f v, In v (sorted (filter f dirs)) -> In v dirs).
        { intros f v Hv. apply sorted_in in Hv. apply filter_In in Hv. apply Hv. }
        destruct (length (sorted _) =? 1).
        { intros E. apply hd_error_in in E. exact (Hf _ _ E). }
        destruct (length (sorted _) =? 1).
        { intros E. apply hd_error_in in E. exact (Hf _ _ E). }
        destruct (sorted (filter _ dirs)) as [|a l1] eqn:E1.
        -- match goal with
           | |- match ?x with [] => _ | _ :: _ => _ end = _ -> _ =>
               destruct x as [|b l2] eqn:E2
           end; [intros E; discriminate E|].
           intros E. injection E as E. subst r.
           eapply Hf. rewrite E2. left. reflexivity.
        -- intros E. injection E as E. subst r.
           eapply Hf. rewrite E1. left. reflexivity.
    + intros Hin. apply mem_in in Hin. rewrite Hin. reflexivity.
  - intros Hp. unfold resolve_asset_dir_name. unfold dir_eqb.
    destruct (list_eq_dec (list_eq_dec ascii_dec) (parent p) source_dir);
      [contradiction|reflexivity].
Qed.

Lemma resolve_asset_dir_name_is_a_directory_witness :
  resolve_asset_dir_name (mk_path [py "_posts"] (py "trip.md")) [py "_posts"]
                         [py "Trip"; py "other"]
  = Some (py "Trip")
  /\ In (py "Trip") [py "Trip"; py "other"].
Proof.
  split; [reflexivity|].
  exact (proj1 (proj1 (resolve_asset_dir_name_is_a_directory
                         (mk_path [py "_posts"] (py "trip.md")) [py "_posts"]
                         [py "Trip"; py "other"]) eq_refl)
               (py "Trip") eq_refl).
Defined.

Lemma to_int_not_nil (z : Z) :
  Z.to_int z <> Decimal.Pos Decimal.Nil /\ Z.to_int z <> Decimal.Neg Decimal.Nil.
Proof.
  split; intros E; pose proof (f_equal Z.of_int E) as Hz; rewrite DecimalZ.of_to in Hz;
    cbn in Hz; subst z; discriminate E.
Qed.

Lemma str_of_Z_injective (a b : Z) : str_of_Z a = str_of_Z b -> a = b.
Proof.
  unfold str_of_Z, py. intros E.
  apply (f_equal String.string_of_list_ascii) in E.
  rewrite !String.string_of_list_ascii_of_string in E.
  apply (f_equal DecimalString.NilZero.int_of_string) in E.
  destruct (to_int_not_nil a) as [A1 A2], (to_int_not_nil b) as [B1 B2].
  rewrite !DecimalString.NilZero.isi in E by assumption.
  injection E as E. apply (f_equal Z.of_int) in E. rewrite !DecimalZ.of_to in E. exact E.
Qed.

(** Two indices have the same token only when they are equal: a token
    made later never takes the place of an earlier one in a dictionary of
    tokens. *)
Theorem make_token_injective (i j : Z) :
  str_eqb (make_token i) (make_token j) = (i =? j)%Z.
Proof.
  destruct (Z.eqb_spec i j) as [E|E].
  - subst j. apply str_eqb_refl.
  - destruct (str_eqb (make_token i) (make_token j)) eqn:Es; [|reflexivity].
    exfalso. apply E. apply str_eqb_eq in Es. unfold make_token in Es.
    apply app_inv_head in Es. apply app_inv_tail in Es.
    apply str_of_Z_injective. exact Es.
Qed.

Lemma re_sub_counter (matcher : option ascii -> str -> option (list str))
  (repl : list str -> Z -> str * Z) :
  (forall m st, (st <= snd (repl m st))%Z) ->
  forall (s : str) (skip : nat) (prev : option ascii) (st : Z),
    (st <= snd (re_sub_from matcher repl skip prev s st))%Z.
Proof.
  intros Hr. induction s as [|c s IH]; intros skip prev st; cbn [re_sub_from].
  - cbn [snd]. lia.
  - destruct skip as [|k]; [|apply IH].
    destruct (matcher prev (c :: s)) as [groups|].
    + specialize (Hr groups st). destruct (repl groups st) as [r st1].
      cbn [snd] in Hr.
      specialize (IH (length (nth 0 groups []) - 1) (Some c) st1).
      destruct (re_sub_from matcher repl _ (Some c) s st1) as [out st2].
      cbn [snd] in *. lia.
    + specialize (IH 0 (Some c) st).
      destruct (re_sub_from matcher repl 0 (Some c) s st) as [out st1].
      cbn [snd] in *. exact IH.
Qed.

Lemma rewrite_image_links_counter (content : str) (dir : option str)
  (asset_mode asset_url_prefix : str) :
  (0 <= snd (rewrite_image_links content dir asset_mode asset_url_prefix))%Z.
Proof.
  unfold rewrite_image_links.
  destruct (negb (str_eqb asset_mode (py "prefix"))); [cbn; lia|].
  destruct dir as [[|d0 d]|]; try (cbn; lia).
  unfold re_sub.
  assert (H1 := re_sub_counter MARKDOWN_IMAGE_RE
                  (replace_markdown (d0 :: d) asset_url_prefix)).
  assert (H2 := re_sub_counter HTML_IMG_SRC_RE
                  (replace_html (d0 :: d) asset_url_prefix)).
  assert (Hm : forall m st,
            (st <= snd (replace_markdown (d0 :: d) asset_url_prefix m st))%Z).
  { intros m st. unfold replace_markdown.
    destruct (split_markdown_target (group m 2)) as [[u t] w].
    destruct (str_empty u); [cbn; lia|].
    destruct (rewrite_relative_asset_url _ _ _); cbn; lia. }
  assert (Hh : forall m st,
            (st <= snd (replace_html (d0 :: d) asset_url_prefix m st))%Z).
  { intros m st. unfold replace_html.
    destruct (rewrite_relative_asset_url _ _ _); cbn; lia. }
  specialize (H1 Hm content 0 None 0%Z). specialize (H2 Hh).
  destruct (re_sub_from MARKDOWN_IMAGE_RE _ 0 None content 0%Z) as [c1 n1].
  cbn [snd] in H1. specialize (H2 c1 0 None n1). lia.
Qed.

(** What [read_post] puts in the other fields of a post: a status that
    Typecho knows, the type [page] or [post], categories and tags without
    duplicates, empty names or blanks around a name, an excerpt without
    blanks around it, an author that is not empty when the default author is
    not, the asset directory of the resolver and a count of rewritten links
    that is not negative. When the asset mode is not [prefix], no link is
    rewritten and there is no warning; a warning is given only to a post
    without an asset directory. *)
Theorem read_post_fields (rt : runtime)
  (p : path) (raw : str) (source_dir : list str) (dirs : list str)
  (default_author asset_mode asset_url_prefix math_mode : str)
  (post : HexoPost) (warning : option str) :
  read_post rt p raw source_dir dirs default_author asset_mode
            asset_url_prefix math_mode = Some (post, warning) ->
  In (status post) statuses
  /\ (post_type post = py "page" \/ post_type post = py "post")
  /\ dedupe (categories post) = categories post
  /\ dedupe (tags post) = tags post
  /\ strip (excerpt post) = excerpt post
  /\ (default_author <> [] -> author post <> [])
  /\ asset_dir_name post = resolve_asset_dir_name p source_dir dirs
  /\ (0 <= rewritten_image_links post)%Z
  /\ (asset_mode <> py "prefix" ->
      rewritten_image_links post = 0%Z /\ warning = None)
  /\ (warning <> None ->
      asset_dir_name post = None \/ asset_dir_name post = Some []).
Proof.
  intros H. unfold read_post in H.
  destruct (split_front_matter rt raw) as [meta body].
  destruct (parse_date rt (meta_get meta (py "date")) None) as [d|];
    [|discriminate H].
  destruct (parse_date rt (meta_get meta (py "updated")) (Some d)) as [u|];
    [|discriminate H].
  assert (Hc := rewrite_image_links_counter
                  (normalize_mathjax_underscores math_mode (strip body))
                  (resolve_asset_dir_name p source_dir dirs)
                  asset_mode asset_url_prefix).
  assert (Hmode : asset_mode <> py "prefix" ->
            rewrite_image_links
              (normalize_mathjax_underscores math_mode (strip body))
              (resolve_asset_dir_name p source_dir dirs)
              asset_mode asset_url_prefix
            = (normalize_mathjax_underscores math_mode (strip body), 0%Z)).
  { intros Hne. unfold rewrite_image_links.
    destruct (str_eqb asset_mode (py "prefix")) eqn:E; [|reflexivity].
    apply str_eqb_eq in E. contradiction. }
  destruct (rewrite_image_links _ _ _ _) as [rewritten n] eqn:Er.
  injection H as H Hw. subst post. cbn [status post_type categories tags
    excerpt author asset_dir_name rewritten_image_links].
  split; [apply normalize_status_in|].
  split.
  { match goal with
    | |- (if ?b then _ else _) = _ \/ _ => destruct b; auto
    end. }
  split; [apply normalize_list_fixed|].
  split; [apply normalize_list_fixed|].
  split; [apply strip_idem|].
  split.
  { intros Hd. unfold or_else.
    match goal with
    | |- match ?x with [] => _ | _ :: _ => _ end <> [] => destruct x
    end; [exact Hd|discriminate]. }
  split; [reflexivity|].
  split; [exact Hc|].
  split.
  { intros Hne. specialize (Hmode Hne). injection Hmode as _ En.
    split; [exact En|]. subst warning.
    match goal with
    | |- (if str_eqb asset_mode ?l && _ && _ then _ else _) = _ =>
        change l with (py "prefix")
    end.
    destruct (str_eqb asset_mode (py "prefix")) eqn:E; [|reflexivity].
    apply str_eqb_eq in E. contradiction. }
  intros Hwarn. subst warning.
  destruct (resolve_asset_dir_name p source_dir dirs) as [[|c0 dir]|];
    [right; reflexivity| |left; reflexivity].
  exfalso. apply Hwarn. cbn [str_empty]. rewrite andb_false_r. reflexivity.
Qed.

Lemma read_post_fields_witness :
  exists post,
    read_post rt_example example_path example_raw [py "_posts"] []
              (py "admin") (py "prefix") (py "/hexo-assets") (py "keep")
    = Some (post, None)
    /\ In (status post) statuses
    /\ author post <> [].
Proof.
  eexists. split; [vm_compute; reflexivity|].
  destruct (read_post_fields rt_example example_path example_raw
              [py "_posts"] [] (py "admin") (py "prefix")
              (py "/hexo-assets") (py "keep") _ None eq_refl)
    as (H1 & _ & _ & _ & _ & H6 & _).
  split; [exact H1|apply H6; discriminate].
Defined.

(** ** A code span and a math region *)

Lemma code_char_in (s : str) (c : ascii) :
  forallb code_char s = true -> In c s ->
  (c =? "`")%char = false /\ (c =? "~")%char = false.
Proof.
  rewrite forallb_forall. intros H Hc. specialize (H c Hc).
  unfold code_char in H. apply andb_true_iff in H.
  rewrite !negb_true_iff in H. exact H.
Qed.

Lemma math_char_plain (s : str) : forallb math_char s = true -> plain s.
Proof.
  unfold plain. rewrite !forallb_forall. intros H c Hc.
  specialize (H c Hc). unfold math_char in H. apply andb_true_iff in H. apply H.
Qed.

Lemma math_char_line (s : str) (c : ascii) :
  forallb math_char s = true -> In c s -> dot_line c = true.
Proof.
  rewrite forallb_forall. intros H Hc. specialize (H c Hc).
  unfold math_char in H. apply andb_true_iff in H. apply H.
Qed.

Lemma no_fence_run_skip (p s : str) :
  (forall c, In c p -> (c =? "`")%char = false /\ (c =? "~")%char = false) ->
  no_fence_run (p ++ s) = no_fence_run s.
Proof.
  induction p as [|c p IH]; intros Hp; [reflexivity|].
  cbn [app no_fence_run].
  destruct (Hp c (or_introl eq_refl)) as [H1 H2]. rewrite H1, H2.
  cbn [negb andb]. apply IH. intros d Hd. apply Hp. right. exact Hd.
Qed.

Lemma no_fence_run_span (code rest : str) :
  forallb code_char code = true -> code <> [] ->
  starts_with_backtick rest = false ->
  no_fence_run ("`"%char :: code ++ "`"%char :: rest) = no_fence_run rest.
Proof.
  intros Hc Hne Hr. cbn [no_fence_run].
  change ("`" =? "~")%char with false. cbn [negb andb].
  assert (Hhead : starts_with_backtick (code ++ "`"%char :: rest) = false).
  { destruct code as [|c code']; [contradiction|]. cbn [app starts_with_backtick].
    apply (code_char_in (c :: code') c Hc). left. reflexivity. }
  rewrite Hhead. cbn [andb negb].
  rewrite (no_fence_run_skip code _ (fun c Hin => code_char_in code c Hc Hin)).
  cbn [no_fence_run]. change ("`" =? "~")%char with false. rewrite Hr.
  reflexivity.
Qed.

Lemma no_fence_run_math (body rest : str) :
  plain body ->
  no_fence_run ("$"%char :: body ++ "$"%char :: rest) = no_fence_run rest.
Proof.
  intros Hb. cbn [no_fence_run].
  change ("$" =? "~")%char with false. change ("$" =? "`")%char with false.
  cbn [negb andb]. rewrite (no_fence_run_plain body _ Hb). reflexivity.
Qed.

Lemma display_region {St : Type} (repl : list str -> St -> str * St)
  (prev : option ascii) (body rest : str) (st : St) :
  plain body -> body <> [] -> starts_with_dollar rest = false ->
  re_sub_from DISPLAY_DOLLAR_RE repl 0 prev
              ("$"%char :: body ++ "$"%char :: rest) st
  = let '(out, st1) :=
      re_sub_from DISPLAY_DOLLAR_RE repl 0 (Some "$"%char) rest st in
    ("$"%char :: body ++ "$"%char :: out, st1).
Proof.
  intros Hb Hne Hr.
  rewrite re_sub_step_none.
  2:{ apply display_at_lone_dollar.
      destruct body as [|c b]; [contradiction|].
      cbn [app starts_with_dollar].
      apply plain_cons in Hb. destruct Hb as [Hc _].
      apply (plain_char_cases c Hc). }
  rewrite (re_sub_skip DISPLAY_DOLLAR_RE repl body)
    by (apply (plain_dead _ body plain_dead_display Hb)).
  rewrite re_sub_step_none by (apply display_at_lone_dollar; exact Hr).
  destruct (re_sub_from DISPLAY_DOLLAR_RE repl 0 (Some "$"%char) rest st).
  reflexivity.
Qed.

Lemma lazy_plus_cons (dot : ascii -> bool) (close : ascii -> str -> bool)
  (c : ascii) (s : str) :
  lazy_plus dot close (c :: s)
  = if dot c then
      if close c s then Some ([c], s)
      else match lazy_plus dot close s with
           | Some (inner, r) => Some (c :: inner, r)
           | None => None
           end
    else None.
Proof. reflexivity. Qed.

Lemma lazy_plus_body (body rest : str) :
  forallb math_char body = true -> body <> [] ->
  lazy_plus dot_line
            (fun last r => is_not_backslash last && startswith r (py "$"))
            (body ++ "$"%char :: rest)
  = Some (body, "$"%char :: rest).
Proof.
  intros Hb Hne. induction body as [|c body IH]; [contradiction|].
  cbn [app]. rewrite lazy_plus_cons.
  rewrite (math_char_line (c :: body) c Hb (or_introl eq_refl)).
  assert (Hc : is_not_backslash c = true).
  { unfold is_not_backslash. apply negb_true_iff.
    apply (plain_char_cases c).
    apply (plain_in (c :: body) c (math_char_plain _ Hb)). left. reflexivity. }
  rewrite Hc. cbn [andb].
  destruct body as [|c2 body'].
  - change (startswith ([] ++ "$"%char :: rest) (py "$")) with true.
    reflexivity.
  - assert (Hb' : forallb math_char (c2 :: body') = true).
    { cbn [forallb] in Hb. apply andb_true_iff in Hb. apply Hb. }
    assert (H2 : (c2 =? "$")%char = false).
    { apply (plain_char_cases c2).
      apply (plain_in (c2 :: body') c2 (math_char_plain _ Hb')).
      left. reflexivity. }
    change ((c2 :: body') ++ "$"%char :: rest)
      with (c2 :: body' ++ "$"%char :: rest) in *.
    change (py "$") with ["$"%char] at 1.
    rewrite (startswith_other_head c2 "$" _ [] H2).
    rewrite (IH Hb') by discriminate. reflexivity.
Qed.

Lemma inline_at_region (prev : option ascii) (body rest : str) :
  not_backslash prev = true ->
  forallb math_char body = true -> body <> [] ->
  INLINE_DOLLAR_RE prev ("$"%char :: body ++ "$"%char :: rest)
  = Some ["$"%char :: body ++ ["$"%char]; body].
Proof.
  intros Hp Hb Hne. unfold INLINE_DOLLAR_RE. rewrite Hp.
  assert (H2 : startswith ("$"%char :: body ++ "$"%char :: rest) (py "$$")
               = false).
  { destruct body as [|c b]; [contradiction|].
    cbn [app startswith py String.list_ascii_of_string].
    rewrite Ascii.eqb_refl. cbn [andb].
    assert (Hc : ("$" =? c)%char = false).
    { rewrite Ascii.eqb_sym. apply (plain_char_cases c).
      apply (plain_in (c :: b) c (math_char_plain _ Hb)). left. reflexivity. }
    rewrite Hc. reflexivity. }
  rewrite H2. cbn [negb andb]. unfold delimited.
  change (startswith ("$"%char :: body ++ "$"%char :: rest) (py "$")) with true.
  change (skipn (length (py "$")) ("$"%char :: body ++ "$"%char :: rest))
    with (body ++ "$"%char :: rest).
  cbv iota.
  rewrite (lazy_plus_body body rest Hb Hne). reflexivity.
Qed.

Lemma inline_region (mode : str) (prev : option ascii) (body rest : str) :
  not_backslash prev = true ->
  forallb math_char body = true -> body <> [] ->
  re_sub_from INLINE_DOLLAR_RE (inline_repl mode) 0 prev
              ("$"%char :: body ++ "$"%char :: rest) tt
  = let '(out, st1) :=
      re_sub_from INLINE_DOLLAR_RE (inline_repl mode) 0
                  (Some "$"%char) rest tt in
    ("$"%char :: normalize_math_underscores_segment body mode
       ++ "$"%char :: out, st1).
Proof.
  intros Hp Hb Hne.
  rewrite (re_sub_step_match _ _ prev "$" (body ++ "$"%char :: rest) tt
             _ (inline_at_region prev body rest Hp Hb Hne)).
  unfold inline_repl, group. cbn [nth].
  replace (length ("$"%char :: body ++ ["$"%char]) - 1)
    with (length (body ++ ["$"%char])) by (cbn [length]; lia).
  replace (body ++ "$"%char :: rest) with ((body ++ ["$"%char]) ++ rest)
    by (rewrite <- app_assoc; reflexivity).
  rewrite re_sub_skipn.
  replace (prev_after (Some "$"%char) (body ++ ["$"%char]))
    with (Some "$"%char)
    by (unfold prev_after; rewrite fold_left_app; reflexivity).
  destruct (re_sub_from INLINE_DOLLAR_RE _ 0 (Some "$"%char) rest tt).
  cbn [py String.list_ascii_of_string app]. rewrite <- app_assoc. reflexivity.
Qed.

Lemma restore_one (p tail raw : str) (k : Z) :
  (forall c, In c p -> (c =? "@")%char = false) ->
  (forall c, In c tail -> (c =? "@")%char = false) ->
  restore_tokens (p ++ make_token k ++ tail) [(make_token k, raw)]
  = p ++ raw ++ tail.
Proof.
  intros Hp Ht. unfold restore_tokens. cbn [fold_left fst snd].
  unfold make_token at 2. unfold TOKEN_PREFIX.
  cbn [py String.list_ascii_of_string app].
  unfold replace.
  rewrite (replace_from_skip _ raw p _ "@" Hp).
  unfold make_token, TOKEN_PREFIX. cbn [py String.list_ascii_of_string app].
  match goal with
  | |- p ++ replace_from ("@"%char :: ?old) raw 0 ("@"%char :: ?x) = _ =>
      replace ("@"%char :: x) with (("@"%char :: old) ++ tail)
        by (cbn [app]; rewrite <- !app_assoc; reflexivity)
  end.
  rewrite replace_from_at.
  rewrite (replace_from_skip_end _ raw tail "@" Ht). reflexivity.
Qed.

Lemma plain_head_not_dollar (p s : str) :
  plain p -> starts_with_dollar s = false -> starts_with_dollar (p ++ s) = false.
Proof.
  destruct p as [|c p]; [auto|]. intros Hp _.
  apply plain_cons in Hp. destruct Hp as [Hc _].
  apply (plain_char_cases c Hc).
Qed.

Lemma uint_digits (u : Decimal.uint) :
  forallb is_digit (py (DecimalString.NilEmpty.string_of_uint u)) = true.
Proof. induction u; simpl; auto. Qed.

Lemma str_of_Z_chars (z : Z) :
  forallb (fun c => is_digit c || (c =? "-")%char) (str_of_Z z) = true.
Proof.
  assert (Hu : forall u,
            forallb (fun c => is_digit c || (c =? "-")%char)
                    (py (DecimalString.NilZero.string_of_uint u)) = true).
  { intros u. unfold DecimalString.NilZero.string_of_uint.
    assert (H := uint_digits u).
    destruct u; try reflexivity;
      (apply forallb_forall; intros c Hc; rewrite forallb_forall in H;
       rewrite (H c Hc); reflexivity). }
  unfold str_of_Z. destruct (Z.to_int z) as [u|u].
  - apply Hu.
  - unfold DecimalString.NilZero.string_of_int.
    change (py (String.String "-" (DecimalString.NilZero.string_of_uint u)))
      with ("-"%char :: py (DecimalString.NilZero.string_of_uint u)).
    cbn [forallb]. rewrite Hu. reflexivity.
Qed.

Lemma token_char_cases (c : ascii) :
  char_in (py "@HEXO2TYPECHO_TOKEN_") c || is_digit c || (c =? "-")%char
  = true ->
  (c =? "`")%char = false /\ (c =? "~")%char = false
  /\ (c =? "$")%char = false /\ (c =? "\")%char = false
  /\ (c =? "!")%char = false /\ (c =? "<")%char = false.
Proof.
  destruct c as [[] [] [] [] [] [] [] []]; vm_compute; intros H;
    first [repeat split; reflexivity | discriminate H].
Qed.

Lemma token_chars (k : Z) (c : ascii) :
  In c (make_token k) ->
  (c =? "`")%char = false /\ (c =? "~")%char = false
  /\ (c =? "$")%char = false /\ (c =? "\")%char = false
  /\ (c =? "!")%char = false /\ (c =? "<")%char = false.
Proof.
  intros H. apply token_char_cases.
  unfold make_token, TOKEN_PREFIX in H. rewrite !in_app_iff in H.
  destruct H as [H|[H|H]].
  - assert (E : char_in (py "@HEXO2TYPECHO_TOKEN_") c = true).
    { unfold char_in. apply existsb_exists. exists c.
      split; [|apply Ascii.eqb_refl].
      cbn in H. cbn. tauto. }
    rewrite E. reflexivity.
  - assert (Hz := str_of_Z_chars k). rewrite forallb_forall in Hz.
    specialize (Hz c H). apply orb_true_iff in Hz.
    destruct Hz as [Hz|Hz]; rewrite Hz; [rewrite orb_true_r|];
      rewrite ?orb_true_r; reflexivity.
  - assert (E : char_in (py "@HEXO2TYPECHO_TOKEN_") c = true).
    { cbn in H. destruct H as [H|[H|[]]]; subst c; reflexivity. }
    rewrite E. reflexivity.
Qed.

Lemma skipn_nth {A : Type} (d : A) (l : list A) (i : nat) :
  i < length l -> skipn i l = nth i l d :: skipn (S i) l.
Proof.
  revert i. induction l as [|x l IH]; intros i Hi; [cbn in Hi; lia|].
  destruct i as [|i]; [reflexivity|].
  cbn [skipn nth]. apply IH. cbn in Hi. lia.
Qed.

Lemma unescape_loop_plain (text : str) (fuel i : nat) :
  (forall c, In c text -> (c =? "\")%char = false) ->
  length text <= fuel + i ->
  unescape_loop fuel text i = skipn i text.
Proof.
  intros Hb. revert i. induction fuel as [|fuel IH]; intros i Hl.
  - cbn [unescape_loop]. symmetry. apply skipn_all2. lia.
  - cbn [unescape_loop]. destruct (Nat.ltb_spec i (length text)) as [Hi|Hi].
    + assert (Hn : (nth i text zero =? "\")%char = false)
        by (apply Hb, nth_In, Hi).
      rewrite Hn. cbn [andb]. rewrite IH by lia.
      rewrite Nat.add_1_r. symmetry. apply skipn_nth. exact Hi.
    + symmetry. apply skipn_all2. lia.
Qed.

Lemma unescape_plain (text : str) :
  (forall c, In c text -> (c =? "\")%char = false) ->
  unescape_math_underscores text = text.
Proof.
  intros H. unfold unescape_math_underscores.
  rewrite (unescape_loop_plain text (length text) 0 H) by lia. reflexivity.
Qed.

Lemma escape_from_in (x : str) (o : bool) (c : ascii) :
  In c (escape_from o x) -> c = "\"%char \/ In c x.
Proof.
  revert o. induction x as [|ch x IH]; intros o H; [destruct H|].
  cbn [escape_from] in H.
  destruct (ch =? "_")%char.
  - destruct o; cbn [app] in H.
    + destruct H as [H|H]; [right; left; exact H|].
      destruct (IH _ H); [left|right; right]; assumption.
    + destruct H as [H|[H|H]]; [left; symmetry; exact H|right; left; exact H|].
      destruct (IH _ H); [left|right; right]; assumption.
  - destruct (ch =? "\")%char; destruct H as [H|H];
      try (right; left; exact H);
      destruct (IH _ H); [left|right; right|left|right; right]; assumption.
Qed.

Lemma segment_no_at (body mode : str) (c : ascii) :
  plain body -> In c (normalize_math_underscores_segment body mode) ->
  (c =? "@")%char = false.
Proof.
  intros Hb. unfold normalize_math_underscores_segment.
  assert (Hat : forall d, In d body -> (d =? "@")%char = false)
    by (apply (plain_not _ body plain_not_at Hb)).
  destruct (str_eqb mode (py "underscore")).
  - rewrite unescape_plain by (apply (plain_not _ body plain_not_backslash Hb)).
    apply Hat.
  - destruct (str_eqb mode (py "escaped")); [|apply Hat].
    rewrite escape_scan. intros H. apply escape_from_in in H.
    destruct H as [H|H]; [subst c; reflexivity|apply Hat, H].
Qed.

Lemma restore_nil (text : str) : restore_tokens text [] = text.
Proof. reflexivity. Qed.

Lemma segment_keep (body : str) :
  normalize_math_underscores_segment body (py "keep") = body.
Proof. reflexivity. Qed.

(** A code span between single backticks and an inline math region, in
    either order, in a text whose other parts hold no backtick, tilde,
    dollar sign, backslash or at sign: in every mode the code span is left
    as it is, whatever it holds, and the inside of the math region is
    normalized as the mode says. *)
Theorem code_span_and_math_region (mode pre code mid body post : str) :
  plain pre -> plain mid -> plain post ->
  forallb code_char code = true -> code <> [] ->
  forallb math_char body = true -> body <> [] ->
  normalize_mathjax_underscores mode
    (pre ++ "`"%char :: code ++ "`"%char :: mid
         ++ "$"%char :: body ++ "$"%char :: post)
  = pre ++ "`"%char :: code ++ "`"%char :: mid
        ++ "$"%char :: normalize_math_underscores_segment body mode
        ++ "$"%char :: post
  /\ normalize_mathjax_underscores mode
       (pre ++ "$"%char :: body ++ "$"%char :: mid
            ++ "`"%char :: code ++ "`"%char :: post)
     = pre ++ "$"%char :: normalize_math_underscores_segment body mode
           ++ "$"%char :: mid ++ "`"%char :: code ++ "`"%char :: post.
Proof.
  intros Hpre Hmid Hpost Hcode Hcne Hbody Hbne.
  assert (Hbp := math_char_plain body Hbody).
  assert (Hbt : forall p, plain p -> forall c, In c p -> (c =? "`")%char = false)
    by (intros p Hp; apply (plain_not _ p plain_not_backtick Hp)).
  assert (Hdl : forall p, plain p -> forall c, In c p -> (c =? "$")%char = false)
    by (intros p Hp; apply (plain_not _ p plain_not_dollar Hp)).
  assert (Hbs : forall p, plain p -> forall c, In c p -> (c =? "\")%char = false)
    by (intros p Hp; apply (plain_not _ p plain_not_backslash Hp)).
  assert (Hat : forall p, plain p -> forall c, In c p -> (c =? "@")%char = false)
    by (intros p Hp; apply (plain_not _ p plain_not_at Hp)).
  assert (Htk : forall c, In c (make_token 0) ->
            (c =? "`")%char = false /\ (c =? "$")%char = false
            /\ (c =? "\")%char = false).
  { intros c Hc. destruct (token_chars 0 c Hc) as (H1 & _ & H3 & H4 & _).
    auto. }
  assert (Hcbt : forall c, In c code -> (c =? "`")%char = false)
    by (intros c Hc; apply (code_char_in code c Hcode Hc)).
  destruct code as [|c0 inner] eqn:Ecode; [contradiction|].
  rewrite <- Ecode in *. clear Hcne.
  assert (Hone : forall c, In c ["$"%char] ->
            (c =? "`")%char = false /\ (c =? "\")%char = false
            /\ (c =? "@")%char = false).
  { intros c [Hc|[]]. subst c. repeat split. }
  destruct (str_eqb mode (py "keep")) eqn:Ek.
  { apply str_eqb_eq in Ek. subst mode. unfold normalize_mathjax_underscores.
    cbn [str_eqb orb]. rewrite segment_keep.
    change (str_eqb (py "keep") (py "keep")) with true. cbn [orb].
    split; reflexivity. }
  split.
  - (* the code span first *)
    unfold normalize_mathjax_underscores. rewrite Ek. cbn [orb].
    replace (str_empty (pre ++ "`"%char :: code ++ "`"%char :: mid
                            ++ "$"%char :: body ++ "$"%char :: post))
      with false by (destruct pre; reflexivity).
    rewrite mask_fenced_no_fence.
    2:{ rewrite (no_fence_run_plain pre _ Hpre).
        rewrite no_fence_run_span;
          [|exact Hcode|rewrite Ecode; discriminate|
           apply starts_with_backtick_plain_app; [exact Hmid|reflexivity]].
        rewrite (no_fence_run_plain mid _ Hmid).
        rewrite (no_fence_run_math body post Hbp).
        apply plain_no_fence_run. exact Hpost. }
    unfold mask_inline_code_spans.
    rewrite (mask_inline_skip pre _ [] 0 (Hbt pre Hpre)).
    rewrite Ecode.
    change ("`"%char :: (c0 :: inner) ++ "`"%char :: mid
              ++ "$"%char :: body ++ "$"%char :: post)
      with ("`"%char :: (c0 :: inner) ++ "`"%char
              :: (mid ++ "$"%char :: body ++ "$"%char :: post)).
    rewrite (mask_inline_span c0 inner _ [] 0)
      by (rewrite <- Ecode; exact Hcbt).
    rewrite mask_inline_skip_end.
    2:{ apply in_app_not; [exact (Hbt mid Hmid)|].
        intros c [Hc|Hc]; [subst c; reflexivity|].
        apply in_app_iff in Hc. destruct Hc as [Hc|[Hc|Hc]];
          [exact (Hbt body Hbp c Hc)|subst c; reflexivity
          |exact (Hbt post Hpost c Hc)]. }
    cbv beta iota.
    cbn [dict_set dict_update fold_left fst snd].
    rewrite <- Ecode.
    set (raw := "`"%char :: code ++ ["`"%char]).
    change (0 + 1)%Z with 1%Z.
    unfold protect_math, re_sub.
    replace (pre ++ make_token 0 ++ mid ++ "$"%char :: body ++ "$"%char :: post)
      with ((pre ++ make_token 0 ++ mid) ++ "$"%char :: body ++ "$"%char :: post)
      by (rewrite <- !app_assoc; reflexivity).
    assert (Hd1 : forall c, In c (pre ++ make_token 0 ++ mid) ->
                            (c =? "$")%char = false).
    { apply in_app_not; [exact (Hdl pre Hpre)|].
      apply in_app_not; [intros c Hc; apply (Htk c Hc)|exact (Hdl mid Hmid)]. }
    assert (Hb1 : forall c, In c (pre ++ make_token 0 ++ mid) ->
                            (c =? "\")%char = false).
    { apply in_app_not; [exact (Hbs pre Hpre)|].
      apply in_app_not; [intros c Hc; apply (Htk c Hc)|exact (Hbs mid Hmid)]. }
    assert (Hpost_d : starts_with_dollar post = false).
    { rewrite <- (app_nil_r post). apply plain_head_not_dollar;
        [exact Hpost|reflexivity]. }
    rewrite (re_sub_skip DISPLAY_DOLLAR_RE _ (pre ++ make_token 0 ++ mid))
      by (apply (dead_of_not _ _ _ dead_display Hd1)).
    rewrite (display_region _ _ body post _ Hbp Hbne Hpost_d).
    rewrite (re_sub_skip_end DISPLAY_DOLLAR_RE _ post)
      by (apply (dead_of_not _ _ _ dead_display (Hdl post Hpost))).
    cbv beta iota.
    assert (Hb2 : forall c,
               In c ((pre ++ make_token 0 ++ mid)
                       ++ "$"%char :: body ++ "$"%char :: post) ->
               (c =? "\")%char = false).
    { apply in_app_not; [exact Hb1|].
      intros c [Hc|Hc]; [subst c; reflexivity|].
      apply in_app_iff in Hc. destruct Hc as [Hc|[Hc|Hc]];
        [exact (Hbs body Hbp c Hc)|subst c; reflexivity
        |exact (Hbs post Hpost c Hc)]. }
    rewrite (re_sub_skip_end BRACKET_MATH_RE _ _ None _
               (dead_of_not _ _ _ dead_bracket Hb2)).
    cbv beta iota.
    rewrite (re_sub_skip_end PAREN_MATH_RE _ _ None _
               (dead_of_not _ _ _ dead_paren Hb2)).
    cbv beta iota. cbn [snd].
    rewrite (re_sub_skip INLINE_DOLLAR_RE _ (pre ++ make_token 0 ++ mid))
      by (apply (dead_of_not _ _ _ dead_inline Hd1)).
    rewrite (inline_region mode _ body post)
      by (first [apply prev_after_not_backslash; [reflexivity|exact Hb1]
                |assumption]).
    rewrite (re_sub_skip_end INLINE_DOLLAR_RE _ post)
      by (apply (dead_of_not _ _ _ dead_inline (Hdl post Hpost))).
    cbv beta iota. cbn [fst]. rewrite restore_nil.
    replace ((pre ++ make_token 0 ++ mid)
               ++ "$"%char :: normalize_math_underscores_segment body mode
               ++ "$"%char :: post)
      with (pre ++ make_token 0
                ++ (mid ++ "$"%char :: normalize_math_underscores_segment body mode
                        ++ "$"%char :: post))
      by (rewrite <- !app_assoc; reflexivity).
    rewrite restore_one.
    + unfold raw. cbn [app]. rewrite <- app_assoc. reflexivity.
    + exact (Hat pre Hpre).
    + apply in_app_not; [exact (Hat mid Hmid)|].
      intros c [Hc|Hc]; [subst c; reflexivity|].
      apply in_app_iff in Hc. destruct Hc as [Hc|[Hc|Hc]];
        [exact (segment_no_at body mode c Hbp Hc)|subst c; reflexivity
        |exact (Hat post Hpost c Hc)].
  - (* the math region first *)
    unfold normalize_mathjax_underscores. rewrite Ek. cbn [orb].
    replace (str_empty (pre ++ "$"%char :: body ++ "$"%char :: mid
                            ++ "`"%char :: code ++ "`"%char :: post))
      with false by (destruct pre; reflexivity).
    rewrite mask_fenced_no_fence.
    2:{ rewrite (no_fence_run_plain pre _ Hpre).
        rewrite (no_fence_run_math body _ Hbp).
        rewrite (no_fence_run_plain mid _ Hmid).
        rewrite no_fence_run_span;
          [|exact Hcode|rewrite Ecode; discriminate|
           rewrite <- (app_nil_r post);
           apply starts_with_backtick_plain_app; [exact Hpost|reflexivity]].
        apply plain_no_fence_run. exact Hpost. }
    unfold mask_inline_code_spans.
    replace (pre ++ "$"%char :: body ++ "$"%char :: mid
                 ++ "`"%char :: code ++ "`"%char :: post)
      with ((pre ++ "$"%char :: body ++ "$"%char :: mid)
              ++ "`"%char :: code ++ "`"%char :: post)
      by (rewrite <- !app_assoc; cbn [app]; rewrite <- !app_assoc; reflexivity).
    assert (Hq : forall c, In c (pre ++ "$"%char :: body ++ "$"%char :: mid) ->
                           (c =? "`")%char = false).
    { apply in_app_not; [exact (Hbt pre Hpre)|].
      intros c [Hc|Hc]; [subst c; reflexivity|].
      apply in_app_iff in Hc. destruct Hc as [Hc|[Hc|Hc]];
        [exact (Hbt body Hbp c Hc)|subst c; reflexivity
        |exact (Hbt mid Hmid c Hc)]. }
    rewrite (mask_inline_skip _ _ [] 0 Hq).
    rewrite Ecode.
    rewrite (mask_inline_span c0 inner post [] 0)
      by (rewrite <- Ecode; exact Hcbt).
    rewrite (mask_inline_skip_end post) by (exact (Hbt post Hpost)).
    cbv beta iota.
    cbn [dict_set dict_update fold_left fst snd].
    rewrite <- Ecode.
    set (raw := "`"%char :: code ++ ["`"%char]).
    change (0 + 1)%Z with 1%Z.
    unfold protect_math, re_sub.
    replace ((pre ++ "$"%char :: body ++ "$"%char :: mid)
               ++ make_token 0 ++ post)
      with (pre ++ "$"%char :: body ++ "$"%char :: (mid ++ make_token 0 ++ post))
      by (rewrite <- !app_assoc; cbn [app]; rewrite <- !app_assoc; reflexivity).
    assert (Hd2 : forall c, In c (mid ++ make_token 0 ++ post) ->
                            (c =? "$")%char = false).
    { apply in_app_not; [exact (Hdl mid Hmid)|].
      apply in_app_not; [intros c Hc; apply (Htk c Hc)|exact (Hdl post Hpost)]. }
    assert (Hb3 : forall c, In c (mid ++ make_token 0 ++ post) ->
                            (c =? "\")%char = false).
    { apply in_app_not; [exact (Hbs mid Hmid)|].
      apply in_app_not; [intros c Hc; apply (Htk c Hc)|exact (Hbs post Hpost)]. }
    assert (Hrest_d : starts_with_dollar (mid ++ make_token 0 ++ post) = false).
    { apply plain_head_not_dollar; [exact Hmid|reflexivity]. }
    rewrite (re_sub_skip DISPLAY_DOLLAR_RE _ pre)
      by (apply (dead_of_not _ _ _ dead_display (Hdl pre Hpre))).
    rewrite (display_region _ _ body _ _ Hbp Hbne Hrest_d).
    rewrite (re_sub_skip_end DISPLAY_DOLLAR_RE _ (mid ++ make_token 0 ++ post))
      by (apply (dead_of_not _ _ _ dead_display Hd2)).
    cbv beta iota.
    assert (Hb2 : forall c,
               In c (pre ++ "$"%char :: body ++ "$"%char
                         :: (mid ++ make_token 0 ++ post)) ->
               (c =? "\")%char = false).
    { apply in_app_not; [exact (Hbs pre Hpre)|].
      intros c [Hc|Hc]; [subst c; reflexivity|].
      apply in_app_iff in Hc. destruct Hc as [Hc|[Hc|Hc]];
        [exact (Hbs body Hbp c Hc)|subst c; reflexivity|exact (Hb3 c Hc)]. }
    rewrite (re_sub_skip_end BRACKET_MATH_RE _ _ None _
               (dead_of_not _ _ _ dead_bracket Hb2)).
    cbv beta iota.
    rewrite (re_sub_skip_end PAREN_MATH_RE _ _ None _
               (dead_of_not _ _ _ dead_paren Hb2)).
    cbv beta iota. cbn [snd].
    rewrite (re_sub_skip INLINE_DOLLAR_RE _ pre)
      by (apply (dead_of_not _ _ _ dead_inline (Hdl pre Hpre))).
    rewrite (inline_region mode _ body _)
      by (first [apply prev_after_not_backslash;
                   [reflexivity|exact (Hbs pre Hpre)]
                |assumption]).
    rewrite (re_sub_skip_end INLINE_DOLLAR_RE _ (mid ++ make_token 0 ++ post))
      by (apply (dead_of_not _ _ _ dead_inline Hd2)).
    cbv beta iota. cbn [fst]. rewrite restore_nil.
    replace (pre ++ "$"%char :: normalize_math_underscores_segment body mode
                 ++ "$"%char :: mid ++ make_token 0 ++ post)
      with ((pre ++ "$"%char :: normalize_math_underscores_segment body mode
                 ++ "$"%char :: mid) ++ make_token 0 ++ post)
      by (rewrite <- !app_assoc; cbn [app]; rewrite <- !app_assoc; reflexivity).
    rewrite restore_one.
    + unfold raw. rewrite <- !app_assoc. cbn [app]. rewrite <- !app_assoc.
      reflexivity.
    + apply in_app_not; [exact (Hat pre Hpre)|].
      intros c [Hc|Hc]; [subst c; reflexivity|].
      apply in_app_iff in Hc. destruct Hc as [Hc|[Hc|Hc]];
        [exact (segment_no_at body mode c Hbp Hc)|subst c; reflexivity
        |exact (Hat mid Hmid c Hc)].
    + exact (Hat post Hpost).
Qed.

Lemma code_span_and_math_region_witness :
  normalize_mathjax_underscores (py "escaped")
    (py "Code `a_b $c_d$` and math $x_1 + y_2$.")
  = py "Code `a_b $c_d$` and math $x\_1 + y\_2$.".
Proof.
  exact (proj1 (code_span_and_math_region (py "escaped") (py "Code ")
                  (py "a_b $c_d$") (py " and math ") (py "x_1 + y_2") (py ".")
                  eq_refl eq_refl eq_refl eq_refl ltac:(discriminate)
                  eq_refl ltac:(discriminate))).
Defined.

(** ** Masking and restoring *)

Lemma no_at_in (s : str) (c : ascii) :
  no_at s = true -> In c s -> (c =? "@")%char = false.
Proof.
  unfold no_at. rewrite forallb_forall. intros H Hc.
  apply negb_true_iff. exact (H c Hc).
Qed.

Lemma no_at_app (a b : str) : no_at (a ++ b) = no_at a && no_at b.
Proof. apply forallb_app. Qed.

Lemma no_sub_tail (w : str) (c : ascii) (s : str) :
  no_sub w (c :: s) = true -> no_sub w s = true.
Proof. cbn [no_sub]. intros H. apply andb_true_iff in H. apply H. Qed.

Lemma no_sub_head (w s : str) : no_sub w s = true -> startswith s w = false.
Proof.
  destruct s; cbn [no_sub]; intros H; apply andb_true_iff in H;
    apply negb_true_iff; apply H.
Qed.

Lemma no_sub_app (w a b : str) : no_sub w (a ++ b) = true -> no_sub w b = true.
Proof.
  induction a as [|c a IH]; [auto|]. cbn [app]. intros H.
  apply IH. exact (no_sub_tail w c _ H).
Qed.

Lemma find_from_none (w s : str) (pos : nat) :
  find_from w pos s = None -> no_sub w s = true.
Proof.
  revert pos. induction s as [|c s IH]; intros pos; cbn [find_from no_sub].
  - destruct (startswith [] w); [discriminate|reflexivity].
  - destruct (startswith (c :: s) w); [discriminate|].
    intros H. cbn [negb andb]. exact (IH _ H).
Qed.

Lemma contains_no_sub (s w : str) : contains s w = false -> no_sub w s = true.
Proof.
  unfold contains, find. destruct (find_from w 0 s) eqn:E; [discriminate|].
  intros _. exact (find_from_none w s 0 E).
Qed.

Lemma masks_chars (p : str) (k : Z) (s m : str) (toks : list (str * str))
  (k' : Z) :
  masks k s m toks k' -> masks k (p ++ s) (p ++ m) toks k'.
Proof.
  intros H. induction p as [|c p IH]; [exact H|].
  cbn [app]. apply masks_char. exact IH.
Qed.

Lemma masks_all (p : str) (k : Z) : masks k p p [] k.
Proof.
  rewrite <- (app_nil_r p). apply masks_chars. constructor.
Qed.

(** *** Tokens do not overlap *)

Lemma startswith_same (p a b : str) :
  startswith (p ++ a) (p ++ b) = startswith a b.
Proof.
  induction p as [|c p IH]; [reflexivity|].
  cbn [app startswith]. rewrite Ascii.eqb_refl. exact IH.
Qed.

Lemma startswith_prefix (s a b : str) :
  startswith s (a ++ b) = true -> startswith s a = true.
Proof.
  revert s. induction a as [|c a IH]; intros s; [intros _; apply startswith_nil|].
  cbn [app startswith]. destruct s as [|d s]; [discriminate|].
  intros H. apply andb_true_iff in H. destruct H as [H1 H2].
  rewrite H1. exact (IH s H2).
Qed.

Lemma index_prefix (D D' x y : str) :
  no_at D = true -> no_at D' = true ->
  startswith (D ++ "@"%char :: x) (D' ++ "@"%char :: y) = true -> D = D'.
Proof.
  revert D. induction D' as [|d' D' IH]; intros D HD HD'.
  - destruct D as [|d D]; [reflexivity|].
    cbn [app startswith].
    rewrite Ascii.eqb_sym, (no_at_in (d :: D) d HD (or_introl eq_refl)).
    discriminate.
  - destruct D as [|d D]; cbn [app startswith].
    + rewrite (no_at_in (d' :: D') d' HD' (or_introl eq_refl)). discriminate.
    + intros H. apply andb_true_iff in H. destruct H as [H1 H2].
      apply Ascii.eqb_eq in H1. subst d'. f_equal.
      apply IH; [| |exact H2].
      * cbn in HD. apply andb_true_iff in HD. apply HD.
      * cbn in HD'. apply andb_true_iff in HD'. apply HD'.
Qed.

Lemma index_no_at (z : Z) : no_at (str_of_Z z) = true.
Proof.
  unfold no_at. apply forallb_forall. intros c Hc.
  assert (H := str_of_Z_chars z). rewrite forallb_forall in H.
  specialize (H c Hc). apply negb_true_iff.
  destruct (Ascii.eqb_spec c "@") as [E|E]; [|reflexivity].
  subst c. discriminate H.
Qed.

Lemma token_form (k : Z) :
  make_token k = py "@@" ++ TOKEN_WORD ++ str_of_Z k ++ py "@@".
Proof. reflexivity. Qed.

(** The token of another index does not start where a token starts. *)
Lemma token_mismatch (i j : Z) (x : str) :
  i <> j -> startswith (make_token i ++ x) (make_token j) = false.
Proof.
  intros Hne. destruct (startswith (make_token i ++ x) (make_token j)) eqn:E;
    [|reflexivity].
  exfalso. apply Hne. apply str_of_Z_injective.
  rewrite !token_form in E.
  replace ((py "@@" ++ TOKEN_WORD ++ str_of_Z i ++ py "@@") ++ x)
    with ((py "@@" ++ TOKEN_WORD) ++ str_of_Z i ++ "@"%char :: "@"%char :: x)
    in E by (rewrite <- !app_assoc; reflexivity).
  replace (py "@@" ++ TOKEN_WORD ++ str_of_Z j ++ py "@@")
    with ((py "@@" ++ TOKEN_WORD) ++ str_of_Z j ++ "@"%char :: ["@"%char])
    in E by (rewrite <- !app_assoc; reflexivity).
  rewrite startswith_same in E.
  exact (index_prefix _ _ _ _ (index_no_at i) (index_no_at j) E).
Qed.

Lemma token_differs (i j : Z) : i <> j -> make_token i <> make_token j.
Proof.
  intros Hne E. assert (H := token_mismatch i j [] Hne).
  rewrite E, startswith_app in H. discriminate H.
Qed.

Lemma token_cons (k : Z) :
  make_token k
  = "@"%char :: "@"%char :: (TOKEN_WORD ++ str_of_Z k) ++ ["@"%char; "@"%char].
Proof. rewrite token_form, <- app_assoc. reflexivity. Qed.

Lemma replace_skips (old new p rest : str) (c0 : ascii) (old' : str) :
  old = c0 :: old' ->
  (forall c, In c p -> (c =? c0)%char = false) ->
  replace_from old new 0 (p ++ rest) = p ++ replace_from old new 0 rest.
Proof. intros ->. apply replace_from_skip. Qed.

Lemma replace_at (old new tail : str) (c0 : ascii) (old' : str) :
  old = c0 :: old' ->
  replace_from old new 0 (old ++ tail) = new ++ replace_from old new 0 tail.
Proof. intros ->. apply replace_from_at. Qed.

Lemma replace_from_no (old new : str) (c : ascii) (s : str) :
  startswith (c :: s) old = false ->
  replace_from old new 0 (c :: s) = c :: replace_from old new 0 s.
Proof. intros H. cbn [replace_from]. rewrite H. reflexivity. Qed.

(** A replacement of the token of [j] passes over the token of another
    index when no token can start at one of its last two at signs. *)
Lemma replace_passes_token (i j : Z) (r m : str) :
  i <> j ->
  startswith m TOKEN_WORD = false ->
  startswith ("@"%char :: m) (make_token j) = false ->
  replace_from (make_token j) r 0 (make_token i ++ m)
  = make_token i ++ replace_from (make_token j) r 0 m.
Proof.
  intros Hne Hw Hat.
  assert (H0 := token_mismatch i j m Hne).
  rewrite (token_cons i) in *. cbn [app] in *.
  rewrite (replace_from_no _ _ _ _ H0).
  rewrite replace_from_no by (rewrite token_cons; reflexivity).
  rewrite <- app_assoc.
  rewrite (replace_skips _ _ _ _ _ _ (token_cons j)).
  2:{ intros c Hc. apply (no_at_in (TOKEN_WORD ++ str_of_Z i)); [|exact Hc].
      rewrite no_at_app, index_no_at. reflexivity. }
  cbn [app].
  rewrite replace_from_no.
  2:{ rewrite token_form. cbn [py app]. 
      change (startswith ("@"%char :: "@"%char :: m)
                (py "@@" ++ TOKEN_WORD ++ str_of_Z j ++ py "@@"))
        with (startswith m (TOKEN_WORD ++ str_of_Z j ++ py "@@")).
      destruct (startswith m (TOKEN_WORD ++ str_of_Z j ++ py "@@")) eqn:E;
        [|reflexivity].
      apply startswith_prefix in E. rewrite E in Hw. discriminate Hw. }
  rewrite (replace_from_no _ _ _ _ Hat).
  rewrite <- !app_assoc. reflexivity.
Qed.

(** Where the masked text starts with a text without at sign, the text
    starts with it too. *)
Lemma masks_startswith (k : Z) (s m : str) (toks : list (str * str)) (k' : Z) :
  masks k s m toks k' ->
  forall w, no_at w = true -> startswith m w = true -> startswith s w = true.
Proof.
  induction 1 as [k|k c s m toks k' _ IH|k r s m toks k' _ _];
    intros w Hw H.
  - exact H.
  - destruct w as [|d w]; [reflexivity|].
    cbn [startswith] in *. apply andb_true_iff in H. destruct H as [H1 H2].
    rewrite H1. apply IH; [|exact H2].
    cbn in Hw. apply andb_true_iff in Hw. apply Hw.
  - destruct w as [|d w]; [apply startswith_nil|].
    rewrite token_cons in H. cbn [app startswith] in H.
    rewrite (no_at_in (d :: w) d Hw (or_introl eq_refl)) in H.
    discriminate H.
Qed.

Lemma masks_tail (k : Z) (s m : str) (toks : list (str * str)) (k' : Z) :
  masks k s m toks k' -> no_at s = true -> no_sub TOKEN_WORD s = true ->
  startswith m TOKEN_WORD = false
  /\ forall j, startswith ("@"%char :: m) (make_token j) = false.
Proof.
  intros H Hs Hw. split.
  - destruct (startswith m TOKEN_WORD) eqn:E; [|reflexivity].
    apply (masks_startswith _ _ _ _ _ H) in E; [|reflexivity].
    rewrite (no_sub_head _ _ Hw) in E. discriminate E.
  - intros j. rewrite (token_cons j). destruct H as [k|k c s m toks k' _|k r s m toks k' _].
    + reflexivity.
    + cbn [startswith]. rewrite Ascii.eqb_refl. cbn [andb].
      rewrite Ascii.eqb_sym, (no_at_in (c :: s) c Hs (or_introl eq_refl)).
      reflexivity.
    + rewrite (token_cons k). reflexivity.
Qed.

(** The masked text holds no token of an index below the first one. *)
Lemma older_token_absent (k : Z) (s m : str) (toks : list (str * str))
  (k' : Z) :
  masks k s m toks k' -> no_at s = true -> no_sub TOKEN_WORD s = true ->
  forall (j : Z) (r : str), (j < k)%Z ->
    replace_from (make_token j) r 0 m = m.
Proof.
  induction 1 as [k|k c s m toks k' _ IH|k r0 s m toks k' Hm IH];
    intros Hs Hw j r Hj.
  - reflexivity.
  - rewrite replace_from_no.
    + f_equal. apply IH; [|exact (no_sub_tail _ _ _ Hw)|exact Hj].
      cbn in Hs. apply andb_true_iff in Hs. apply Hs.
    + rewrite token_cons.
      apply startswith_other_head.
      exact (no_at_in (c :: s) c Hs (or_introl eq_refl)).
  - rewrite no_at_app in Hs. apply andb_true_iff in Hs. destruct Hs as [_ Hs].
    apply no_sub_app in Hw.
    destruct (masks_tail _ _ _ _ _ Hm Hs Hw) as [T1 T2].
    rewrite replace_passes_token; [|lia|exact T1|apply T2].
    f_equal. apply IH; [exact Hs|exact Hw|lia].
Qed.

Lemma restore_cons (text : str) (k : Z) (r : str) (toks : list (str * str)) :
  restore_tokens text ((make_token k, r) :: toks)
  = restore_tokens (replace_from (make_token k) r 0 text) toks.
Proof. reflexivity. Qed.

(** Restoring the tokens of a masked text gives the text back. *)
Lemma restore_masks (k : Z) (s m : str) (toks : list (str * str)) (k' : Z) :
  masks k s m toks k' -> no_at s = true -> no_sub TOKEN_WORD s = true ->
  forall pre, no_at pre = true ->
    restore_tokens (pre ++ m) toks = pre ++ s.
Proof.
  induction 1 as [k|k c s m toks k' _ IH|k r s m toks k' Hm IH];
    intros Hs Hw pre Hpre.
  - apply restore_nil.
  - change (pre ++ c :: m) with (pre ++ [c] ++ m).
    change (pre ++ c :: s) with (pre ++ [c] ++ s).
    rewrite !app_assoc. cbn in Hs. apply andb_true_iff in Hs.
    apply IH; [apply Hs|exact (no_sub_tail _ _ _ Hw)|].
    rewrite no_at_app, Hpre. cbn. rewrite (proj1 Hs). reflexivity.
  - rewrite no_at_app in Hs. apply andb_true_iff in Hs. destruct Hs as [Hr Hs].
    apply no_sub_app in Hw.
    rewrite restore_cons.
    rewrite (replace_skips _ _ _ _ _ _ (token_cons k))
      by (intros c Hc; exact (no_at_in pre c Hpre Hc)).
    rewrite (replace_at _ _ _ _ _ (token_cons k)).
    rewrite (older_token_absent _ _ _ _ _ Hm Hs Hw k r) by lia.
    rewrite app_assoc. rewrite app_assoc. apply IH; [exact Hs|exact Hw|].
    rewrite no_at_app, Hpre, Hr. reflexivity.
Qed.

(** *** The masking loops *)

Lemma older_set (k : Z) (tokens : list (str * str)) (raw : str) :
  older k tokens ->
  dict_set str_eqb tokens (make_token k) raw = tokens ++ [(make_token k, raw)]
  /\ older (k + 1) (tokens ++ [(make_token k, raw)]).
Proof.
  intros H. split.
  - induction H as [|[key v] tokens (i & Hi & E) _ IH]; [reflexivity|].
    cbn [dict_set app]. cbn [fst] in E. subst key.
    destruct (str_eqb (make_token k) (make_token i)) eqn:Eq.
    + apply str_eqb_eq in Eq. exfalso. revert Eq. apply token_differs. lia.
    + rewrite IH. reflexivity.
  - apply Forall_app. split.
    + apply (Forall_impl _ (P := fun item =>
                 exists i, (i < k)%Z /\ fst item = make_token i)); [|exact H].
      intros item (i & Hi & E). exists i. split; [lia|exact E].
    + constructor; [|constructor]. exists k. split; [lia|reflexivity].
Qed.

Lemma startswith_split (s p : str) :
  startswith s p = true -> exists b, s = p ++ b.
Proof.
  revert s. induction p as [|c p IH]; intros s H.
  - exists s. reflexivity.
  - destruct s as [|d s]; [discriminate H|].
    cbn [startswith] in H. apply andb_true_iff in H. destruct H as [H1 H2].
    apply Ascii.eqb_eq in H1. subst d. destruct (IH s H2) as [b ->].
    exists b. reflexivity.
Qed.

Lemma find_from_some (sub s : str) (pos i : nat) :
  find_from sub pos s = Some i ->
  exists a b, s = a ++ sub ++ b /\ i = pos + length a.
Proof.
  revert pos. induction s as [|c s IH]; intros pos; cbn [find_from].
  - destruct (startswith [] sub) eqn:E; [|discriminate].
    intros H. injection H as <-. destruct (startswith_split _ _ E) as [b Hb].
    exists [], b. split; [exact Hb|simpl; lia].
  - destruct (startswith (c :: s) sub) eqn:E.
    + intros H. injection H as <-. destruct (startswith_split _ _ E) as [b Hb].
      exists [], b. split; [exact Hb|simpl; lia].
    + intros H. destruct (IH _ H) as (a & b & -> & ->).
      exists (c :: a), b. split; [reflexivity|simpl; lia].
Qed.

(** The loop of [mask_inline_code_spans] masks its text. *)
Lemma mask_inline_masks (n : nat) :
  forall (s : str) (tokens : list (str * str)) (k : Z),
    length s <= n -> older k tokens ->
    exists m toks k',
      mask_inline_from 0 s tokens k = (m, tokens ++ toks, k')
      /\ masks k s m toks k'.
Proof.
  induction n as [|n IH]; intros s tokens k Hn Hold.
  - destruct s; [|simpl in Hn; lia].
    exists [], [], k. rewrite app_nil_r. split; [reflexivity|constructor].
  - destruct s as [|c s'].
    + exists [], [], k. rewrite app_nil_r. split; [reflexivity|constructor].
    + simpl in Hn.
      assert (Hchar : exists m toks k',
                 (let '(out, tokens1, index1) :=
                    mask_inline_from 0 s' tokens k in
                  (c :: out, tokens1, index1)) = (m, tokens ++ toks, k')
                 /\ masks k (c :: s') m toks k').
      { destruct (IH s' tokens k ltac:(lia) Hold) as (m & toks & k' & E & Hm).
        exists (c :: m), toks, k'. rewrite E.
        split; [reflexivity|constructor; exact Hm]. }
      cbn [mask_inline_from].
      destruct (negb (c =? "`")%char) eqn:Ec; [exact Hchar|].
      destruct (span (fun d => (d =? "`")%char) (c :: s'))
        as [delimiter after] eqn:Es.
      destruct (find after delimiter) as [close|] eqn:Ef; [|exact Hchar].
      clear Hchar.
      destruct (span_spec _ _ _ _ Es) as (E & _ & _).
      assert (Hd : 1 <= length delimiter).
      { cbn [span] in Es. apply negb_false_iff in Ec. rewrite Ec in Es.
        destruct (span _ s'). injection Es as <- _. simpl. lia. }
      unfold find in Ef.
      destruct (find_from_some _ _ _ _ Ef) as (a & b & -> & ->).
      cbn [Nat.add] in *.
      set (raw := delimiter ++ a ++ delimiter).
      assert (Es' : c :: s' = raw ++ b).
      { rewrite E. unfold raw. rewrite <- !app_assoc. reflexivity. }
      assert (Hlen : length delimiter + length a + length delimiter
                     = length raw).
      { unfold raw. rewrite !length_app. lia. }
      rewrite Hlen.
      assert (Hraw : firstn (length raw) (c :: s') = raw).
      { rewrite Es'. rewrite <- (Nat.add_0_r (length raw)).
        rewrite firstn_app_2. simpl. apply app_nil_r. }
      rewrite Hraw.
      assert (Hs' : s' = tl raw ++ b /\ length raw - 1 = length (tl raw)).
      { destruct raw as [|r0 raw'] eqn:Er.
        - simpl in Hlen. lia.
        - cbn [app] in Es'. injection Es' as _ ->. simpl.
          split; [reflexivity|lia]. }
      destruct Hs' as [Hs' Hl]. rewrite Hl, Hs', mask_inline_skipn.
      destruct (older_set k tokens raw Hold) as [Hset Hold'].
      rewrite Hset.
      destruct (IH b (tokens ++ [(make_token k, raw)]) (k + 1)%Z)
        as (m & toks & k' & Em & Hm); [|exact Hold'|].
      { assert (L : length (c :: s') = length (raw ++ b)) by (rewrite Es'; reflexivity).
        rewrite length_app in L. simpl in L. lia. }
      exists (make_token k ++ m), ((make_token k, raw) :: toks), k'.
      match goal with
      | |- context [mask_inline_from 0 b ?t ?i] =>
          replace (mask_inline_from 0 b t i)
            with (m, (tokens ++ [(make_token k, raw)]) ++ toks, k')
            by (symmetry; exact Em)
      end.
      rewrite <- app_assoc. split; [reflexivity|].
      rewrite <- Hs'.
      rewrite Es'. constructor. exact Hm.
Qed.

Lemma mask_fenced_masks (lines : list str) :
  forall (fence : fence_state) (tokens : list (str * str)) (k : Z),
    older k tokens ->
    exists m toks k',
      mask_fenced_lines lines fence tokens k = (m, tokens ++ toks, k')
      /\ masks k (match fence with
                  | Some (_, _, fence_buffer) => concat fence_buffer
                  | None => []
                  end ++ concat lines) m toks k'.
Proof.
  induction lines as [|line lines IH]; intros fence tokens k Hold.
  - destruct fence as [[[fc fl] buf]|]; cbn [mask_fenced_lines concat].
    + exists (concat buf), [], k. rewrite !app_nil_r.
      split; [reflexivity|apply masks_all].
    + exists [], [], k. rewrite app_nil_r. split; [reflexivity|constructor].
  - destruct fence as [[[fc fl] buf]|]; cbn [mask_fenced_lines].
    + replace (concat buf ++ concat (line :: lines))
        with (concat (buf ++ [line]) ++ concat lines)
        by (rewrite concat_app; cbn [concat]; rewrite app_nil_r, <- app_assoc;
            reflexivity).
      destruct (fence_close fc fl line).
      * destruct (older_set k tokens (concat (buf ++ [line])) Hold)
          as [Hset Hold'].
        rewrite Hset.
        destruct (IH None _ _ Hold') as (m & toks & k' & E & Hm).
        exists (make_token k ++ m),
               ((make_token k, concat (buf ++ [line])) :: toks), k'.
        rewrite E, <- app_assoc. split; [reflexivity|].
        constructor. exact Hm.
      * exact (IH (Some (fc, fl, buf ++ [line])) tokens k Hold).
    + cbn [app concat]. destruct (fence_open line) as [[fc fl]|].
      * destruct (IH (Some (fc, fl, [line])) tokens k Hold)
          as (m & toks & k' & E & Hm).
        exists m, toks, k'. split; [exact E|].
        cbn [concat] in Hm. rewrite app_nil_r in Hm. exact Hm.
      * destruct (IH None tokens k Hold) as (m & toks & k' & E & Hm).
        exists (line ++ m), toks, k'. rewrite E.
        split; [reflexivity|]. apply masks_chars. exact Hm.
Qed.

(** Merging the tokens of a masked text into older ones appends them. *)
Lemma dict_update_masks (k : Z) (s m : str) (toks : list (str * str))
  (k' : Z) :
  masks k s m toks k' ->
  forall d, older k d -> dict_update str_eqb d toks = d ++ toks.
Proof.
  induction 1 as [k|k c s m toks k' _ IH|k r s m toks k' _ IH]; intros d Hd.
  - symmetry. apply app_nil_r.
  - exact (IH d Hd).
  - destruct (older_set k d r Hd) as [Hset Hold'].
    change (dict_update str_eqb d ((make_token k, r) :: toks))
      with (dict_update str_eqb (dict_set str_eqb d (make_token k) r) toks).
    rewrite Hset, (IH _ Hold'), <- app_assoc. reflexivity.
Qed.

(** Each of the two masking steps is undone by [restore_tokens] on a
    text that holds no at sign and not the word of the tokens; so is the
    one after the other, as [normalize_mathjax_underscores] runs them, on
    such a text in which no line opens a fence. *)
Theorem masking_is_undone (text : str) (k : Z) :
  no_at text = true -> contains text TOKEN_WORD = false ->
  (let '(masked, tokens, _) := mask_fenced_code_blocks text k in
   restore_tokens masked tokens = text)
  /\ (let '(masked, tokens, _) := mask_inline_code_spans text k in
      restore_tokens masked tokens = text)
  /\ (no_fence_line text = true -> mask_then_restore text = text).
Proof.
  intros Hat Hw. apply contains_no_sub in Hw.
  assert (Hinline : forall i,
            let '(masked, tokens, _) := mask_inline_code_spans text i in
            restore_tokens masked tokens = text
            /\ dict_update str_eqb [] tokens = tokens).
  { intros i. unfold mask_inline_code_spans.
    destruct (mask_inline_masks (length text) text [] i (Nat.le_refl _)
                (Forall_nil _)) as (m & toks & k' & E & Hm).
    rewrite E. cbn [app]. split.
    - exact (restore_masks _ _ _ _ _ Hm Hat Hw [] eq_refl).
    - exact (dict_update_masks _ _ _ _ _ Hm [] (Forall_nil _)). }
  split; [|split].
  - unfold mask_fenced_code_blocks.
    destruct (mask_fenced_masks (splitlines true text) None [] k
                (Forall_nil _)) as (m & toks & k' & E & Hm).
    rewrite E. cbn [app] in *. unfold splitlines in Hm.
    rewrite (splitlines_aux_concat (length text) text [] (Nat.le_refl _))
      in Hm.
    exact (restore_masks _ _ _ _ _ Hm Hat Hw [] eq_refl).
  - specialize (Hinline k).
    destruct (mask_inline_code_spans text k) as [[m toks] k']. apply Hinline.
  - intros Hf. unfold mask_then_restore.
    assert (Hm : mask_fenced_code_blocks text 0 = (text, [], 0%Z)).
    { unfold mask_fenced_code_blocks. rewrite mask_fenced_lines_no_fence.
      - unfold splitlines.
        rewrite (splitlines_aux_concat (length text) text [] (Nat.le_refl _)).
        reflexivity.
      - apply Forall_forall. intros line Hl. unfold no_fence_line in Hf.
        rewrite forallb_forall in Hf. specialize (Hf line Hl).
        destruct (fence_open line); [discriminate Hf|reflexivity]. }
    rewrite Hm.
    specialize (Hinline 0%Z).
    destruct (mask_inline_code_spans text 0) as [[m toks] k'].
    destruct Hinline as [H1 H2]. rewrite H2. exact H1.
Qed.


Lemma masking_is_undone_witness :
  (let '(masked, tokens, _) := mask_fenced_code_blocks fence_and_span 0 in
   restore_tokens masked tokens = fence_and_span)
  /\ (let '(masked, tokens, _) := mask_inline_code_spans fence_and_span 0 in
      restore_tokens masked tokens = fence_and_span)
  /\ mask_then_restore two_spans = two_spans.
Proof.
  destruct (masking_is_undone fence_and_span 0 eq_refl eq_refl) as (H1 & H2 & _).
  destruct (masking_is_undone two_spans 0 eq_refl eq_refl) as (_ & _ & H3).
  exact (conj H1 (conj H2 (H3 eq_refl))).
Defined.

(** ** Unescaping underscores *)

Lemma is_escaped_next (pre rest : str) (ch : ascii) :
  is_escaped_at (pre ++ ch :: rest) (S (length pre))
  = odd_run_after (is_escaped_at (pre ++ ch :: rest) (length pre)) ch.
Proof.
  unfold is_escaped_at, odd_run_after. rewrite backslash_run_next.
  destruct (ch =? "\")%char; [|reflexivity].
  rewrite Nat.odd_succ, <- Nat.negb_odd. reflexivity.
Qed.

Lemma unescape_from_keep (o : bool) (ch : ascii) (t : str) :
  (ch =? "\")%char && negb o && starts_with_underscore t = false ->
  unescape_from o (ch :: t) = ch :: unescape_from (odd_run_after o ch) t.
Proof.
  intros H. destruct t as [|next t]; [reflexivity|].
  cbn [unescape_from starts_with_underscore] in *.
  destruct (ch =? "\")%char, (next =? "_")%char, o;
    try reflexivity; discriminate H.
Qed.

Lemma unescape_from_fire (t : str) :
  unescape_from false ("\"%char :: "_"%char :: t)
  = "_"%char :: unescape_from false t.
Proof. reflexivity. Qed.

Lemma escape_from_cons (o : bool) (ch : ascii) (t : str) :
  escape_from o (ch :: t)
  = (if (ch =? "_")%char then if o then [ch] else ["\"%char; ch] else [ch])
      ++ escape_from (odd_run_after o ch) t.
Proof.
  cbn [escape_from]. unfold odd_run_after.
  destruct (Ascii.eqb_spec ch "_") as [E|E].
  - subst ch. reflexivity.
  - destruct (ch =? "\")%char; reflexivity.
Qed.

(** The loop of [unescape_math_underscores] as a scan of the text. *)
Lemma unescape_loop_scan (n : nat) :
  forall (rest pre : str) (fuel : nat),
    length rest <= n -> length rest <= fuel ->
    unescape_loop fuel (pre ++ rest) (length pre)
    = unescape_from (is_escaped_at (pre ++ rest) (length pre)) rest.
Proof.
  induction n as [|n IH]; intros rest pre fuel Hn Hf.
  - destruct rest; [|simpl in Hn; lia]. rewrite app_nil_r.
    destruct fuel; cbn [unescape_loop unescape_from]; [reflexivity|].
    rewrite Nat.ltb_irrefl. reflexivity.
  - destruct rest as [|ch rest].
    + rewrite app_nil_r.
      destruct fuel; cbn [unescape_loop unescape_from]; [reflexivity|].
      rewrite Nat.ltb_irrefl. reflexivity.
    + simpl in Hn, Hf. destruct fuel as [|fuel]; [lia|].
      cbn [unescape_loop].
      replace (length pre <? length (pre ++ ch :: rest)) with true
        by (symmetry; apply Nat.ltb_lt; rewrite length_app; simpl; lia).
      rewrite nth_middle.
      assert (E1 : pre ++ ch :: rest = (pre ++ [ch]) ++ rest)
        by (rewrite <- app_assoc; reflexivity).
      assert (L1 : length pre + 1 = length (pre ++ [ch]))
        by (rewrite length_app; reflexivity).
      assert (Hkeep : unescape_loop fuel (pre ++ ch :: rest) (length pre + 1)
                      = unescape_from
                          (odd_run_after
                             (is_escaped_at (pre ++ ch :: rest) (length pre)) ch)
                          rest).
      { rewrite <- is_escaped_next.
        replace (S (length pre)) with (length pre + 1) by lia.
        rewrite L1, E1. apply IH; lia. }
      destruct rest as [|next rest].
      * replace (length pre + 1 <? length (pre ++ [ch])) with false
          by (symmetry; apply Nat.ltb_ge; rewrite length_app; simpl; lia).
        rewrite andb_false_r. cbn [andb]. rewrite Hkeep. reflexivity.
      * replace (length pre + 1 <? length (pre ++ ch :: next :: rest)) with true
          by (symmetry; apply Nat.ltb_lt; rewrite length_app; simpl; lia).
        replace (nth (length pre + 1) (pre ++ ch :: next :: rest) zero)
          with next by (rewrite E1, L1, nth_middle; reflexivity).
        rewrite andb_true_r. cbn [unescape_from].
        destruct ((ch =? "\")%char && (next =? "_")%char
                  && negb (is_escaped_at (pre ++ ch :: next :: rest) (length pre)))
          eqn:Efire.
        -- f_equal.
           apply andb_true_iff in Efire. destruct Efire as [Efire _].
           apply andb_true_iff in Efire. destruct Efire as [_ En].
           apply Ascii.eqb_eq in En. subst next.
           replace (pre ++ ch :: "_"%char :: rest)
             with ((pre ++ [ch; "_"%char]) ++ rest)
             by (rewrite <- app_assoc; reflexivity).
           replace (length pre + 2) with (length (pre ++ [ch; "_"%char]))
             by (rewrite length_app; reflexivity).
           rewrite IH by (simpl in Hn, Hf; lia).
           f_equal.
           replace ((pre ++ [ch; "_"%char]) ++ rest)
             with ((pre ++ [ch]) ++ "_"%char :: rest)
             by (rewrite <- !app_assoc; reflexivity).
           replace (length (pre ++ [ch; "_"%char]))
             with (S (length (pre ++ [ch])))
             by (rewrite !length_app; simpl; lia).
           rewrite is_escaped_next. reflexivity.
        -- rewrite Hkeep. reflexivity.
Qed.

Lemma unescape_scan (x : str) :
  unescape_math_underscores x = unescape_from false x.
Proof.
  exact (unescape_loop_scan (length x) x [] (length x) (Nat.le_refl _)
           (Nat.le_refl _)).
Qed.

Lemma unescape_from_odd (ch : ascii) (t : str) :
  unescape_from true (ch :: t) = ch :: unescape_from (odd_run_after true ch) t.
Proof.
  apply unescape_from_keep. rewrite andb_false_r. reflexivity.
Qed.

(** The three cases of a step of the scan. *)
Lemma unescape_from_cases (o : bool) (ch : ascii) (t : str) :
  (o = false /\ ch = "\"%char /\ exists r, t = "_"%char :: r)
  \/ ((ch =? "\")%char && negb o && starts_with_underscore t = false).
Proof.
  destruct ((ch =? "\")%char && negb o && starts_with_underscore t) eqn:E;
    [left|right; reflexivity].
  apply andb_true_iff in E. destruct E as [E E3].
  apply andb_true_iff in E. destruct E as [E1 E2].
  apply Ascii.eqb_eq in E1. apply negb_true_iff in E2.
  destruct t as [|n r]; [discriminate E3|].
  apply Ascii.eqb_eq in E3. subst n. repeat split; try assumption.
  exists r. reflexivity.
Qed.

Lemma unescape_from_idem (n : nat) :
  forall (x : str) (o : bool), length x <= n ->
    unescape_from o (unescape_from o x) = unescape_from o x.
Proof.
  induction n as [|n IH]; intros x o Hn.
  - destruct x; [reflexivity|simpl in Hn; lia].
  - destruct x as [|ch t]; [reflexivity|]. simpl in Hn.
    destruct (unescape_from_cases o ch t) as [(-> & -> & r & ->)|Hk].
    + rewrite unescape_from_fire.
      rewrite unescape_from_keep by reflexivity.
      change (odd_run_after false "_") with false.
      rewrite IH by (simpl in Hn; lia). reflexivity.
    + rewrite (unescape_from_keep o ch t Hk).
      rewrite unescape_from_keep.
      * rewrite IH by lia. reflexivity.
      * destruct (ch =? "\")%char eqn:Eb; [|reflexivity].
        destruct o; [reflexivity|]. cbn [negb andb] in *.
        unfold odd_run_after. rewrite Eb. cbn [negb].
        destruct t as [|c t]; [reflexivity|].
        rewrite unescape_from_odd. exact Hk.
Qed.

Lemma escape_unescape_from (n : nat) :
  forall (x : str) (o : bool), length x <= n ->
    escape_from o (unescape_from o x) = escape_from o x.
Proof.
  induction n as [|n IH]; intros x o Hn.
  - destruct x; [reflexivity|simpl in Hn; lia].
  - destruct x as [|ch t]; [reflexivity|]. simpl in Hn.
    destruct (unescape_from_cases o ch t) as [(-> & -> & r & ->)|Hk].
    + rewrite unescape_from_fire.
      change (escape_from false ("_"%char :: unescape_from false r))
        with ("\"%char :: "_"%char :: escape_from false (unescape_from false r)).
      rewrite IH by (simpl in Hn; lia). reflexivity.
    + rewrite (unescape_from_keep o ch t Hk), !escape_from_cons.
      rewrite IH by lia. reflexivity.
Qed.

Lemma unescape_escape_from (n : nat) :
  forall (x : str) (o : bool), length x <= n ->
    unescape_from o (escape_from o x) = unescape_from o x.
Proof.
  induction n as [|n IH]; intros x o Hn.
  - destruct x; [reflexivity|simpl in Hn; lia].
  - destruct x as [|ch t]; [reflexivity|]. simpl in Hn.
    destruct (unescape_from_cases o ch t) as [(-> & -> & r & ->)|Hk].
    + rewrite unescape_from_fire.
      change (escape_from false ("\"%char :: "_"%char :: r))
        with ("\"%char :: "_"%char :: escape_from false r).
      rewrite unescape_from_fire.
      rewrite IH by (simpl in Hn; lia). reflexivity.
    + rewrite (unescape_from_keep o ch t Hk), escape_from_cons.
      destruct (Ascii.eqb_spec ch "_") as [Eu|Eu].
      * subst ch. change (odd_run_after o "_") with false.
        destruct o; cbn [app].
        -- rewrite unescape_from_odd.
           change (odd_run_after true "_") with false.
           rewrite IH by lia. reflexivity.
        -- rewrite unescape_from_fire, IH by lia. reflexivity.
      * cbn [app]. rewrite unescape_from_keep.
        -- rewrite IH by lia. reflexivity.
        -- destruct (ch =? "\")%char eqn:Eb; [|reflexivity].
           destruct o; [reflexivity|]. cbn [negb andb] in *.
           unfold odd_run_after. rewrite Eb. cbn [negb].
           destruct t as [|c t]; [reflexivity|].
           rewrite escape_from_cons. cbn [starts_with_underscore] in Hk.
           rewrite Hk. cbn [app starts_with_underscore]. exact Hk.
Qed.

Lemma unescape_from_none_escaped (n : nat) :
  forall (x : str) (o : bool), length x <= n ->
    o && starts_with_underscore x = false ->
    none_escaped o (unescape_from o x) = true.
Proof.
  induction n as [|n IH]; intros x o Hn Ho.
  - destruct x; [reflexivity|simpl in Hn; lia].
  - destruct x as [|ch t]; [reflexivity|]. simpl in Hn.
    destruct (unescape_from_cases o ch t) as [(-> & -> & r & ->)|Hk].
    + rewrite unescape_from_fire. cbn [none_escaped Ascii.eqb Bool.eqb negb andb].
      apply IH; [simpl in Hn; lia|reflexivity].
    + rewrite (unescape_from_keep o ch t Hk). cbn [none_escaped].
      cbn [starts_with_underscore] in Ho.
      assert (Ht : odd_run_after o ch && starts_with_underscore t = false).
      { unfold odd_run_after. destruct (ch =? "\")%char; [|reflexivity].
        cbn [andb] in Hk. exact Hk. }
      destruct (Ascii.eqb_spec ch "_") as [Eu|Eu].
      * subst ch. rewrite andb_true_r in Ho. subst o. cbn [negb andb].
        change (odd_run_after false "_") with false.
        apply IH; [lia|reflexivity].
      * apply IH; [lia|exact Ht].
Qed.

Lemma none_escaped_at (y pre : str) (i : nat) :
  none_escaped (is_escaped_at (pre ++ y) (length pre)) y = true ->
  nth_error y i = Some "_"%char ->
  is_escaped_at (pre ++ y) (length pre + i) = false.
Proof.
  revert pre i. induction y as [|ch y IH]; intros pre i Ha Hn.
  - destruct i; discriminate Hn.
  - assert (E : pre ++ ch :: y = (pre ++ [ch]) ++ y)
      by (rewrite <- app_assoc; reflexivity).
    assert (El : S (length pre) = length (pre ++ [ch]))
      by (rewrite length_app; simpl; lia).
    cbn [none_escaped] in Ha.
    destruct i as [|i].
    + cbn [nth_error] in Hn. injection Hn as Hn. subst ch.
      change ("_" =? "_")%char with true in Ha. cbv iota in Ha.
      apply andb_true_iff in Ha. rewrite Nat.add_0_r.
      apply negb_true_iff. apply Ha.
    + cbn [nth_error] in Hn.
      replace (length pre + S i) with (length (pre ++ [ch]) + i)
        by (rewrite length_app; simpl; lia).
      rewrite E. apply IH; [|exact Hn].
      rewrite <- E, <- El, is_escaped_next.
      destruct (ch =? "_")%char eqn:Eu; [|exact Ha].
      apply Ascii.eqb_eq in Eu. subst ch.
      change (odd_run_after (is_escaped_at (pre ++ "_"%char :: y) (length pre)) "_")
        with false.
      apply andb_true_iff in Ha. apply Ha.
Qed.

(** After [unescape_math_underscores] no underscore is escaped: an even
    number of backslashes stands before it. Unescaping again changes
    nothing. *)
Theorem unescape_math_underscores_idempotent (x : str) :
  unescape_math_underscores (unescape_math_underscores x)
  = unescape_math_underscores x
  /\ forall i, nth_error (unescape_math_underscores x) i = Some "_"%char ->
               is_escaped_at (unescape_math_underscores x) i = false.
Proof.
  split.
  - rewrite !unescape_scan. apply (unescape_from_idem (length x)), Nat.le_refl.
  - intros i Hi.
    apply (none_escaped_at (unescape_math_underscores x) [] i); [|exact Hi].
    cbn [app length]. rewrite unescape_scan.
    apply (unescape_from_none_escaped (length x)); [apply Nat.le_refl|].
    reflexivity.
Qed.

(** Normalizing the inside of a math region twice gives what the second
    mode alone gives; when the second mode leaves the text as it is, what
    the first mode gives. *)
Theorem normalize_segment_twice (x mode1 mode2 : str) :
  normalize_math_underscores_segment
    (normalize_math_underscores_segment x mode1) mode2
  = if str_eqb mode2 (py "underscore") || str_eqb mode2 (py "escaped")
    then normalize_math_underscores_segment x mode2
    else normalize_math_underscores_segment x mode1.
Proof.
  assert (Huu := unescape_from_idem (length x) x false (Nat.le_refl _)).
  assert (Hee := escape_from_idem x false).
  assert (Heu := escape_unescape_from (length x) x false (Nat.le_refl _)).
  assert (Hue := unescape_escape_from (length x) x false (Nat.le_refl _)).
  unfold normalize_math_underscores_segment.
  destruct (str_eqb mode2 (py "underscore")) eqn:E2.
  - cbn [orb].
    destruct (str_eqb mode1 (py "underscore"));
      [|destruct (str_eqb mode1 (py "escaped"))];
      rewrite ?unescape_scan, ?escape_scan, ?unescape_scan;
      [exact Huu|exact Hue|reflexivity].
  - cbn [orb]. destruct (str_eqb mode2 (py "escaped")) eqn:E3; [|reflexivity].
    destruct (str_eqb mode1 (py "underscore"));
      [|destruct (str_eqb mode1 (py "escaped"))];
      rewrite ?escape_scan, ?unescape_scan, ?escape_scan;
      [exact Heu|exact Hee|reflexivity].
Qed.
